(** * BeamBench: the Gaussian-beam propagation engine, embedded in Rocq

  A shallow embedding of the numeric core of BeamBench
  (optics.js, sources.js, elements.js, propagation.js) together with the
  properties its specification states about it.

  Number model.  A JavaScript number is modelled as a real number: the
  arithmetic of the source is the arithmetic of [R], rounding, overflow,
  [NaN] and signed zeros are not represented.  A test on a number
  ([x || eps], [x > 0], ...) is the corresponding decision on [R]. *)

From Stdlib Require Import Reals Lra Lia ZArith List Bool String FinFun.
Import ListNotations.

Open Scope string_scope.
Open Scope R_scope.

(** ** JavaScript number idioms *)

Module JS.

(** [x || y] on numbers: [y] replaces [x] exactly when [x] is falsy,
    which for a real number means [x = 0]. *)
Definition or (x y : R) : R := if Req_dec_T x 0 then y else x.

(** [THREE.MathUtils.clamp(v, lo, hi)] is [max(lo, min(hi, v))]. *)
Definition clamp (v lo hi : R) : R := Rmax lo (Rmin hi v).

(** [Math.sign]. *)
Definition sign (x : R) : R :=
  if Rlt_dec 0 x then 1 else if Rlt_dec x 0 then -1 else 0.

(** [Math.atan2(y, x)], without signed zeros. *)
Definition atan2 (y x : R) : R :=
  if Rlt_dec 0 x then atan (y / x)
  else if Rlt_dec x 0 then
    (if Rle_dec 0 y then atan (y / x) + PI else atan (y / x) - PI)
  else if Rlt_dec 0 y then PI / 2
  else if Rlt_dec y 0 then - (PI / 2)
  else 0.

(** Comparisons of numbers as booleans: [x < y], [x <= y], [x >= y]. *)
Definition ltb (x y : R) : bool := if Rlt_dec x y then true else false.
Definition leb (x y : R) : bool := if Rle_dec x y then true else false.
Definition geb (x y : R) : bool := leb y x.
Definition gtb (x y : R) : bool := ltb y x.

(** [arr.sort((a,b)=>a-b)]: ascending numeric sort. *)
Fixpoint insertSorted (x : R) (l : list R) : list R :=
  match l with
  | [] => [x]
  | y :: r => if Rle_dec x y then x :: l else y :: insertSorted x r
  end.

Definition sortNum (l : list R) : list R := fold_right insertSorted [] l.

(** Ascending order, as consecutive pairs: what the sort establishes. *)
Fixpoint ascending (l : list R) : Prop :=
  match l with
  | a :: ((b :: _) as r) => a <= b /\ ascending r
  | _ => True
  end.

(** [THREE.MathUtils.radToDeg]. *)
Definition radToDeg (r : R) : R := r * (180 / PI).
Definition degToRad (d : R) : R := d * (PI / 180).

End JS.

(** ** optics.js: class Complex *)

Module Complex.

Record t : Type := mk { re : R; im : R }.

(** The argument of [add], [mul] and [div] is either a number or a
    [Complex]; [Complex.from] turns it into a [Complex]. *)
Inductive operand : Type :=
| OfNumber (x : R)
| OfComplex (c : t).

Definition from (x : operand) : t :=
  match x with
  | OfComplex c => c
  | OfNumber r => mk r 0
  end.

Definition clone (a : t) : t := mk (re a) (im a).

Definition add (a : t) (b : operand) : t :=
  let b := from b in mk (re a + re b) (im a + im b).

Definition mul (a : t) (b : operand) : t :=
  let b := from b in
  mk (re a * re b - im a * im b) (re a * im b + im a * re b).

(** [const d = b.re*b.re + b.im*b.im || 1e-18] of [div]. *)
Definition div_d (b : t) : R := JS.or (re b * re b + im b * im b) 1e-18.

Definition div (a : t) (b : operand) : t :=
  let b := from b in
  let d := div_d b in
  mk ((re a * re b + im a * im b) / d) ((im a * re b - re a * im b) / d).

(** [const d = this.re*this.re + this.im*this.im || 1e-18] of [inv]. *)
Definition inv_d (a : t) : R := JS.or (re a * re a + im a * im a) 1e-18.

Definition inv (a : t) : t :=
  let d := inv_d a in mk (re a / d) (- im a / d).

Definition expi (th : R) : t := mk (cos th) (sin th).

(** Squared magnitude, the quantity both denominators start from. *)
Definition abs2 (a : t) : R := re a * re a + im a * im a.

End Complex.

Coercion Complex.OfNumber : R >-> Complex.operand.
Coercion Complex.OfComplex : Complex.t >-> Complex.operand.

(** ** optics.js: Jones vectors *)

Module Optics.

(** A Jones vector is the two-element array [[Ex, Ey]]. *)
Definition Jones : Type := (Complex.t * Complex.t)%type.

Definition jNorm (J : Jones) : R :=
  let s0 := Complex.re (fst J) * Complex.re (fst J)
            + Complex.im (fst J) * Complex.im (fst J) in
  let s1 := Complex.re (snd J) * Complex.re (snd J)
            + Complex.im (snd J) * Complex.im (snd J) in
  sqrt (s0 + s1).

Definition abcd (q : Complex.t) (A B C D : R) : Complex.t :=
  let Aq := Complex.mul (Complex.from A) q in
  let num := Complex.add Aq B in
  let Cq := Complex.mul (Complex.from C) q in
  let den := Complex.add Cq D in
  Complex.div num den.

(** [class C2]: a 2x2 matrix of complex numbers. *)
Module C2.

Record t : Type := mk { a : Complex.t; b : Complex.t; c : Complex.t; d : Complex.t }.

Definition mul (x m : t) : t :=
  mk (Complex.add (Complex.mul (a x) (a m)) (Complex.mul (b x) (c m)))
     (Complex.add (Complex.mul (a x) (b m)) (Complex.mul (b x) (d m)))
     (Complex.add (Complex.mul (c x) (a m)) (Complex.mul (d x) (c m)))
     (Complex.add (Complex.mul (c x) (b m)) (Complex.mul (d x) (d m))).

Definition mulVec (x : t) (v : Jones) : Jones :=
  (Complex.add (Complex.mul (a x) (fst v)) (Complex.mul (b x) (snd v)),
   Complex.add (Complex.mul (c x) (fst v)) (Complex.mul (d x) (snd v))).

End C2.

Definition Rtheta (th : R) : C2.t :=
  let c := Complex.mk (cos th) 0 in
  let s := Complex.mk (sin th) 0 in
  C2.mk c s (Complex.mk (- Complex.re s) (- Complex.im s)) c.

Definition MWaveplate (delta : R) : C2.t :=
  C2.mk (Complex.mk 1 0) (Complex.mk 0 0) (Complex.mk 0 0) (Complex.expi delta).

Definition MPol : C2.t :=
  C2.mk (Complex.mk 1 0) (Complex.mk 0 0) (Complex.mk 0 0) (Complex.mk 0 0).

Definition MFaraday (phi : R) : C2.t := Rtheta phi.

End Optics.

(** ** propagation.js: free-space propagation of the beam parameter *)

Module Beam.

(** [freeSpace] of [recompute]: the ABCD transfer [[1, L], [0, 1]]. *)
Definition freeSpace (qIn : Complex.t) (L : R) : Complex.t :=
  let Aq := Complex.mul (Complex.clone qIn) (Complex.mk 1 0) in
  let num := Complex.add Aq L in
  let den := Complex.add (Complex.mul (Complex.clone qIn) (Complex.mk 0 0)) 1 in
  Complex.div num den.

(** [wFromQ] of [recompute]; the default [M2 = 1.0] is passed explicitly. *)
Definition wFromQ (qval : Complex.t) (wavelength M2 : R) : R :=
  let inv := Complex.inv qval in
  let denom := JS.or (Rabs (Complex.im inv) * PI) 1e-18 in
  sqrt M2 * sqrt (wavelength / denom).

End Beam.

(** ** three.js: the vector operations the engine calls

    three.js is an external library; these are its documented formulas. *)

Module THREE.

Record Vector3 : Type := vec3 { x : R; y : R; z : R }.

Record Quaternion : Type := quat { qx : R; qy : R; qz : R; qw : R }.

Definition clone (v : Vector3) : Vector3 := vec3 (x v) (y v) (z v).

Definition add (a b : Vector3) : Vector3 :=
  vec3 (x a + x b) (y a + y b) (z a + z b).

Definition sub (a b : Vector3) : Vector3 :=
  vec3 (x a - x b) (y a - y b) (z a - z b).

Definition multiplyScalar (a : Vector3) (s : R) : Vector3 :=
  vec3 (x a * s) (y a * s) (z a * s).

Definition dot (a b : Vector3) : R := x a * x b + y a * y b + z a * z b.

Definition length (a : Vector3) : R := sqrt (x a * x a + y a * y a + z a * z a).

(** [normalize()] is [divideScalar(length() || 1)], and [divideScalar(s)]
    is [multiplyScalar(1 / s)]. *)
Definition normalize (a : Vector3) : Vector3 :=
  multiplyScalar a (1 / JS.or (length a) 1).

Definition crossVectors (a b : Vector3) : Vector3 :=
  vec3 (y a * z b - z a * y b) (z a * x b - x a * z b) (x a * y b - y a * x b).

Definition applyQuaternion (v : Vector3) (q : Quaternion) : Vector3 :=
  let tx := 2 * (qy q * z v - qz q * y v) in
  let ty := 2 * (qz q * x v - qx q * z v) in
  let tz := 2 * (qx q * y v - qy q * x v) in
  vec3 (x v + qw q * tx + qy q * tz - qz q * ty)
       (y v + qw q * ty + qz q * tx - qx q * tz)
       (z v + qw q * tz + qx q * ty - qy q * tx).

(** An [Object3D] as far as the engine looks at it: its identity (what
    [!==] compares) and its world pose ([getWorldQuaternion],
    [getWorldPosition]). *)
Record Object3D : Type := object3D {
  uuid : nat;
  worldQuaternion : Quaternion;
  worldPosition : Vector3
}.

End THREE.

(** ** sources.js: the source record and the waist / Rayleigh-range sync *)

Module Sources.

(** [src.props].  [M2] and [intensity_rel] are read through [??], so they
    may be absent.  [customPolEx] and [customPolEy] hold the complex
    numbers that [parseC] reads from the two text fields. *)
Record Props : Type := mkProps {
  wavelength_nm : R;
  bandwidth_nm : R;
  specSamples : R;
  waist_w0_um : R;
  rayleigh_mm : R;
  forward_cm : R;
  backward_cm : R;
  intensity_rel : option R;
  M2 : option R;
  polPreset : string;
  customPolEx : Complex.t;
  customPolEy : Complex.t
}.

(** [src.group]: position and orientation of the emitter. *)
Record Group : Type := mkGroup {
  position : THREE.Vector3;
  quaternion : THREE.Quaternion
}.

Record Source : Type := mkSource {
  group : Group;
  props : Props;
  lastEdited : string
}.

Definition set_rayleigh_mm (p : Props) (v : R) : Props :=
  mkProps (wavelength_nm p) (bandwidth_nm p) (specSamples p) (waist_w0_um p)
          v (forward_cm p) (backward_cm p) (intensity_rel p) (M2 p)
          (polPreset p) (customPolEx p) (customPolEy p).

Definition set_waist_w0_um (p : Props) (v : R) : Props :=
  mkProps (wavelength_nm p) (bandwidth_nm p) (specSamples p) v
          (rayleigh_mm p) (forward_cm p) (backward_cm p) (intensity_rel p)
          (M2 p) (polPreset p) (customPolEx p) (customPolEy p).

(** [x ?? d]. *)
Definition nullish (x : option R) (d : R) : R :=
  match x with Some v => v | None => d end.

(** [syncSourceW0ZR(src)]: the source is mutated in place, the model
    returns the updated record. *)
Definition syncSourceW0ZR (src : Source) : Source :=
  let M2 := Rmax 1.0 (nullish (M2 (props src)) 1.0) in
  let lambda := wavelength_nm (props src) * 1e-9 in
  if String.eqb (lastEdited src) "w0" then
    let w0 := Rmax 1e-9 (waist_w0_um (props src) * 1e-6) in
    mkSource (group src)
             (set_rayleigh_mm (props src) ((PI * w0 * w0 / lambda) / M2 * 1e3))
             (lastEdited src)
  else
    let zR := Rmax 1e-12 (rayleigh_mm (props src) * 1e-3) in
    mkSource (group src)
             (set_waist_w0_um (props src) (sqrt (zR * lambda * M2 / PI) * 1e6))
             (lastEdited src).

(** The two [live] handlers of [buildSourceUI] that edit the waist and the
    Rayleigh range: they mark the edited quantity and synchronise. *)
Definition editWaist (v : R) (src : Source) : Source :=
  syncSourceW0ZR (mkSource (group src) (set_waist_w0_um (props src) v) "w0").

Definition editRayleigh (v : R) (src : Source) : Source :=
  syncSourceW0ZR (mkSource (group src) (set_rayleigh_mm (props src) v) "zR").

(** Waist to Rayleigh range and back: the waist is edited to [w], the
    Rayleigh range that results is entered in its own field, and the waist
    is read again. *)
Definition waistRoundTrip (w : R) (src : Source) : R :=
  let src1 := editWaist w src in
  let src2 := editRayleigh (rayleigh_mm (props src1)) src1 in
  waist_w0_um (props src2).

(** The other way round: the Rayleigh range is edited to [z], the waist
    that results is entered in its own field, and the Rayleigh range is
    read again. *)
Definition rayleighRoundTrip (z : R) (src : Source) : R :=
  let src1 := editRayleigh z src in
  let src2 := editWaist (waist_w0_um (props src1)) src1 in
  rayleigh_mm (props src2).

(** The [props] literal of [addSource]. *)
Definition defaultProps : Props :=
  mkProps 632.8 0 9 200 0 100 0 (Some 1.0) (Some 1.0)
          "Linear X" (Complex.mk 1 0) (Complex.mk 0 0).

(** [_jonesToPsiChiPol(Ex, Ey)] of [buildSourceUI]: the pair
    [(psi_deg, chi_deg)]. *)
Definition jonesToPsiChiPol (Ex Ey : Complex.t) : R * R :=
  let mag2 := (Complex.re Ex * Complex.re Ex + Complex.im Ex * Complex.im Ex)
              + (Complex.re Ey * Complex.re Ey + Complex.im Ey * Complex.im Ey) in
  if Rle_dec mag2 1e-18 then (0, 0)
  else
    let ExEy_conj_re := Complex.re Ex * Complex.re Ey + Complex.im Ex * Complex.im Ey in
    let ExEy_conj_im := Complex.im Ex * Complex.re Ey - Complex.re Ex * Complex.im Ey in
    let s1 := (Complex.re Ex * Complex.re Ex + Complex.im Ex * Complex.im Ex)
              - (Complex.re Ey * Complex.re Ey + Complex.im Ey * Complex.im Ey) in
    let s2 := 2 * ExEy_conj_re in
    let s3 := 2 * ExEy_conj_im in
    let psi := 0.5 * JS.atan2 s2 s1 in
    let chi := 0.5 * asin (Rmax (-1) (Rmin 1 (s3 / Rmax 1e-12 mag2))) in
    (psi * 180 / PI, chi * 180 / PI).

(** [_psiChiToJonesPol(psi_deg, chi_deg)]: the pair [(Ex, Ey)]. *)
Definition psiChiToJonesPol (psi_deg chi_deg : R) : Complex.t * Complex.t :=
  let psi := JS.or psi_deg 0 * PI / 180 in
  let chi := JS.or chi_deg 0 * PI / 180 in
  let cpsi := cos psi in
  let spsi := sin psi in
  let cchi := cos chi in
  let schi := sin chi in
  (Complex.mk (cpsi * cchi) (spsi * schi),
   Complex.mk (spsi * cchi) (- cpsi * schi)).

End Sources.

(** ** elements.js: the element record and its factories *)

Module Elements.

Record Band : Type := mkBand { band_min : R; band_max : R }.

(** [el.props], the union of the property bags of all element kinds.
    A field read through [??] or tested for presence is an [option]. *)
Record Props : Type := mkProps {
  f : R;
  flat : bool;
  R_ : option R;
  refl : option R;
  n : option R;
  dichroic : bool;
  reflBand_nm : option Band;
  transBand_nm : option Band;
  polarizing : bool;
  polTransmit : string;
  mode : string;
  d_um : R;
  orders : R;
  visibleOrders : option (Z -> option bool)
}.

Definition emptyProps : Props :=
  mkProps 0 false None None None false None None false "" "" 0 0 None.

(** An element: identity, type tag, collision mesh, properties and the
    transfer functions attached to the instance. *)
Record Element : Type := mkElement {
  id : nat;
  type : string;
  mesh : THREE.Object3D;
  props : Props;
  abcd : Complex.t -> Complex.t;
  abcdTransmit : option (Complex.t -> Complex.t);
  jones : option (Optics.Jones -> THREE.Vector3 -> Optics.Jones)
}.

Definition nullish (x : option R) (d : R) : R :=
  match x with Some v => v | None => d end.

(** The ABCD transfer with [A = 1], [B = 0], [D] and [C] given, as the
    factories spell it out. *)
Definition abcd1 (q : Complex.t) (C D : R) : Complex.t :=
  let Aq := Complex.mul (Complex.clone q) (Complex.mk 1 0) in
  let num := Complex.add Aq 0 in
  let Cq := Complex.mul (Complex.clone q) (Complex.mk C 0) in
  let den := Complex.add Cq D in
  Complex.div num den.

Definition identityJones : option (Optics.Jones -> THREE.Vector3 -> Optics.Jones) :=
  Some (fun j _ => j).

Definition makeLens (id : nat) (mesh : THREE.Object3D) (f : R) : Element :=
  let p := mkProps f false None None None false None None false "" "" 0 0 None in
  mkElement id "lens" mesh p (fun q => abcd1 q (- 1 / f) 1) None identityJones.

(** [makeMirror]: [abcdTransmit] is called by the engine without a
    context, so [surfaceKind] is ["front"], [n1 = 1.0] and [n2 = nGlass]. *)
Definition makeMirror (id : nat) (mesh : THREE.Object3D) (flat : bool)
    (R refl n : R) (dichroic : bool) (reflBand transBand : Band) : Element :=
  let p := mkProps 0 flat (Some R) (Some refl) (Some n) dichroic
                   (Some reflBand) (Some transBand) false "" "" 0 0 None in
  mkElement id "mirror" mesh p
    (fun q => if flat then q else abcd1 q (- 2 / R) 1)
    (Some (fun q =>
       if flat then q
       else if Rlt_dec (Rabs R) 1e-9 then q
       else
         let nGlass := n in
         let n1 := 1.0 in
         let n2 := nGlass in
         let isExiting := if Rlt_dec (Rabs (n1 - nGlass)) 1e-6 then true else false in
         let effectiveR := if isExiting then R else - R in
         abcd1 q ((n1 - n2) / (effectiveR * n2)) (n1 / n2)))
    identityJones.

Definition makeBeamSplitter (id : nat) (mesh : THREE.Object3D) (R : R)
    (polarizing : bool) (polTransmit : string) : Element :=
  let p := mkProps 0 false (Some R) None None false None None
                   polarizing polTransmit "" 0 0 None in
  mkElement id "beamSplitter" mesh p (fun q => q) None identityJones.

Definition makeBeamBlock (id : nat) (mesh : THREE.Object3D) : Element :=
  mkElement id "beamBlock" mesh emptyProps (fun q => q) None identityJones.

Definition makeGrating (id : nat) (mesh : THREE.Object3D) (mode : string)
    (d_um orders : R) : Element :=
  let p := mkProps 0 false None None None false None None false ""
                   mode d_um orders None in
  mkElement id "grating" mesh p (fun q => q) None identityJones.

Definition makeMultimeter (id : nat) (mesh : THREE.Object3D) : Element :=
  mkElement id "multimeter" mesh emptyProps (fun q => q) None identityJones.

(** [axisAngleInUV(el, ctx, axisDeg)]; [dir] is [ctx.dir]. *)
Definition axisAngleInUV (mesh : THREE.Object3D) (dir : THREE.Vector3)
    (axisDeg : R) : R :=
  let qW := THREE.worldQuaternion mesh in
  let xW := THREE.normalize (THREE.applyQuaternion (THREE.vec3 1 0 0) qW) in
  let yW := THREE.normalize (THREE.applyQuaternion (THREE.vec3 0 1 0) qW) in
  let thL := JS.degToRad axisDeg in
  let aW := THREE.normalize
              (THREE.add (THREE.multiplyScalar (THREE.clone xW) (cos thL))
                         (THREE.multiplyScalar (THREE.clone yW) (sin thL))) in
  let k := THREE.normalize (THREE.clone dir) in
  let u := THREE.vec3 0 1 0 in
  let v := THREE.normalize (THREE.crossVectors u k) in
  JS.atan2 (THREE.dot aW u) (THREE.dot aW v).

(** The [jones] methods of the three polarization elements.  The model's
    property bag has no field for [axisDeg], [delta] and [phiDeg]: the
    functions take them as arguments. *)
Definition polarizerJones (mesh : THREE.Object3D) (axisDeg : R)
    (j : Optics.Jones) (dir : THREE.Vector3) : Optics.Jones :=
  let th := axisAngleInUV mesh dir axisDeg in
  Optics.C2.mulVec
    (Optics.C2.mul (Optics.C2.mul (Optics.Rtheta (- th)) Optics.MPol)
                   (Optics.Rtheta th)) j.

Definition waveplateJones (mesh : THREE.Object3D) (delta axisDeg : R)
    (j : Optics.Jones) (dir : THREE.Vector3) : Optics.Jones :=
  let th := axisAngleInUV mesh dir axisDeg in
  Optics.C2.mulVec
    (Optics.C2.mul (Optics.C2.mul (Optics.Rtheta (- th)) (Optics.MWaveplate delta))
                   (Optics.Rtheta th)) j.

Definition faradaySign (mesh : THREE.Object3D) (dir : THREE.Vector3) : R :=
  let qW := THREE.worldQuaternion mesh in
  let nW := THREE.normalize (THREE.applyQuaternion (THREE.vec3 0 0 1) qW) in
  let k := THREE.normalize (THREE.clone dir) in
  if Rle_dec 0 (THREE.dot nW k) then 1 else -1.

Definition faradayJones (mesh : THREE.Object3D) (phiDeg : R)
    (j : Optics.Jones) (dir : THREE.Vector3) : Optics.Jones :=
  let phi := JS.degToRad (JS.or phiDeg 0) in
  let sgn := faradaySign mesh dir in
  Optics.C2.mulVec (Optics.Rtheta (- sgn * phi)) j.

Definition makePolarizer (id : nat) (mesh : THREE.Object3D) (axisDeg : R) : Element :=
  mkElement id "polarizer" mesh emptyProps (fun q => q) None
            (Some (polarizerJones mesh axisDeg)).

Definition makeWaveplate (id : nat) (mesh : THREE.Object3D) (delta axisDeg : R)
    : Element :=
  mkElement id "waveplate" mesh emptyProps (fun q => q) None
            (Some (waveplateJones mesh delta axisDeg)).

Definition makeFaraday (id : nat) (mesh : THREE.Object3D) (phiDeg : R) : Element :=
  mkElement id "faraday" mesh emptyProps (fun q => q) None
            (Some (faradayJones mesh phiDeg)).

End Elements.

(** ** ribbon.js: what a ribbon is built from *)

Module Ribbon.

(** The mesh geometry is outside the model: a ribbon is recorded by the
    centreline samples it was built from. *)
Record Mesh : Type := mkMesh {
  points : list THREE.Vector3;
  dirs : list THREE.Vector3;
  widths : list R;
  amps : list R;
  beamWidthScale : R;
  wavelength_nm : R
}.

(** [buildRibbon]: no mesh for fewer than two points.  The colour is
    [wavelengthNmToHex(nm)], kept here as [nm]. *)
Definition buildRibbon (points dirs : list THREE.Vector3) (widths amps : list R)
    (scale nm : R) : option Mesh :=
  if (List.length points <? 2)%nat then None
  else Some (mkMesh points dirs widths amps scale nm).

End Ribbon.

(** ** propagation.js: seeding *)

Module Propagation.

Import THREE.

Definition POL_SPACING : R := 0.005.
Definition AMP_CUTOFF : R := 0.02.
Definition MAX_BEAMS : nat := 600.

(** [params]: [maxSegments] is set by a slider of step 1 and is a
    natural number. *)
Record Params : Type := mkParams {
  maxSegments : nat;
  beamWidthScale : R;
  showPolarization : bool
}.

Record PolSample : Type := mkPolSample {
  s_p : Vector3;
  s_dir : Vector3;
  s_j : Optics.Jones;
  s_phase : R;
  s_wavelength : R
}.

(** A ray-path in flight. *)
Record Path : Type := mkPath {
  pos : Vector3;
  dir : Vector3;
  q : Complex.t;
  J : Optics.Jones;
  Jnorm : R;
  lambda : R;
  M2 : R;
  traveled : R;
  lastHit : option Object3D;
  maxLen : R;
  pts : list Vector3;
  dirs : list Vector3;
  widths : list R;
  amps : list R;
  polSamples : list PolSample;
  polSampleCountdown : R
}.

Definition set_pos (v : Vector3) (p : Path) : Path :=
  mkPath v (dir p) (q p) (J p) (Jnorm p) (lambda p) (M2 p) (traveled p)
         (lastHit p) (maxLen p) (pts p) (dirs p) (widths p) (amps p)
         (polSamples p) (polSampleCountdown p).

Definition set_dir (v : Vector3) (p : Path) : Path :=
  mkPath (pos p) v (q p) (J p) (Jnorm p) (lambda p) (M2 p) (traveled p)
         (lastHit p) (maxLen p) (pts p) (dirs p) (widths p) (amps p)
         (polSamples p) (polSampleCountdown p).

Definition set_q (v : Complex.t) (p : Path) : Path :=
  mkPath (pos p) (dir p) v (J p) (Jnorm p) (lambda p) (M2 p) (traveled p)
         (lastHit p) (maxLen p) (pts p) (dirs p) (widths p) (amps p)
         (polSamples p) (polSampleCountdown p).

Definition set_J (v : Optics.Jones) (p : Path) : Path :=
  mkPath (pos p) (dir p) (q p) v (Jnorm p) (lambda p) (M2 p) (traveled p)
         (lastHit p) (maxLen p) (pts p) (dirs p) (widths p) (amps p)
         (polSamples p) (polSampleCountdown p).

Definition set_traveled (v : R) (p : Path) : Path :=
  mkPath (pos p) (dir p) (q p) (J p) (Jnorm p) (lambda p) (M2 p) v
         (lastHit p) (maxLen p) (pts p) (dirs p) (widths p) (amps p)
         (polSamples p) (polSampleCountdown p).

Definition set_lastHit (v : option Object3D) (p : Path) : Path :=
  mkPath (pos p) (dir p) (q p) (J p) (Jnorm p) (lambda p) (M2 p) (traveled p)
         v (maxLen p) (pts p) (dirs p) (widths p) (amps p)
         (polSamples p) (polSampleCountdown p).

(** [jonesFrom(preset, exStr, eyStr)]; the two strings arrive parsed. *)
Definition jonesFrom (preset : string) (ex ey : Complex.t) : Optics.Jones :=
  if String.eqb preset "Linear X" then (Complex.mk 1 0, Complex.mk 0 0)
  else if String.eqb preset "Linear Y" then (Complex.mk 0 0, Complex.mk 1 0)
  else if String.eqb preset "+45°" then
    let a := 1 / sqrt 2 in (Complex.mk a 0, Complex.mk a 0)
  else if String.eqb preset "-45°" then
    let a := 1 / sqrt 2 in (Complex.mk a 0, Complex.mk (- a) 0)
  else if String.eqb preset "RHC" then
    let a := 1 / sqrt 2 in (Complex.mk a 0, Complex.mk 0 (- a))
  else if String.eqb preset "LHC" then
    let a := 1 / sqrt 2 in (Complex.mk a 0, Complex.mk 0 a)
  else (ex, ey).

Definition polEllipseAngles (J : Optics.Jones) : R * R :=
  let a := fst J in
  let b := snd J in
  let ax2 := Complex.re a * Complex.re a + Complex.im a * Complex.im a in
  let ay2 := Complex.re b * Complex.re b + Complex.im b * Complex.im b in
  let re_abStar := Complex.re a * Complex.re b + Complex.im a * Complex.im b in
  let im_abStar := - Complex.re a * Complex.im b + Complex.im a * Complex.re b in
  let S0 := ax2 + ay2 in
  let S1 := ax2 - ay2 in
  let S2 := 2 * re_abStar in
  let S3 := 2 * im_abStar in
  (0.5 * JS.atan2 S2 S1 * 180 / PI,
   0.5 * asin (Rmax (-1) (Rmin 1 (if Req_dec_T S0 0 then 0 else S3 / S0)))
   * 180 / PI).

Definition reflectAcrossElementNormal (dirv : Vector3) (el : Elements.Element)
    : Vector3 :=
  let worldQ := worldQuaternion (Elements.mesh el) in
  let nWorld := normalize (applyQuaternion (vec3 0 0 1) worldQ) in
  normalize (sub (clone dirv)
                 (multiplyScalar (clone nWorld) (2 * dot dirv nWorld))).

(** *** Spectral samples *)

Record Sample : Type := mkSample { s_lambda : R; weight : R }.

(** [N] after the two adjustments: floor, at least one, odd when the
    bandwidth is positive. *)
Definition sampleCount (specSamples BW : R) : Z :=
  let N := Z.max 1 (Zfloor (JS.or specSamples 1)) in
  if Rlt_dec 0 BW then (if Z.even N then N + 1 else N)%Z else N.

(** The sample pushed by iteration [i] of the loop, before normalisation. *)
Definition rawSample (lambda0 BW : R) (N : Z) (i : nat) : Sample :=
  let half := (IZR N - 1) / 2 in
  let frac := (INR i - half) / half in
  let dnm := frac * BW * 0.5 in
  let lambda_nm := (lambda0 * 1e9) + dnm in
  let lambda := Rmax 1e-12 (lambda_nm * 1e-9) in
  let w := exp (- 4 * ln 2 * (dnm / BW) ^ 2) in
  mkSample lambda w.

(** [samples.reduce((a,b)=>a+b.weight,0)]. *)
Definition sumWeights (samples : list Sample) : R :=
  fold_left (fun a b => a + weight b) samples 0.

Definition spectralSamples (lambda0 BW specSamples : R) : list Sample :=
  let N := sampleCount specSamples BW in
  if Rle_dec BW 0 then [mkSample lambda0 1]
  else if (N =? 1)%Z then [mkSample lambda0 1]
  else
    let samples := map (rawSample lambda0 BW N) (seq 0 (Z.to_nat N)) in
    let sumW := JS.or (sumWeights samples) 1 in
    map (fun smp => mkSample (s_lambda smp) (weight smp / sumW)) samples.

(** *** Seeds *)

(** The per-source constants computed at the top of the seeding loop. *)
Definition w0_m (s : Sources.Source) : R :=
  Rmax 1e-9 (Sources.waist_w0_um (Sources.props s) * 1e-6).

Definition zR_center (s : Sources.Source) : R :=
  Rmax 1e-12 (Sources.rayleigh_mm (Sources.props s) * 1e-3).

Definition sourceM2 (s : Sources.Source) : R :=
  Rmax 1.0 (Sources.nullish (Sources.M2 (Sources.props s)) 1.0).

(** [zR] of [makeSeed]. *)
Definition seedZR (s : Sources.Source) (lambda : R) : R :=
  if String.eqb (Sources.lastEdited s) "w0"
  then (PI * w0_m s * w0_m s / lambda) / sourceM2 s
  else zR_center s.

Definition makeSeed (s : Sources.Source) (dir : Vector3) (maxLen lambda weight : R)
    : Path :=
  let Jsrc0 := jonesFrom (Sources.polPreset (Sources.props s))
                         (Sources.customPolEx (Sources.props s))
                         (Sources.customPolEy (Sources.props s)) in
  let Irel := Rmax 0 (Sources.nullish (Sources.intensity_rel (Sources.props s)) 1) in
  let J0 := Rmax 1e-12 (Optics.jNorm Jsrc0) in
  let M2 := sourceM2 s in
  let origin := clone (Sources.position (Sources.group s)) in
  let zR := seedZR s lambda in
  let q0 := Complex.mk 0 zR in
  let Jscaled := (Complex.mul (fst Jsrc0) (sqrt (weight * Irel)),
                  Complex.mul (snd Jsrc0) (sqrt (weight * Irel))) in
  let amp0 := Optics.jNorm Jscaled / J0 in
  mkPath (clone origin) (clone dir) (Complex.clone q0)
         (Complex.clone (fst Jscaled), Complex.clone (snd Jscaled))
         J0 lambda M2 0 None maxLen
         [clone origin] [clone dir]
         [Beam.wFromQ (Complex.clone q0) lambda M2] [amp0]
         [] (POL_SPACING / 2.0).

(** The seeds of one source, after [clampToPlaneXZ] and [syncSourceW0ZR]. *)
Definition seedsOf (s : Sources.Source) : list Path :=
  let lambda0 := Sources.wavelength_nm (Sources.props s) * 1e-9 in
  let BW := Rmax 0 (JS.or (Sources.bandwidth_nm (Sources.props s)) 0) in
  let dirF := normalize (applyQuaternion (vec3 0 0 1)
                           (Sources.quaternion (Sources.group s))) in
  let dirB := multiplyScalar (clone dirF) (-1) in
  let samples := spectralSamples lambda0 BW (Sources.specSamples (Sources.props s)) in
  let Lf := Rmax 0 (Sources.forward_cm (Sources.props s) * 0.01) in
  let Lb := Rmax 0 (Sources.backward_cm (Sources.props s) * 0.01) in
  flat_map (fun smp =>
      ((if Rlt_dec 0 Lf then [makeSeed s dirF Lf (s_lambda smp) (weight smp)] else [])
       ++ (if Rlt_dec 0 Lb then [makeSeed s dirB Lb (s_lambda smp) (weight smp)] else []))%list)
    samples.

(** *** Readout records and maps *)

Record Info : Type := mkInfo {
  aoi_deg : R;
  incomingDir : Vector3;
  x_mm : R;
  z_mm : R;
  w_um : R;
  w0_um : R;
  R_mm : option R;             (* [None] is [Infinity] *)
  Irel : R;
  psi_deg : R;
  chi_deg : R;
  wavelength_nm : option R;    (* only the detector records it *)
  z_to_waist_mm : R;
  zR_mm : R
}.

(** The readout literal every branch builds from the state of one
    ray-path [p]: [aoi] and [inc] are [aoi_deg_hit] and [incomingDir_hit]. *)
Definition beamInfo (aoi : R) (inc : Vector3) (p : Path) (Irel : R)
    (wl : option R) : Info :=
  let invq := Complex.inv (q p) in
  let w_um := Beam.wFromQ (q p) (lambda p) (M2 p) * 1e6 in
  let zR_m := Complex.im (q p) in
  let w0_um := sqrt (zR_m * lambda p * M2 p / PI) * 1e6 in
  let R_mm := if Rlt_dec (Rabs (Complex.re invq)) 1e-12 then None
              else Some ((1 / Complex.re invq) * 1e3) in
  let polAngles := polEllipseAngles (J p) in
  mkInfo aoi inc (x (pos p) * 1e3) (z (pos p) * 1e3) w_um w0_um R_mm Irel
         (fst polAngles) (snd polAngles) wl
         (Complex.re (q p) * 1e3) (zR_m * 1e3).

Record Order : Type := mkOrder {
  m : Z;
  o_dir : Vector3;
  betaDeg : R;
  disp_deg_per_nm : option R   (* [None] is [Infinity] *)
}.

Record GratingInfo : Type := mkGratingInfo {
  alphaDeg : R;
  entries : list (Z * R * option R)
}.

(** [Map.prototype.set]: an existing key keeps its place. *)
Fixpoint mapSet {V : Type} (k : nat) (v : V) (mp : list (nat * V))
    : list (nat * V) :=
  match mp with
  | [] => [(k, v)]
  | (k', v') :: r => if (k' =? k)%nat then (k, v) :: r else (k', v') :: mapSet k v r
  end.

Fixpoint mapGet {V : Type} (k : nat) (mp : list (nat * V)) : option V :=
  match mp with
  | [] => None
  | (k', v') :: r => if (k' =? k)%nat then Some v' else mapGet k r
  end.

(** Everything [recompute] mutates while it traverses. *)
Record State : Type := mkState {
  queue : list Path;
  completedPaths : list Path;
  elementLastInfo : list (nat * Info);
  meterLastInfo : list (nat * Info);
  gratingLastInfo : list (nat * GratingInfo);
  meterUpdated : bool
}.

Definition queuePush (p : Path) (st : State) : State :=
  mkState (queue st ++ [p]) (completedPaths st) (elementLastInfo st)
          (meterLastInfo st) (gratingLastInfo st) (meterUpdated st).

Definition setElementInfo (k : nat) (i : Info) (st : State) : State :=
  mkState (queue st) (completedPaths st) (mapSet k i (elementLastInfo st))
          (meterLastInfo st) (gratingLastInfo st) (meterUpdated st).

Definition setMeterInfo (k : nat) (i : Info) (st : State) : State :=
  mkState (queue st) (completedPaths st) (elementLastInfo st)
          (mapSet k i (meterLastInfo st)) (gratingLastInfo st) true.

Definition setGratingInfo (k : nat) (i : GratingInfo) (st : State) : State :=
  mkState (queue st) (completedPaths st) (elementLastInfo st)
          (meterLastInfo st) (mapSet k i (gratingLastInfo st)) (meterUpdated st).

(** *** Dense sampling of a free-space segment *)

(** The [while (path.polSampleCountdown <= 0)] loop; [c] is the running
    countdown and [acc] the growing [path.polSamples]. *)
Fixpoint polLoop (fuel : nat) (L : R) (path : Path) (c : R)
    (acc : list PolSample) : R * list PolSample :=
  match fuel with
  | O => (c, acc)
  | S fuel' =>
      if Rle_dec c 0 then
        let sampleDistInSeg := L + c in
        let p := add (clone (pos path))
                     (multiplyScalar (clone (dir path)) sampleDistInSeg) in
        let k_phase := (2 * PI) / lambda path in
        let totalDist := traveled path + sampleDistInSeg in
        let spatialPhase := k_phase * totalDist in
        polLoop fuel' L path (c + POL_SPACING)
                (acc ++ [mkPolSample p (clone (dir path))
                           (Complex.clone (fst (J path)), Complex.clone (snd (J path)))
                           spatialPhase (lambda path)])
      else (c, acc)
  end.

(** Number of iterations after which the countdown is positive again. *)
Definition polIterations (c : R) : nat :=
  Z.to_nat (Zfloor (- c / POL_SPACING) + 1).

Definition cutsOf (q0 : Complex.t) (L : R) : list R :=
  let zWaist := - Complex.re q0 in
  JS.sortNum
    (if JS.ltb 0 zWaist && JS.ltb zWaist L then
       let eps := Rmax (L * 1e-4) 1e-6 in
       [0; L; Rmax 0 (zWaist - eps); zWaist; Rmin L (zWaist + eps)]
     else [0; L]).

(** Number of samples of a sub-segment of length [subL]. *)
Definition denseCount (subL : R) : nat :=
  Z.to_nat (Z.min 160 (Z.max 10 (Zfloor (subL * 50)))).

(** The distances [t] at which the two nested loops push a sample. *)
Fixpoint denseTs (cuts : list R) : list R :=
  match cuts with
  | a :: ((b :: _) as rest) =>
      let subL := Rmax 0 (b - a) in
      ((if Rle_dec subL 0 then []
        else let N := denseCount subL in
             map (fun i => a + (INR i / INR N) * subL) (seq 1 N))
       ++ denseTs rest)%list
  | _ => []
  end.

Definition sampleSegment (params : Params) (path : Path) (L : R) : Path :=
  let pol :=
    if showPolarization params then
      let c := polSampleCountdown path - L in
      polLoop (polIterations c) L path c (polSamples path)
    else (polSampleCountdown path, polSamples path) in
  let q0 := q path in
  let ts := denseTs (cutsOf q0 L) in
  let aHere := Optics.jNorm (J path) / Jnorm path in
  mkPath (pos path) (dir path) (q path) (J path) (Jnorm path) (lambda path)
         (M2 path) (traveled path) (lastHit path) (maxLen path)
         (pts path ++ map (fun t => add (clone (pos path))
                                      (multiplyScalar (clone (dir path)) t)) ts)
         (dirs path ++ map (fun _ => clone (dir path)) ts)
         (widths path ++ map (fun t => Beam.wFromQ (Beam.freeSpace q0 t)
                                                  (lambda path) (M2 path)) ts)
         (amps path ++ map (fun _ => aHere) ts)
         (snd pol) (fst pol).

(** The four pushes that record the current state as a sample. *)
Definition pushSample (p : Path) : Path :=
  mkPath (pos p) (dir p) (q p) (J p) (Jnorm p) (lambda p) (M2 p) (traveled p)
         (lastHit p) (maxLen p)
         (pts p ++ [clone (pos p)]) (dirs p ++ [clone (dir p)])
         (widths p ++ [Beam.wFromQ (q p) (lambda p) (M2 p)])
         (amps p ++ [Optics.jNorm (J p) / Jnorm p])
         (polSamples p) (polSampleCountdown p).

(** [p.pos.add(p.dir.clone().multiplyScalar(1e-6))]. *)
Definition nudge (p : Path) : Path :=
  set_pos (add (pos p) (multiplyScalar (clone (dir p)) 1e-6)) p.

(** [cloneBase()]: [dir], [J] and [lastHit] are assigned by the caller. *)
Definition cloneBase (path : Path) : Path :=
  mkPath (clone (pos path)) (dir path) (Complex.clone (q path)) (J path)
         (Jnorm path) (lambda path) (M2 path) (traveled path) None
         (maxLen path) (pts path) (dirs path) (widths path) (amps path)
         (polSamples path) (polSampleCountdown path).

(** Relative amplitude and intensity of a ray-path. *)
Definition relAmp (p : Path) : R := Optics.jNorm (J p) / Jnorm p.
Definition relInt (p : Path) : R := (Optics.jNorm (J p) / Jnorm p) ^ 2.

(** *** Element interactions *)

(** One entry of [rc.intersectObjects]; [element] is
    [hit.object.userData.element]. *)
Record Hit : Type := mkHit {
  distance : R;
  point : Vector3;
  object : Object3D;
  element : Elements.Element
}.

(** How an iteration of the [for] loop ends: [break], or on to the next
    step ([continue] and the end of the body alike). *)
Inductive Flow : Type := Break | Continue.

(** [h.object !== path.lastHit]. *)
Definition notLastHit (lastHit : option Object3D) (h : Hit) : bool :=
  match lastHit with
  | None => true
  | Some o => negb (uuid (object h) =? uuid o)%nat
  end.

(** [queue.push(b)] guarded by the amplitude cutoff. *)
Definition pushIfVisible (b : Path) (st : State) : State :=
  if JS.geb (relAmp b) AMP_CUTOFF then queuePush b st else st.

(** **** Beam splitter / PBS *)

Definition splitterR (el : Elements.Element) : R :=
  Rmin 1 (Rmax 0 (Elements.nullish (Elements.R_ (Elements.props el)) 0.5)).

Definition splitTransmitted (hit : Hit) (el : Elements.Element) (path : Path) : Path :=
  let isPBS := Elements.polarizing (Elements.props el) in
  let wantTransmit := String.eqb (Elements.polTransmit (Elements.props el)) "Vertical" in
  let t := cloneBase path in
  let t := set_dir (clone (dir path)) t in
  let t := set_lastHit (Some (object hit)) t in
  let t := set_J
    (if isPBS then
       (if wantTransmit then (Complex.mk 0 0, Complex.clone (snd (J path)))
        else (Complex.clone (fst (J path)), Complex.mk 0 0))
     else
       let R := splitterR el in
       let T := 1 - R in
       (Complex.mul (fst (J path)) (sqrt T), Complex.mul (snd (J path)) (sqrt T))) t in
  nudge (pushSample t).

Definition splitReflected (hit : Hit) (el : Elements.Element) (path : Path) : Path :=
  let isPBS := Elements.polarizing (Elements.props el) in
  let wantTransmit := String.eqb (Elements.polTransmit (Elements.props el)) "Vertical" in
  let r := cloneBase path in
  let r := set_dir (reflectAcrossElementNormal (dir path) el) r in
  let r := set_lastHit (Some (object hit)) r in
  let r := set_J
    (if isPBS then
       (if wantTransmit then (Complex.clone (fst (J path)), Complex.mk 0 0)
        else (Complex.mk 0 0, Complex.clone (snd (J path))))
     else
       let R := splitterR el in
       let phase := 1 in
       (Complex.mul (fst (J path)) (sqrt R * phase),
        Complex.mul (snd (J path)) (sqrt R * (-1 * phase)))) r in
  nudge (pushSample r).

Definition hitBeamSplitter (hit : Hit) (el : Elements.Element) (aoi : R)
    (inc : Vector3) (path : Path) (st : State) : Path * State * Flow :=
  let transmitted := splitTransmitted hit el path in
  let reflected := splitReflected hit el path in
  let tI := relInt transmitted in
  let rI := relInt reflected in
  let best := if JS.geb tI rI then transmitted else reflected in
  let st := setElementInfo (Elements.id el)
              (beamInfo aoi inc best (if JS.geb tI rI then tI else rI) None) st in
  let st := pushIfVisible transmitted st in
  let st := pushIfVisible reflected st in
  (path, st, Break).

(** **** Mirror *)

Definition inBand (nm : R) (band : option Elements.Band) : bool :=
  match band with
  | None => false
  | Some b => JS.geb nm (Elements.band_min b) && JS.leb nm (Elements.band_max b)
  end.

(** [(refl, T)] after the dichroic override. *)
Definition mirrorCoefficients (el : Elements.Element) (path : Path) : R * R :=
  let refl := Rmin 1 (Rmax 0 (Elements.nullish (Elements.refl (Elements.props el)) 1)) in
  let T := 1 - refl in
  if Elements.dichroic (Elements.props el) then
    let nm := lambda path * 1e9 in
    if inBand nm (Elements.reflBand_nm (Elements.props el)) then (1, 0)
    else if inBand nm (Elements.transBand_nm (Elements.props el)) then (0, 1)
    else (0, 1)
  else (refl, T).

Definition mirrorTransmitted (hit : Hit) (el : Elements.Element) (T : R)
    (path : Path) : Path :=
  let t := cloneBase path in
  let t := set_dir (clone (dir path)) t in
  let t := set_lastHit (Some (object hit)) t in
  let t := set_J (Complex.mul (fst (J path)) (sqrt T),
                  Complex.mul (snd (J path)) (sqrt T)) t in
  let t := if negb (Elements.flat (Elements.props el)) then
             match Elements.abcdTransmit el with
             | Some g => set_q (g (q t)) t
             | None => t
             end
           else t in
  nudge (pushSample t).

Definition mirrorReflected (hit : Hit) (el : Elements.Element) (refl : R)
    (path : Path) : Path :=
  let r := cloneBase path in
  let r := set_dir (reflectAcrossElementNormal (dir path) el) r in
  let r := set_lastHit (Some (object hit)) r in
  let r := if negb (Elements.flat (Elements.props el))
           then set_q (Elements.abcd el (q r)) r else r in
  let phase := 1 in
  let r := set_J (Complex.mul (fst (J path)) (sqrt refl * phase),
                  Complex.mul (snd (J path)) (sqrt refl * (-1 * phase))) r in
  nudge (pushSample r).

Definition hitMirror (hit : Hit) (el : Elements.Element) (aoi : R)
    (inc : Vector3) (path : Path) (st : State) : Path * State * Flow :=
  let '(refl, T) := mirrorCoefficients el path in
  let transmitted := if Rlt_dec 0 T then Some (mirrorTransmitted hit el T path) else None in
  let st := match transmitted with
            | Some t => pushIfVisible t st
            | None => st
            end in
  let reflected := if Rlt_dec 0 refl then Some (mirrorReflected hit el refl path) else None in
  let st := match reflected with
            | Some r => pushIfVisible r st
            | None => st
            end in
  let best0 : option Path * R := (None, -1) in
  let best1 := match transmitted with
               | Some t => let It := relInt t in
                           if JS.gtb It (snd best0) then (Some t, It) else best0
               | None => best0
               end in
  let best2 := match reflected with
               | Some r => let Ir := (Optics.jNorm (J r) / Jnorm path) ^ 2 in
                           if JS.gtb Ir (snd best1) then (Some r, Ir) else best1
               | None => best1
               end in
  let st := match fst best2 with
            | Some b => setElementInfo (Elements.id el)
                          (beamInfo aoi inc b (snd best2) None) st
            | None => st
            end in
  (path, st, Break).

(** **** Diffraction grating *)

(** The loop body of [computeGratingOrders] for one order [m]. *)
Definition gratingOrder (el : Elements.Element) (nrm t : Vector3)
    (sinAlpha fromSide lambda d : R) (m : Z) : option Order :=
  let sinBeta := sinAlpha - (IZR m * lambda / d) in
  if Rlt_dec 1 (Rabs sinBeta) then None
  else
    let cosBeta := sqrt (Rmax 0 (1 - sinBeta * sinBeta)) in
    let beta := JS.atan2 sinBeta cosBeta in
    let betaDeg := JS.radToDeg beta in
    let nComp := (if String.eqb (Elements.mode (Elements.props el)) "reflective"
                  then - fromSide else fromSide) * cosBeta in
    let dirOut := normalize (add (multiplyScalar (clone nrm) nComp)
                                 (multiplyScalar (clone t) sinBeta)) in
    let disp := if Rlt_dec 1e-12 cosBeta
                then Some (Rabs (- IZR m / (d * cosBeta)) * (180 / PI) * 1e-9)
                else None in
    Some (mkOrder m dirOut betaDeg disp).

(** [sinAlpha] of [computeGratingOrders]. *)
Definition gratingNormal (el : Elements.Element) : Vector3 :=
  normalize (applyQuaternion (vec3 0 0 1) (worldQuaternion (Elements.mesh el))).

Definition gratingTangent (el : Elements.Element) : Vector3 :=
  let nrm := gratingNormal el in
  let t := applyQuaternion (vec3 1 0 0) (worldQuaternion (Elements.mesh el)) in
  normalize (sub t (multiplyScalar (clone nrm) (dot t nrm))).

Definition gratingSinAlpha (el : Elements.Element) (inDir : Vector3) : R :=
  JS.clamp (dot inDir (gratingTangent el)) (-1) 1.

(** [M] and the values [m] of the loop [for (m = -M; m <= M; m++)]. *)
Definition gratingM (el : Elements.Element) : Z :=
  Z.max 0 (Zfloor (Elements.orders (Elements.props el))).

Definition orderRange (M : Z) : list Z :=
  map (fun k => (- M + Z.of_nat k)%Z) (seq 0 (Z.to_nat (2 * M + 1))).

Definition computeGratingOrders (el : Elements.Element) (inDir : Vector3)
    (lambda : R) : list Order * GratingInfo :=
  let nrm := gratingNormal el in
  let t := gratingTangent el in
  let sinAlpha := gratingSinAlpha el inDir in
  let cosAlpha := Rabs (JS.clamp (dot inDir nrm) (-1) 1) in
  let alpha := JS.atan2 sinAlpha cosAlpha in
  let alphaDeg := JS.radToDeg alpha in
  let d := Elements.d_um (Elements.props el) * 1e-6 in
  let M := gratingM el in
  let fromSide := JS.or (JS.sign (dot inDir nrm)) 1 in
  let out := flat_map (fun m =>
                 match gratingOrder el nrm t sinAlpha fromSide lambda d m with
                 | Some o => [o]
                 | None => []
                 end) (orderRange M) in
  (out, mkGratingInfo alphaDeg
          (map (fun o => (m o, betaDeg o, disp_deg_per_nm o)) out)).

(** [el.props.visibleOrders?.[o.m] === false]. *)
Definition orderHidden (el : Elements.Element) (o : Order) : bool :=
  match Elements.visibleOrders (Elements.props el) with
  | Some vis => match vis (m o) with Some false => true | _ => false end
  | None => false
  end.

Definition gratingBranch (hit : Hit) (el : Elements.Element) (gain : R)
    (path : Path) (o : Order) : Path :=
  let isReflective := String.eqb (Elements.mode (Elements.props el)) "reflective" in
  let b := cloneBase path in
  let b := set_dir (clone (o_dir o)) b in
  let b := set_lastHit (Some (object hit)) b in
  let b := set_J
    (if isReflective then
       let phase := 1 in
       (Complex.mul (fst (J path)) (gain * phase),
        Complex.mul (snd (J path)) (gain * (-1 * phase)))
     else
       (Complex.mul (fst (J path)) gain, Complex.mul (snd (J path)) gain)) b in
  nudge (pushSample b).

(** The loop over the orders: the state and [_bestForThisGrating]. *)
Fixpoint gratingLoop (hit : Hit) (el : Elements.Element) (gain : R) (path : Path)
    (os : list Order) (best : option (R * Path)) (st : State)
    : option (R * Path) * State :=
  match os with
  | [] => (best, st)
  | o :: rest =>
      if orderHidden el o then gratingLoop hit el gain path rest best st
      else
        let branch := gratingBranch hit el gain path o in
        let Ibr := relInt branch in
        let best := match best with
                    | None => Some (Ibr, branch)
                    | Some (I0, b0) => if JS.gtb Ibr I0 then Some (Ibr, branch) else best
                    end in
        gratingLoop hit el gain path rest best (pushIfVisible branch st)
  end.

(** The readout of a grating keeps the intensity of its strongest order
    under the key [I]; the model stores it in [Irel]. *)
Definition hitGrating (hit : Hit) (el : Elements.Element) (aoi : R)
    (inc : Vector3) (path : Path) (st : State) : Path * State * Flow :=
  let '(orders, ginfo) := computeGratingOrders el (dir path) (lambda path) in
  let st := setGratingInfo (Elements.id el) ginfo st in
  match orders with
  | [] => (path, st, Break)
  | _ =>
      let gain := 1 / sqrt (INR (List.length orders)) in
      let '(best, st) := gratingLoop hit el gain path orders None st in
      let st := match best with
                | Some (Ibest, b) => setElementInfo (Elements.id el)
                                       (beamInfo aoi inc b Ibest None) st
                | None => st
                end in
      (path, st, Break)
  end.

(** **** Detector, lens and the single-branch elements *)

Definition hitMultimeter (hit : Hit) (el : Elements.Element) (aoi : R)
    (inc : Vector3) (path : Path) (st : State) : Path * State * Flow :=
  let aRel := Optics.jNorm (J path) / Jnorm path in
  let Irel := aRel * aRel in
  let lambda_nm := lambda path * 1e9 in
  let st := setMeterInfo (Elements.id el)
              (beamInfo aoi inc path Irel (Some lambda_nm)) st in
  let path := set_lastHit (Some (object hit)) path in
  let path := pushSample path in
  let path := nudge path in
  (path, st, Continue).

(** The direction a thin lens sends the ray to. *)
Definition lensNewDir (el : Elements.Element) (path : Path) : Vector3 :=
  let qW := worldQuaternion (Elements.mesh el) in
  let nrm := normalize (applyQuaternion (vec3 0 0 1) qW) in
  let uSeed := if Rlt_dec 0.999 (Rabs (dot (vec3 0 1 0) nrm))
               then vec3 1 0 0 else vec3 0 1 0 in
  let u := normalize (sub (clone uSeed) (multiplyScalar (clone nrm) (dot uSeed nrm))) in
  let v := normalize (crossVectors nrm u) in
  let c := worldPosition (Elements.mesh el) in
  let r := sub (clone (pos path)) c in
  let ru := dot r u in
  let rv := dot r v in
  let denom := dot (dir path) nrm in
  let denomAbs := Rmax 1e-6 (Rabs denom) in
  let sgn := if Rle_dec 0 denom then 1 else -1 in
  let su := dot (dir path) u / denomAbs in
  let sv := dot (dir path) v / denomAbs in
  let f := JS.or (Elements.f (Elements.props el)) 1.0 in
  let su2 := su - (ru / f) in
  let sv2 := sv - (rv / f) in
  normalize (add (add (multiplyScalar (clone nrm) sgn)
                      (multiplyScalar (clone u) su2))
                 (multiplyScalar (clone v) sv2)).

Definition hitLens (hit : Hit) (el : Elements.Element) (aoi : R)
    (inc : Vector3) (path : Path) (st : State) : Path * State * Flow :=
  let path := set_q (Elements.abcd el (q path)) path in
  let path := set_dir (lensNewDir el path) path in
  let aRel := Optics.jNorm (J path) / Jnorm path in
  let st := setElementInfo (Elements.id el)
              (beamInfo aoi inc path (aRel * aRel) None) st in
  let path := set_lastHit (Some (object hit)) path in
  let path := pushSample path in
  let path := nudge path in
  (path, st, Continue).

Definition hitOther (hit : Hit) (el : Elements.Element) (aoi : R)
    (inc : Vector3) (path : Path) (st : State) : Path * State * Flow :=
  let path := set_q (Elements.abcd el (q path)) path in
  let path := set_J (match Elements.jones el with
                     | Some g => g (J path) (clone (dir path))
                     | None => J path
                     end) path in
  let aRel := Optics.jNorm (J path) / Jnorm path in
  let st := setElementInfo (Elements.id el)
              (beamInfo aoi inc path (aRel * aRel) None) st in
  let path := set_lastHit None path in
  let path := pushSample path in
  (path, st, Continue).

(** The dispatch on [el.type], after the ray has been brought to the hit
    plane. *)
Definition interact (hit : Hit) (path : Path) (st : State) : Path * State * Flow :=
  let el := element hit in
  let qW_hit := worldQuaternion (Elements.mesh el) in
  let nWorld_hit := normalize (applyQuaternion (vec3 0 0 1) qW_hit) in
  let cosTheta := Rabs (dot (dir path) nWorld_hit) in
  let aoi_deg_hit := JS.radToDeg (acos (JS.clamp cosTheta 0 1)) in
  let incomingDir_hit := clone (dir path) in
  if String.eqb (Elements.type el) "beamBlock" then (path, st, Break)
  else if String.eqb (Elements.type el) "beamSplitter" then
    hitBeamSplitter hit el aoi_deg_hit incomingDir_hit path st
  else if String.eqb (Elements.type el) "mirror" then
    hitMirror hit el aoi_deg_hit incomingDir_hit path st
  else if String.eqb (Elements.type el) "grating" then
    hitGrating hit el aoi_deg_hit incomingDir_hit path st
  else if String.eqb (Elements.type el) "multimeter" then
    hitMultimeter hit el aoi_deg_hit incomingDir_hit path st
  else if String.eqb (Elements.type el) "lens" then
    hitLens hit el aoi_deg_hit incomingDir_hit path st
  else hitOther hit el aoi_deg_hit incomingDir_hit path st.

(** [sampleSegment(L); path.traveled += L; path.pos = hit.point.clone();
    path.q = freeSpace(path.q, L)]. *)
Definition propagateTo (params : Params) (hit : Hit) (path : Path) : Path :=
  let L := distance hit in
  let path := sampleSegment params path L in
  let path := set_traveled (traveled path + L) path in
  let path := set_pos (clone (point hit)) path in
  set_q (Beam.freeSpace (q path) L) path.

(** *** The traversal *)

Section Traversal.

(** [THREE.Raycaster(origin, direction, near, far).intersectObjects(meshes)]:
    the hits, nearest first. *)
Variable intersectObjects :
  Vector3 -> Vector3 -> R -> R -> list Object3D -> list Hit.

(** [clampToPlaneXZ] comes with the context of [recompute]. *)
Variable clampToPlaneXZ : Sources.Group -> Sources.Group.

Variable params : Params.
Variable elements : list Elements.Element.

Definition meshes : list Object3D := map Elements.mesh elements.

(** The body of the [for] loop. *)
Definition step (path : Path) (st : State) : Path * State * Flow :=
  let hits := filter (notLastHit (lastHit path))
                (intersectObjects (pos path) (dir path) 1e-8
                   (Rmax 1e-5 (maxLen path - traveled path)) meshes) in
  match hits with
  | [] =>
      let L := maxLen path - traveled path in
      let path := sampleSegment params path L in
      (set_traveled (traveled path + L) path, st, Break)
  | hit :: _ => interact hit (propagateTo params hit path) st
  end.

(** [for (step = 0; step < maxSteps && path.traveled < path.maxLen; step++)],
    with [n] the steps that remain; the third component counts the
    executions of the body. *)
Fixpoint march (n : nat) (path : Path) (st : State) : Path * State * nat :=
  match n with
  | O => (path, st, O)
  | S n' =>
      if Rlt_dec (traveled path) (maxLen path) then
        match step path st with
        | (path', st', Break) => (path', st', 1%nat)
        | (path', st', Continue) =>
            let '(p, s, k) := march n' path' st' in (p, s, S k)
        end
      else (path, st, O)
  end.

(** The guard of the [while] loop. *)
Definition loopGuard (st : State) : bool :=
  negb (List.length (queue st) =? 0)%nat
  && (List.length (completedPaths st) + List.length (queue st) <? MAX_BEAMS)%nat.

(** One iteration of the [while] loop: [queue.shift()], the [for] loop,
    [completedPaths.push(path)]. *)
Definition workIteration (st : State) : State :=
  match queue st with
  | [] => st
  | path :: rest =>
      let st := mkState rest (completedPaths st) (elementLastInfo st)
                        (meterLastInfo st) (gratingLastInfo st) (meterUpdated st) in
      let '(path', st', _) := march (maxSegments params) path st in
      mkState (queue st') (completedPaths st' ++ [path']) (elementLastInfo st')
              (meterLastInfo st') (gratingLastInfo st') (meterUpdated st')
  end.

(** The [while] loop; [None] when the fuel runs out before the guard
    fails. *)
Fixpoint workLoop (fuel : nat) (st : State) : option State :=
  if loopGuard st then
    match fuel with
    | O => None
    | S fuel' => workLoop fuel' (workIteration st)
    end
  else Some st.

(** The source [recompute] adds when the scene has none. *)
Definition implicitSource : Sources.Source :=
  Sources.syncSourceW0ZR
    (Sources.mkSource (Sources.mkGroup (vec3 0.0 0.0 (-0.0004)) (quat 0 0 0 1))
                      Sources.defaultProps "w0").

(** What [recompute] leaves behind. *)
Record Result : Type := mkResult {
  final : State;
  ribbonMeshes : list Ribbon.Mesh
}.

(** [completedPaths.forEach(...)] of "Draw ribbons". *)
Definition drawRibbons (completed : list Path) : list Ribbon.Mesh :=
  flat_map (fun p =>
      let nm := lambda p * 1e9 in
      match Ribbon.buildRibbon (pts p) (dirs p) (widths p) (amps p)
                               (beamWidthScale params) nm with
      | Some mesh => [mesh]
      | None => []
      end) completed.

(** [recompute(context)].  [elementLastInfo] is cleared, the two other
    maps keep the entries of earlier calls. *)
Definition recompute (sources : list Sources.Source)
    (meterLastInfo0 : list (nat * Info))
    (gratingLastInfo0 : list (nat * GratingInfo)) : option Result :=
  let activeSources := match sources with
                       | [] => [implicitSource]
                       | _ => sources
                       end in
  let seeds := flat_map (fun s =>
      let s := Sources.mkSource (clampToPlaneXZ (Sources.group s))
                                (Sources.props s) (Sources.lastEdited s) in
      seedsOf (Sources.syncSourceW0ZR s)) activeSources in
  let st0 := mkState seeds [] [] meterLastInfo0 gratingLastInfo0 false in
  match workLoop MAX_BEAMS st0 with
  | Some st => Some (mkResult st (drawRibbons (completedPaths st)))
  | None => None
  end.

End Traversal.

End Propagation.

(** ** Shapes of ray-paths

    Predicates and abbreviations used to state what the traversal keeps. *)

Module Shape.

Import Propagation.

(** The four sample arrays of a ray-path run in parallel, as
    [buildRibbon] reads them, and are not empty. *)
Definition aligned (p : Path) : Prop :=
  List.length (dirs p) = List.length (pts p)
  /\ List.length (widths p) = List.length (pts p)
  /\ List.length (amps p) = List.length (pts p)
  /\ (1 <= List.length (pts p))%nat.

(** [b] is a branch spawned from [path] at [hit]: a clone that recorded
    the hit point as one more sample, ignores the struck mesh on its next
    raycast and starts 1e-6 past the hit point along its own direction. *)
Definition branchOf (path : Path) (hit : Hit) (b : Path) : Prop :=
  lastHit b = Some (object hit)
  /\ traveled b = traveled path
  /\ maxLen b = maxLen path
  /\ lambda b = lambda path
  /\ M2 b = M2 path
  /\ Jnorm b = Jnorm path
  /\ pts b = (pts path ++ [pos path])%list
  /\ dirs b = (dirs path ++ [dir b])%list
  /\ List.length (widths b) = S (List.length (widths path))
  /\ List.length (amps b) = S (List.length (amps path))
  /\ polSamples b = polSamples path
  /\ pos b = THREE.add (pos path) (THREE.multiplyScalar (dir b) 1e-6).

(** [p'] continues [path] past an element that lets it through: the hit
    point is one more sample and the budget is untouched. *)
Definition continues (path p' : Path) : Prop :=
  pts p' = (pts path ++ [pos path])%list
  /\ dirs p' = (dirs path ++ [dir p'])%list
  /\ List.length (widths p') = S (List.length (widths path))
  /\ List.length (amps p') = S (List.length (amps path))
  /\ traveled p' = traveled path
  /\ maxLen p' = maxLen path
  /\ lambda p' = lambda path
  /\ M2 p' = M2 path
  /\ Jnorm p' = Jnorm path.

(** The seeds [recompute] queues. *)
Definition allSeeds (clampToPlaneXZ : Sources.Group -> Sources.Group)
    (sources : list Sources.Source) : list Path :=
  flat_map (fun s =>
      seedsOf (Sources.syncSourceW0ZR
                 (Sources.mkSource (clampToPlaneXZ (Sources.group s))
                                   (Sources.props s) (Sources.lastEdited s))))
    (match sources with [] => [implicitSource] | _ => sources end).

(** What a step does to a ray-path when nothing is hit: it flies out its
    remaining length. *)
Definition flyOut (params : Params) (p : Path) : Path :=
  let L := maxLen p - traveled p in
  set_traveled (traveled (sampleSegment params p L) + L) (sampleSegment params p L).

(** The polarization marker of [path] at the distance [d] from where it
    stands. *)
Definition marker (path : Path) (d : R) : PolSample :=
  mkPolSample (THREE.add (pos path) (THREE.multiplyScalar (dir path) d))
              (dir path) (J path)
              ((2 * PI) / lambda path * (traveled path + d)) (lambda path).

(** The queue of [st'] is the queue of [st] with ray-paths that satisfy
    [Q] pushed at its end. *)
Definition grows (Q : Path -> Prop) (st st' : State) : Prop :=
  exists added,
    queue st' = (queue st ++ added)%list /\ Forall Q added.

(** [p] carries the wavelength, beam quality, normalisation and length
    budget of one of [seeds]. *)
Definition fromSeed (seeds : list Path) (p : Path) : Prop :=
  exists s,
    In s seeds
    /\ lambda p = lambda s /\ M2 p = M2 s /\ Jnorm p = Jnorm s
    /\ maxLen p = maxLen s.

End Shape.

(** ** state.js: the undo / redo history

    A captured state is opaque to the history; [S] is its type.
    [index] is [historyIndex], starting at [-1]. *)

Module History.

Definition MAX_HISTORY : nat := 50.

Section Stack.

Variable S : Type.

Record t : Type := mk {
  history : list S;
  historyIndex : Z
}.

Definition empty : t := mk [] (-1).

(** [pushHistory()]: [restoring] is [isRestoringState], [current] what
    [captureState()] returns. *)
Definition pushHistory (restoring : bool) (current : S) (h : t) : t :=
  if restoring then h
  else
    let hist :=
      if (historyIndex h <? Z.of_nat (List.length (history h)) - 1)%Z
      then firstn (Z.to_nat (historyIndex h + 1)) (history h)   (* splice(i + 1) *)
      else history h in
    let hist := (hist ++ [current])%list in
    let hist := if (MAX_HISTORY <? List.length hist)%nat then tl hist else hist in
    mk hist (Z.of_nat (List.length hist) - 1).

(** [undo()]: the new history and the state handed to [restoreState]. *)
Definition undo (h : t) : t * option S :=
  if (0 <? historyIndex h)%Z then
    let i := (historyIndex h - 1)%Z in
    (mk (history h) i, nth_error (history h) (Z.to_nat i))
  else (h, None).

(** [redo()]. *)
Definition redo (h : t) : t * option S :=
  if (historyIndex h <? Z.of_nat (List.length (history h)) - 1)%Z then
    let i := (historyIndex h + 1)%Z in
    (mk (history h) i, nth_error (history h) (Z.to_nat i))
  else (h, None).

(** The histories the three operations produce from the empty one: the
    index is [-1] on an empty history and points at an entry otherwise,
    and no more than [MAX_HISTORY] entries are kept. *)
Definition wf (h : t) : Prop :=
  ((history h = [] /\ historyIndex h = (-1)%Z)
   \/ (0 <= historyIndex h < Z.of_nat (List.length (history h)))%Z)
  /\ (List.length (history h) <= MAX_HISTORY)%nat.

(** The entry the index points at. *)
Definition current (h : t) : option S :=
  if (historyIndex h <? 0)%Z then None
  else nth_error (history h) (Z.to_nat (historyIndex h)).

End Stack.

End History.

(** ** A small bench

    The default source in front of one element, and a raycaster that
    reports that element at a fixed distance along the ray. *)

Module Bench.

Import THREE.

Definition panel (n : nat) (zpos : R) : Object3D :=
  object3D n (quat 0 0 0 1) (vec3 0 0 zpos).

Definition block : Elements.Element := Elements.makeBeamBlock 1 (panel 1 0.5).

Definition meter : Elements.Element := Elements.makeMultimeter 2 (panel 2 0.3).

Definition splitter : Elements.Element :=
  Elements.makeBeamSplitter 3 (panel 3 0.4) 0.5 false "Vertical".


Definition params : Propagation.Params := Propagation.mkParams 60 120 false.

(** The one seed of the default source: forward, 1 m, 632.8 nm. *)
Definition ray : Propagation.Path :=
  Propagation.makeSeed Propagation.implicitSource
    (normalize (applyQuaternion (vec3 0 0 1) (quat 0 0 0 1)))
    (Rmax 0 (100 * 0.01)) (632.8 * 1e-9) 1.

Definition hitOn (el : Elements.Element) (dist : R) : Propagation.Hit :=
  Propagation.mkHit dist (vec3 0 0 (-0.0004 + dist)) (Elements.mesh el) el.

(** A raycaster that always reports [el] at distance [dist]. *)
Definition alwaysHits (el : Elements.Element) (dist : R)
    : Vector3 -> Vector3 -> R -> R -> list Object3D -> list Propagation.Hit :=
  fun _ _ _ _ _ => [hitOn el dist].

(** The state [recompute] starts from when a single seed is queued. *)
Definition start (seed : Propagation.Path) : Propagation.State :=
  Propagation.mkState [seed] [] [] [] [] false.

End Bench.

(** * Properties *)

(** ** Number idioms *)

Lemma or_nonzero (x y : R) : y <> 0 -> JS.or x y <> 0.
Proof. unfold JS.or; destruct (Req_dec_T x 0); auto. Qed.

Lemma or_of_nonzero (x y : R) : x <> 0 -> JS.or x y = x.
Proof. unfold JS.or; destruct (Req_dec_T x 0); tauto. Qed.

Lemma or_of_zero (y : R) : JS.or 0 y = y.
Proof. unfold JS.or; destruct (Req_dec_T 0 0); tauto. Qed.

Lemma Rmax_of_le (a b : R) : a <= b -> Rmax a b = b.
Proof. intros; unfold Rmax; destruct (Rle_dec a b); lra. Qed.

Lemma Rmax_of_ge (a b : R) : b <= a -> Rmax a b = a.
Proof. intros; unfold Rmax; destruct (Rle_dec a b); lra. Qed.

Lemma Rmin_of_le (a b : R) : a <= b -> Rmin a b = a.
Proof. intros; unfold Rmin; destruct (Rle_dec a b); lra. Qed.

Lemma Rmin_of_ge (a b : R) : b <= a -> Rmin a b = b.
Proof. intros; unfold Rmin; destruct (Rle_dec a b); lra. Qed.

Lemma clamp_bounds (v lo hi : R) : lo <= hi -> lo <= JS.clamp v lo hi <= hi.
Proof.
  intros H; unfold JS.clamp, Rmax, Rmin.
  destruct (Rle_dec hi v); destruct (Rle_dec lo _); lra.
Qed.

Lemma PI_gt_3 : 3 < PI.
Proof. pose proof PI2_3_2; lra. Qed.

(** ** Complex arithmetic *)

Lemma abs2_nonneg (a : Complex.t) : 0 <= Complex.abs2 a.
Proof. unfold Complex.abs2; nra. Qed.

Lemma div_d_spec (b : Complex.t) :
  Complex.div_d b = if Req_dec_T (Complex.abs2 b) 0 then 1e-18 else Complex.abs2 b.
Proof. reflexivity. Qed.

Lemma inv_d_spec (b : Complex.t) :
  Complex.inv_d b = if Req_dec_T (Complex.abs2 b) 0 then 1e-18 else Complex.abs2 b.
Proof. reflexivity. Qed.

Lemma freeSpace_eq (q : Complex.t) (L : R) :
  Beam.freeSpace q L = Complex.mk (Complex.re q + L) (Complex.im q).
Proof.
  destruct q as [x y]; unfold Beam.freeSpace, Complex.div, Complex.div_d; simpl.
  replace ((x * 0 - y * 0 + 1) * (x * 0 - y * 0 + 1)
           + (x * 0 + y * 0 + 0) * (x * 0 + y * 0 + 0)) with 1 by ring.
  rewrite or_of_nonzero by lra.
  f_equal; field.
Qed.

(** C1.  Free-space propagation over a distance [L >= 0] of a beam
    parameter with positive imaginary part adds [L] to the real part and
    leaves the imaginary part (the Rayleigh range) unchanged. *)
Theorem freeSpace_adds_distance (q1 : Complex.t) (L : R) :
  0 < Complex.im q1 -> 0 <= L ->
  Complex.im (Beam.freeSpace q1 L) = Complex.im q1
  /\ Complex.re (Beam.freeSpace q1 L) = Complex.re q1 + L.
Proof.
  intros _ _; rewrite freeSpace_eq; simpl; split; reflexivity.
Qed.

Lemma freeSpace_adds_distance_witness :
  Complex.im (Beam.freeSpace (Complex.mk 0 0.2) 0.5) = 0.2
  /\ Complex.re (Beam.freeSpace (Complex.mk 0 0.2) 0.5) = 0 + 0.5.
Proof.
  apply (freeSpace_adds_distance (Complex.mk 0 0.2) 0.5); simpl; lra.
Defined.

(** C9, as stated, fails: a squared magnitude below [1e-18] that is not
    zero is used as it is.  For [b = 1e-10] the denominator is [1e-20],
    not the floor [1e-18], and [1 / b] comes out as [1e10]. *)
Lemma div_denominator_not_floored :
  Complex.abs2 (Complex.mk 1e-10 0) < 1e-18
  /\ Complex.div_d (Complex.mk 1e-10 0) <> Rmax 1e-18 (Complex.abs2 (Complex.mk 1e-10 0))
  /\ Complex.inv_d (Complex.mk 1e-10 0) <> Rmax 1e-18 (Complex.abs2 (Complex.mk 1e-10 0))
  /\ Complex.div (Complex.mk 1 0) (Complex.mk 1e-10 0) = Complex.mk 1e10 0.
Proof.
  assert (E : Complex.abs2 (Complex.mk 1e-10 0) = 1e-20)
    by (unfold Complex.abs2; simpl; lra).
  assert (D : Complex.div_d (Complex.mk 1e-10 0) = 1e-20).
  { rewrite div_d_spec, E. destruct (Req_dec_T 1e-20 0); lra. }
  assert (I : Complex.inv_d (Complex.mk 1e-10 0) = 1e-20).
  { rewrite inv_d_spec, E. destruct (Req_dec_T 1e-20 0); lra. }
  rewrite E. repeat split.
  - lra.
  - rewrite D, Rmax_of_ge by lra. lra.
  - rewrite I, Rmax_of_ge by lra. lra.
  - cbv beta iota zeta delta [Complex.div Complex.from].
    rewrite D. simpl. f_equal; lra.
Qed.

(** C9, amended.  Division and inversion are total and never divide by
    zero: the squared magnitude is replaced by [1e-18] exactly when it is
    zero, and is used unchanged otherwise, however small. *)
Theorem div_inv_denominator_guard (a b : Complex.t) :
  Complex.div_d b <> 0 /\ Complex.inv_d b <> 0
  /\ (Complex.abs2 b = 0 -> Complex.div_d b = 1e-18 /\ Complex.inv_d b = 1e-18)
  /\ (Complex.abs2 b <> 0 ->
      Complex.div_d b = Complex.abs2 b /\ Complex.inv_d b = Complex.abs2 b)
  /\ Complex.div a b
     = Complex.mk ((Complex.re a * Complex.re b + Complex.im a * Complex.im b)
                   / Complex.div_d b)
                  ((Complex.im a * Complex.re b - Complex.re a * Complex.im b)
                   / Complex.div_d b)
  /\ Complex.inv b
     = Complex.mk (Complex.re b / Complex.inv_d b) (- Complex.im b / Complex.inv_d b).
Proof.
  assert (G : Complex.div_d b <> 0 /\ Complex.inv_d b <> 0
              /\ (Complex.abs2 b = 0 ->
                  Complex.div_d b = 1e-18 /\ Complex.inv_d b = 1e-18)
              /\ (Complex.abs2 b <> 0 ->
                  Complex.div_d b = Complex.abs2 b /\ Complex.inv_d b = Complex.abs2 b)).
  { rewrite div_d_spec, inv_d_spec.
    destruct (Req_dec_T (Complex.abs2 b) 0) as [Z | NZ].
    - repeat split; try lra; try tauto.
    - repeat split; try assumption; try tauto. }
  destruct G as (G1 & G2 & G3 & G4).
  repeat split; try assumption; try (apply G3; assumption); try (apply G4; assumption).
Qed.

(** ** Waist and Rayleigh range of a source *)

Lemma sqrt_of_square (x y : R) : 0 <= y -> x = y * y -> sqrt x = y.
Proof. intros Hy ->; apply sqrt_square; assumption. Qed.

(** What the synchronisation writes when the waist is the edited
    quantity. *)
Lemma sync_w0 (src : Sources.Source) :
  Sources.lastEdited src = "w0" ->
  Sources.syncSourceW0ZR src
  = Sources.mkSource (Sources.group src)
      (Sources.set_rayleigh_mm (Sources.props src)
         ((PI * Rmax 1e-9 (Sources.waist_w0_um (Sources.props src) * 1e-6)
              * Rmax 1e-9 (Sources.waist_w0_um (Sources.props src) * 1e-6)
           / (Sources.wavelength_nm (Sources.props src) * 1e-9))
          / Rmax 1.0 (Sources.nullish (Sources.M2 (Sources.props src)) 1.0) * 1e3))
      (Sources.lastEdited src).
Proof. intros H; unfold Sources.syncSourceW0ZR; rewrite H; reflexivity. Qed.

(** What it writes otherwise. *)
Lemma sync_zR (src : Sources.Source) :
  String.eqb (Sources.lastEdited src) "w0" = false ->
  Sources.syncSourceW0ZR src
  = Sources.mkSource (Sources.group src)
      (Sources.set_waist_w0_um (Sources.props src)
         (sqrt (Rmax 1e-12 (Sources.rayleigh_mm (Sources.props src) * 1e-3)
                * (Sources.wavelength_nm (Sources.props src) * 1e-9)
                * Rmax 1.0 (Sources.nullish (Sources.M2 (Sources.props src)) 1.0)
                / PI) * 1e6))
      (Sources.lastEdited src).
Proof. intros H; unfold Sources.syncSourceW0ZR; rewrite H; reflexivity. Qed.




Lemma waistRoundTrip_eq (w : R) (src : Sources.Source) :
  Sources.waistRoundTrip w src
  = sqrt (Rmax 1e-12
            ((PI * Rmax 1e-9 (w * 1e-6) * Rmax 1e-9 (w * 1e-6)
              / (Sources.wavelength_nm (Sources.props src) * 1e-9))
             / Rmax 1.0 (Sources.nullish (Sources.M2 (Sources.props src)) 1.0)
             * 1e3 * 1e-3)
          * (Sources.wavelength_nm (Sources.props src) * 1e-9)
          * Rmax 1.0 (Sources.nullish (Sources.M2 (Sources.props src)) 1.0)
          / PI) * 1e6.
Proof.
  unfold Sources.waistRoundTrip, Sources.editRayleigh, Sources.editWaist.
  cbv zeta. rewrite (sync_w0 (Sources.mkSource _ _ "w0")) by reflexivity.
  rewrite sync_zR by reflexivity. reflexivity.
Qed.

(** C7, as stated, fails for a waist below the floor of one nanometre:
    a waist of 1e-4 um comes back as 1e-3 um, ten times the original. *)
Lemma waist_roundtrip_below_floor :
  let src := Sources.mkSource
               (Sources.mkGroup (THREE.vec3 0 0 0) (THREE.quat 0 0 0 1))
               Sources.defaultProps "w0" in
  0 < 1e-4 /\ Sources.waistRoundTrip 1e-4 src = 10 * 1e-4.
Proof.
  cbv zeta. split; [ lra | ].
  rewrite waistRoundTrip_eq. simpl.
  rewrite (Rmax_of_ge 1e-9) by lra. rewrite (Rmax_of_le 1.0) by lra.
  pose proof PI_gt_3 as Hpi.
  rewrite Rmax_of_le.
  2:{ apply Rmult_le_reg_r with (632.8 * 1e-9); [ lra | ].
      field_simplify; lra. }
  replace (PI * 1e-9 * 1e-9 / (632.8 * 1e-9) / 1.0 * 1e3 * 1e-3
           * (632.8 * 1e-9) * 1.0 / PI) with (1e-9 * 1e-9) by (field; lra).
  rewrite sqrt_square by lra. lra.
Qed.

(** C7, amended.  With a positive wavelength and [M2 = 1], the round trip
    waist -> Rayleigh range -> waist returns the waist it started from
    (exactly, over the reals) whenever neither floor is hit: the waist is
    at least 1e-3 um (1e-9 m) and the Rayleigh range it gives is at least
    1e-12 m. *)
Theorem waist_roundtrip (w : R) (src : Sources.Source) :
  0 < Sources.wavelength_nm (Sources.props src) ->
  Sources.nullish (Sources.M2 (Sources.props src)) 1.0 = 1 ->
  1e-3 <= w ->
  1e-12 * (Sources.wavelength_nm (Sources.props src) * 1e-9)
    <= PI * (w * 1e-6) * (w * 1e-6) ->
  Sources.waistRoundTrip w src = w.
Proof.
  intros Hl HM Hw Hz.
  rewrite waistRoundTrip_eq, HM.
  set (lambda := Sources.wavelength_nm (Sources.props src) * 1e-9) in *.
  assert (Hlam : 0 < lambda) by (unfold lambda; lra).
  pose proof PI_RGT_0 as Hpi.
  rewrite (Rmax_of_le 1e-9) by lra. rewrite (Rmax_of_le 1.0) by lra.
  rewrite Rmax_of_le.
  2:{ apply Rmult_le_reg_r with lambda; [ assumption | ].
      replace (PI * (w * 1e-6) * (w * 1e-6) / lambda / 1 * 1e3 * 1e-3 * lambda)
        with (PI * (w * 1e-6) * (w * 1e-6)) by (field; lra).
      assumption. }
  replace (PI * (w * 1e-6) * (w * 1e-6) / lambda / 1 * 1e3 * 1e-3 * lambda * 1 / PI)
    with ((w * 1e-6) * (w * 1e-6)) by (field; lra).
  rewrite sqrt_square by lra. lra.
Qed.

Lemma waist_roundtrip_witness :
  Sources.waistRoundTrip 200
    (Sources.mkSource (Sources.mkGroup (THREE.vec3 0 0 0) (THREE.quat 0 0 0 1))
                      Sources.defaultProps "w0") = 200.
Proof.
  apply waist_roundtrip; simpl; try lra.
  pose proof PI_gt_3; lra.
Defined.

(** ** Spectral seeding *)

Lemma fold_weights_shift (l : list Propagation.Sample) (a : R) :
  fold_left (fun a b => a + Propagation.weight b) l a
  = a + Propagation.sumWeights l.
Proof.
  unfold Propagation.sumWeights. revert a.
  induction l as [ | s l IH ]; intros a; simpl.
  - ring.
  - rewrite IH, (IH (0 + _)). ring.
Qed.

Lemma sumWeights_cons (s : Propagation.Sample) (l : list Propagation.Sample) :
  Propagation.sumWeights (s :: l)
  = Propagation.weight s + Propagation.sumWeights l.
Proof.
  unfold Propagation.sumWeights at 1; simpl.
  rewrite fold_weights_shift; ring.
Qed.

Lemma sumWeights_scaled (l : list Propagation.Sample) (S : R) :
  Propagation.sumWeights
    (map (fun smp => Propagation.mkSample (Propagation.s_lambda smp)
                                          (Propagation.weight smp / S)) l)
  = Propagation.sumWeights l / S.
Proof.
  induction l as [ | s l IH ].
  - unfold Propagation.sumWeights; simpl. unfold Rdiv; ring.
  - simpl map. rewrite !sumWeights_cons, IH. simpl. unfold Rdiv; ring.
Qed.

Lemma rawSample_weight_pos (lambda0 BW : R) (N : Z) (i : nat) :
  0 < Propagation.weight (Propagation.rawSample lambda0 BW N i).
Proof. unfold Propagation.rawSample; cbv zeta; simpl; apply exp_pos. Qed.

Lemma sumWeights_raw_pos (lambda0 BW : R) (N : Z) (l : list nat) :
  l <> [] ->
  0 < Propagation.sumWeights (map (Propagation.rawSample lambda0 BW N) l).
Proof.
  assert (G : forall l, 0 <= Propagation.sumWeights
                               (map (Propagation.rawSample lambda0 BW N) l)).
  { induction l0 as [ | i l0 IH ].
    - unfold Propagation.sumWeights; simpl; lra.
    - simpl map. rewrite sumWeights_cons.
      pose proof (rawSample_weight_pos lambda0 BW N i). lra. }
  destruct l as [ | i l ]; [ congruence | intros _ ].
  simpl map. rewrite sumWeights_cons.
  pose proof (G l). pose proof (rawSample_weight_pos lambda0 BW N i). lra.
Qed.

Lemma sampleCount_pos (specSamples BW : R) :
  (1 <= Propagation.sampleCount specSamples BW)%Z.
Proof.
  unfold Propagation.sampleCount.
  destruct (Rlt_dec 0 BW); [ destruct (Z.even _) | ]; lia.
Qed.



(** The single-sample case. *)
Lemma spectralSamples_single (lambda0 BW specSamples : R) :
  BW <= 0 \/ Propagation.sampleCount specSamples BW = 1%Z ->
  Propagation.spectralSamples lambda0 BW specSamples
  = [Propagation.mkSample lambda0 1].
Proof.
  intros H; unfold Propagation.spectralSamples; cbv zeta.
  destruct (Rle_dec BW 0); [ reflexivity | ].
  destruct H as [ H | H ]; [ lra | ]. rewrite H; reflexivity.
Qed.

(** The broadband case: the raw samples, each weight divided by their sum. *)
Lemma spectralSamples_multi (lambda0 BW specSamples : R) :
  0 < BW -> Propagation.sampleCount specSamples BW <> 1%Z ->
  let N := Propagation.sampleCount specSamples BW in
  let raw := map (Propagation.rawSample lambda0 BW N) (seq 0 (Z.to_nat N)) in
  Propagation.spectralSamples lambda0 BW specSamples
  = map (fun smp => Propagation.mkSample (Propagation.s_lambda smp)
           (Propagation.weight smp / Propagation.sumWeights raw)) raw
  /\ 0 < Propagation.sumWeights raw.
Proof.
  intros HBW HN N raw.
  assert (Hpos : 0 < Propagation.sumWeights raw).
  { apply sumWeights_raw_pos. pose proof (sampleCount_pos specSamples BW).
    fold N in H. destruct (Z.to_nat N) eqn:E; [ lia | simpl; congruence ]. }
  split; [ | assumption ].
  unfold Propagation.spectralSamples; cbv zeta. fold N. fold raw.
  destruct (Rle_dec BW 0); [ lra | ].
  destruct (Z.eqb_spec N 1); [ contradiction | ].
  rewrite or_of_nonzero by lra. reflexivity.
Qed.





(** ** Diffraction grating *)

Lemma Rabs_le_1 (x : R) : ~ 1 < Rabs x <-> -1 <= x <= 1.
Proof. unfold Rabs; destruct (Rcase_abs x); lra. Qed.

Lemma vclone_id (v : THREE.Vector3) : THREE.clone v = v.
Proof. destruct v; reflexivity. Qed.

(** [Math.atan2(s, sqrt(max(0, 1 - s^2)))] is the arc sine of [s]. *)
Lemma atan2_asin (s : R) :
  -1 <= s <= 1 -> JS.atan2 s (sqrt (Rmax 0 (1 - s * s))) = asin s.
Proof.
  intros Hs. unfold JS.atan2, asin.
  destruct (Rle_dec s (-1)) as [Hm | Hm].
  - assert (s = -1) by lra; subst s.
    replace (1 - -1 * -1) with 0 by ring.
    rewrite Rmax_of_le by lra. rewrite sqrt_0.
    destruct (Rlt_dec 0 0); [ lra | ].
    destruct (Rlt_dec 0 (-1)); [ lra | ].
    destruct (Rlt_dec (-1) 0); lra.
  - destruct (Rle_dec 1 s) as [Hp | Hp].
    + assert (s = 1) by lra; subst s.
      replace (1 - 1 * 1) with 0 by ring.
      rewrite Rmax_of_le by lra. rewrite sqrt_0.
      destruct (Rlt_dec 0 0); [ lra | ].
      destruct (Rlt_dec 0 1); lra.
    + assert (0 < 1 - s * s) by nra.
      rewrite Rmax_of_le by lra.
      pose proof (sqrt_lt_R0 (1 - s * s) H).
      destruct (Rlt_dec 0 (sqrt (1 - s * s))); [ reflexivity | lra ].
Qed.

Lemma cosBeta_cos_asin (s : R) :
  -1 <= s <= 1 -> sqrt (Rmax 0 (1 - s * s)) = cos (asin s).
Proof.
  intros Hs. rewrite cos_asin by assumption.
  rewrite Rmax_of_le by nra. reflexivity.
Qed.

Lemma in_orderRange (M mm : Z) :
  (0 <= M)%Z -> In mm (Propagation.orderRange M) <-> (- M <= mm <= M)%Z.
Proof.
  intros HM; unfold Propagation.orderRange. rewrite in_map_iff. split.
  - intros (k & <- & Hk). apply in_seq in Hk. lia.
  - intros H. exists (Z.to_nat (mm + M)). split; [ lia | ].
    apply in_seq. lia.
Qed.

Lemma orderRange_NoDup (M : Z) : NoDup (Propagation.orderRange M).
Proof.
  unfold Propagation.orderRange.
  apply Injective_map_NoDup; [ | apply seq_NoDup ].
  intros a b H. lia.
Qed.

Lemma gratingM_nonneg (el : Elements.Element) : (0 <= Propagation.gratingM el)%Z.
Proof. unfold Propagation.gratingM; lia. Qed.

(** One order: present exactly when its sine is within [-1, 1], with the
    angle and direction the grating equation gives. *)
Lemma gratingOrder_spec (el : Elements.Element) (nrm t : THREE.Vector3)
    (sinAlpha fromSide lambda d : R) (mm : Z) :
  let sinBeta := sinAlpha - IZR mm * lambda / d in
  (Rabs sinBeta <= 1 <->
   exists o, Propagation.gratingOrder el nrm t sinAlpha fromSide lambda d mm = Some o)
  /\ (forall o,
       Propagation.gratingOrder el nrm t sinAlpha fromSide lambda d mm = Some o ->
       Rabs sinBeta <= 1
       /\ Propagation.m o = mm
       /\ Propagation.betaDeg o = JS.radToDeg (asin sinBeta)
       /\ Propagation.o_dir o
          = THREE.normalize
              (THREE.add
                 (THREE.multiplyScalar nrm
                    ((if String.eqb (Elements.mode (Elements.props el)) "reflective"
                      then - fromSide else fromSide) * cos (asin sinBeta)))
                 (THREE.multiplyScalar t (sin (asin sinBeta))))).
Proof.
  intros sinBeta. unfold Propagation.gratingOrder. fold sinBeta.
  destruct (Rlt_dec 1 (Rabs sinBeta)) as [Hout | Hin].
  - split.
    + split; [ lra | intros (o & Ho); discriminate ].
    + intros o Ho; discriminate.
  - assert (Hs : -1 <= sinBeta <= 1) by (apply Rabs_le_1; assumption).
    split.
    + split; [ intros _; eexists; reflexivity | lra ].
    + intros o Ho. injection Ho as <-. simpl.
      rewrite !vclone_id, atan2_asin, cosBeta_cos_asin, sin_asin by assumption.
      repeat split. lra.
Qed.

Lemma in_computed_orders (el : Elements.Element) (inDir : THREE.Vector3)
    (lambda : R) (o : Propagation.Order) :
  In o (fst (Propagation.computeGratingOrders el inDir lambda)) <->
  exists mm, In mm (Propagation.orderRange (Propagation.gratingM el))
    /\ Propagation.gratingOrder el (Propagation.gratingNormal el)
         (Propagation.gratingTangent el) (Propagation.gratingSinAlpha el inDir)
         (JS.or (JS.sign (THREE.dot inDir (Propagation.gratingNormal el))) 1)
         lambda (Elements.d_um (Elements.props el) * 1e-6) mm = Some o.
Proof.
  unfold Propagation.computeGratingOrders; cbv zeta; simpl fst.
  rewrite in_flat_map. split.
  - intros (mm & Hin & Ho). exists mm. split; [ assumption | ].
    destruct (Propagation.gratingOrder _ _ _ _ _ _ _ mm) as [o' | ];
      simpl in Ho; [ | contradiction ].
    destruct Ho as [ -> | [] ]; reflexivity.
  - intros (mm & Hin & Ho). exists mm. split; [ assumption | ].
    rewrite Ho; left; reflexivity.
Qed.

Lemma orders_of_filter {A B : Type} (g : A -> option B) (key : B -> A) (l : list A) :
  (forall a b, g a = Some b -> key b = a) ->
  map key (flat_map (fun a => match g a with Some b => [b] | None => [] end) l)
  = filter (fun a => match g a with Some _ => true | None => false end) l.
Proof.
  intros H. induction l as [ | a l IH ]; simpl; [ reflexivity | ].
  rewrite map_app, IH. destruct (g a) as [b | ] eqn:E; simpl; [ | reflexivity ].
  rewrite (H a b E). reflexivity.
Qed.

(** Every computed order carries an [m] of the loop range whose sine is
    within bounds, with the angle and direction of the loop body. *)
Lemma computed_order_sound (el : Elements.Element) (inDir : THREE.Vector3)
    (lambda : R) (o : Propagation.Order) :
  In o (fst (Propagation.computeGratingOrders el inDir lambda)) ->
  let sinBeta := Propagation.gratingSinAlpha el inDir
                 - IZR (Propagation.m o) * lambda
                   / (Elements.d_um (Elements.props el) * 1e-6) in
  let side := JS.or (JS.sign (THREE.dot inDir (Propagation.gratingNormal el))) 1 in
  (- Propagation.gratingM el <= Propagation.m o <= Propagation.gratingM el)%Z
  /\ Rabs sinBeta <= 1
  /\ Propagation.betaDeg o = JS.radToDeg (asin sinBeta)
  /\ Propagation.o_dir o
     = THREE.normalize
         (THREE.add
            (THREE.multiplyScalar (Propagation.gratingNormal el)
               ((if String.eqb (Elements.mode (Elements.props el)) "reflective"
                 then - side else side) * cos (asin sinBeta)))
            (THREE.multiplyScalar (Propagation.gratingTangent el)
               (sin (asin sinBeta)))).
Proof.
  intros Hin. apply in_computed_orders in Hin. destruct Hin as (m' & Hr & Ho).
  destruct (gratingOrder_spec el (Propagation.gratingNormal el)
              (Propagation.gratingTangent el)
              (Propagation.gratingSinAlpha el inDir)
              (JS.or (JS.sign (THREE.dot inDir (Propagation.gratingNormal el))) 1)
              lambda (Elements.d_um (Elements.props el) * 1e-6) m') as [_ Hs].
  destruct (Hs o Ho) as (Hb & Hmo & Hbeta & Hdir).
  cbv zeta. rewrite Hmo.
  split; [ apply in_orderRange; [ apply gratingM_nonneg | assumption ] | ].
  split; [ exact Hb | split; assumption ].
Qed.

Lemma computed_order_complete (el : Elements.Element) (inDir : THREE.Vector3)
    (lambda : R) (mm : Z) :
  (- Propagation.gratingM el <= mm <= Propagation.gratingM el)%Z ->
  Rabs (Propagation.gratingSinAlpha el inDir
        - IZR mm * lambda / (Elements.d_um (Elements.props el) * 1e-6)) <= 1 ->
  exists o, In o (fst (Propagation.computeGratingOrders el inDir lambda))
            /\ Propagation.m o = mm.
Proof.
  intros Hr Hb.
  destruct (gratingOrder_spec el (Propagation.gratingNormal el)
              (Propagation.gratingTangent el)
              (Propagation.gratingSinAlpha el inDir)
              (JS.or (JS.sign (THREE.dot inDir (Propagation.gratingNormal el))) 1)
              lambda (Elements.d_um (Elements.props el) * 1e-6) mm) as [Hex Hs].
  destruct (proj1 Hex Hb) as (o & Ho). exists o. split.
  - apply in_computed_orders. exists mm. split; [ | exact Ho ].
    apply in_orderRange; [ apply gratingM_nonneg | assumption ].
  - apply (Hs o Ho).
Qed.

Lemma computed_orders_NoDup (el : Elements.Element) (inDir : THREE.Vector3)
    (lambda : R) :
  NoDup (map Propagation.m (fst (Propagation.computeGratingOrders el inDir lambda))).
Proof.
  unfold Propagation.computeGratingOrders; cbv zeta; simpl fst.
  rewrite orders_of_filter.
  - apply NoDup_filter, orderRange_NoDup.
  - intros a b Hab.
    destruct (gratingOrder_spec el (Propagation.gratingNormal el)
                (Propagation.gratingTangent el)
                (Propagation.gratingSinAlpha el inDir)
                (JS.or (JS.sign (THREE.dot inDir (Propagation.gratingNormal el))) 1)
                lambda (Elements.d_um (Elements.props el) * 1e-6) a) as [_ Hs].
    apply (Hs b Hab).
Qed.

(** The incidence angle the grating reports is zero exactly when the
    tangential component of the incoming direction is. *)
Lemma atan2_zero (y x : R) : 0 <= x -> (JS.atan2 y x = 0 <-> y = 0).
Proof.
  intros Hx. unfold JS.atan2. pose proof PI_RGT_0 as Hpi.
  destruct (Rlt_dec 0 x) as [Hp | Hz].
  - split.
    + intros H. apply atan_eq0 in H.
      apply (Rmult_eq_compat_r x) in H.
      unfold Rdiv in H. rewrite Rmult_assoc, Rinv_l in H by lra. lra.
    + intros ->. unfold Rdiv. rewrite Rmult_0_l. apply atan_0.
  - destruct (Rlt_dec x 0); [ lra | ].
    destruct (Rlt_dec 0 y); [ split; lra | ].
    destruct (Rlt_dec y 0); split; lra.
Qed.

Lemma alphaDeg_zero (el : Elements.Element) (inDir : THREE.Vector3) (lambda : R) :
  Propagation.alphaDeg (snd (Propagation.computeGratingOrders el inDir lambda)) = 0
  <-> Propagation.gratingSinAlpha el inDir = 0.
Proof.
  unfold Propagation.computeGratingOrders; cbv zeta; simpl.
  unfold JS.radToDeg. pose proof PI_RGT_0 as Hpi.
  assert (H180 : 180 / PI <> 0).
  { apply Rgt_not_eq. apply Rdiv_lt_0_compat; lra. }
  pose proof (atan2_zero (Propagation.gratingSinAlpha el inDir)
                (Rabs (JS.clamp (THREE.dot inDir (Propagation.gratingNormal el))
                                (-1) 1)) (Rabs_pos _)) as [A1 A2].
  split.
  - intros H. apply Rmult_integral in H.
    destruct H; [ apply A1; assumption | contradiction ].
  - intros H. rewrite (A2 H). ring.
Qed.

(** The clamp to [-1, 1] vanishes exactly where its argument does. *)
Lemma clamp_zero (x : R) : Rmax (-1) (Rmin 1 x) = 0 <-> x = 0.
Proof.
  unfold Rmax, Rmin.
  destruct (Rle_dec 1 x); destruct (Rle_dec (-1) _); split; intros; lra.
Qed.

(** C3.  For a grating of positive spacing [d] and order count
    [M = max(0, floor(props.orders))], the computed orders are exactly the
    [m] in [-M, M] with [|sin alpha - m lambda / d| <= 1], each once.
    [sin alpha] is the incoming direction resolved against the grating
    tangent [t] and clamped to [-1, 1]; [t] is the local x axis of the
    element made orthogonal to its normal [n].  Order [m] leaves at
    [beta = asin(sin alpha - m lambda / d)], so [sin beta] obeys the
    grating equation, along [n (+/- cos beta) + t sin beta], the sign set
    by the mode and by the side the ray comes from.  At normal incidence
    (the reported angle [alpha] is zero, that is [sin alpha = 0], that is
    the incoming direction has no component along [t])
    [beta = asin(- m lambda / d)], and an order with [|m lambda / d| > 1]
    is absent. *)
Theorem grating_orders (el : Elements.Element) (inDir : THREE.Vector3) (lambda : R) :
  0 < Elements.d_um (Elements.props el) ->
  let qW := THREE.worldQuaternion (Elements.mesh el) in
  let n := THREE.normalize (THREE.applyQuaternion (THREE.vec3 0 0 1) qW) in
  let t0 := THREE.applyQuaternion (THREE.vec3 1 0 0) qW in
  let t := THREE.normalize (THREE.sub t0 (THREE.multiplyScalar n (THREE.dot t0 n))) in
  let sinA := Rmax (-1) (Rmin 1 (THREE.dot inDir t)) in
  let d := Elements.d_um (Elements.props el) * 1e-6 in
  let M := Z.max 0 (Zfloor (Elements.orders (Elements.props el))) in
  let side := if Rlt_dec (THREE.dot inDir n) 0 then -1 else 1 in
  let orders := fst (Propagation.computeGratingOrders el inDir lambda) in
  (forall mm : Z,
     (exists o, In o orders /\ Propagation.m o = mm) <->
     (- M <= mm <= M)%Z /\ Rabs (sinA - IZR mm * lambda / d) <= 1)
  /\ NoDup (map Propagation.m orders)
  /\ (forall o, In o orders ->
       let beta := asin (sinA - IZR (Propagation.m o) * lambda / d) in
       sin beta = sinA - IZR (Propagation.m o) * lambda / d
       /\ Propagation.betaDeg o = beta * (180 / PI)
       /\ Propagation.o_dir o
          = THREE.normalize
              (THREE.add
                 (THREE.multiplyScalar n
                    ((if String.eqb (Elements.mode (Elements.props el)) "reflective"
                      then - side else side) * cos beta))
                 (THREE.multiplyScalar t (sin beta))))
  /\ (Propagation.alphaDeg (snd (Propagation.computeGratingOrders el inDir lambda)) = 0
      <-> sinA = 0)
  /\ (sinA = 0 <-> THREE.dot inDir t = 0)
  /\ (sinA = 0 ->
       (forall o, In o orders ->
          Propagation.betaDeg o
          = asin (- IZR (Propagation.m o) * lambda / d) * (180 / PI))
       /\ (forall mm : Z, 1 < Rabs (IZR mm * lambda / d) ->
             ~ exists o, In o orders /\ Propagation.m o = mm)).
Proof.
  intros Hd qW n t0 t sinA d M side orders.
  assert (En : Propagation.gratingNormal el = n) by reflexivity.
  assert (Et : Propagation.gratingTangent el = t).
  { unfold Propagation.gratingTangent. cbv zeta. rewrite vclone_id. reflexivity. }
  assert (Es : Propagation.gratingSinAlpha el inDir = sinA).
  { unfold Propagation.gratingSinAlpha, JS.clamp. rewrite Et. reflexivity. }
  assert (EM : Propagation.gratingM el = M) by reflexivity.
  assert (Eside : JS.or (JS.sign (THREE.dot inDir n)) 1 = side).
  { unfold side, JS.or, JS.sign.
    destruct (Rlt_dec 0 (THREE.dot inDir n)); destruct (Rlt_dec (THREE.dot inDir n) 0);
      destruct (Req_dec_T _ 0); try reflexivity; lra. }
  assert (Hsound : forall o, In o orders ->
            (- M <= Propagation.m o <= M)%Z
            /\ Rabs (sinA - IZR (Propagation.m o) * lambda / d) <= 1
            /\ Propagation.betaDeg o
               = asin (sinA - IZR (Propagation.m o) * lambda / d) * (180 / PI)
            /\ Propagation.o_dir o
               = THREE.normalize
                   (THREE.add
                      (THREE.multiplyScalar n
                         ((if String.eqb (Elements.mode (Elements.props el)) "reflective"
                           then - side else side)
                          * cos (asin (sinA - IZR (Propagation.m o) * lambda / d))))
                      (THREE.multiplyScalar t
                         (sin (asin (sinA - IZR (Propagation.m o) * lambda / d)))))).
  { intros o Hin.
    pose proof (computed_order_sound el inDir lambda o Hin) as H.
    cbv zeta in H. rewrite Es, EM, En, Et, Eside in H. exact H. }
  assert (Hiff : forall mm : Z,
     (exists o, In o orders /\ Propagation.m o = mm) <->
     (- M <= mm <= M)%Z /\ Rabs (sinA - IZR mm * lambda / d) <= 1).
  { intros mm. split.
    - intros (o & Hin & Hm).
      destruct (Hsound o Hin) as (Hr & Hb & _).
      subst mm. split; assumption.
    - intros (Hr & Hb). apply computed_order_complete.
      + rewrite EM. exact Hr.
      + rewrite Es. exact Hb. }
  split; [ exact Hiff | ].
  split; [ apply computed_orders_NoDup | ].
  split.
  { intros o Hin beta.
    destruct (Hsound o Hin) as (Hr & Hb & Hbeta & Hdir).
    split; [ | split; [ exact Hbeta | ] ].
    - apply sin_asin. unfold Rabs in Hb. destruct (Rcase_abs _); lra.
    - rewrite Hdir. unfold beta.
      rewrite sin_asin; [ reflexivity | ].
      unfold Rabs in Hb. destruct (Rcase_abs _); lra. }
  split.
  { rewrite <- Es. apply alphaDeg_zero. }
  split; [ apply clamp_zero | ].
  intros H0. split.
  - intros o Hin.
    destruct (Hsound o Hin) as (_ & _ & Hbeta & _).
    rewrite Hbeta, H0. do 2 f_equal. unfold Rdiv. ring.
  - intros mm Hbig Hex.
    apply Hiff in Hex. destruct Hex as [_ Hb]. rewrite H0 in Hb.
    replace (0 - IZR mm * lambda / d) with (- (IZR mm * lambda / d)) in Hb by ring.
    rewrite Rabs_Ropp in Hb. lra.
Qed.

Lemma grating_orders_witness :
  NoDup (map Propagation.m
           (fst (Propagation.computeGratingOrders
                   (Elements.makeGrating 1
                      (THREE.object3D 1 (THREE.quat 0 0 0 1) (THREE.vec3 0 0 0))
                      "reflective" 1.0 3)
                   (THREE.vec3 0 0 1) (632.8 * 1e-9)))).
Proof.
  refine (proj1 (proj2 (grating_orders
            (Elements.makeGrating 1
               (THREE.object3D 1 (THREE.quat 0 0 0 1) (THREE.vec3 0 0 0))
               "reflective" 1.0 3)
            (THREE.vec3 0 0 1) (632.8 * 1e-9) _))).
  simpl; lra.
Defined.

(** ** Splitting at a beam splitter *)

(** Scaling the two components by real factors of equal square scales the
    norm. *)
Lemma jNorm_scale (J : Optics.Jones) (a b : R) :
  a * a = b * b ->
  Optics.jNorm (Complex.mul (fst J) a, Complex.mul (snd J) b)
  = sqrt (a * a) * Optics.jNorm J.
Proof.
  intros Hab; destruct J as [[x y] [u v]]; unfold Optics.jNorm; simpl.
  rewrite <- sqrt_mult; [ | nra | nra ].
  f_equal.
  transitivity (a * a * (x * x + y * y) + b * b * (u * u + v * v)); [ ring | ].
  rewrite <- Hab; ring.
Qed.

Lemma queue_pushIfVisible (b : Propagation.Path) (st : Propagation.State) :
  Propagation.queue (Propagation.pushIfVisible b st)
  = (Propagation.queue st
     ++ (if JS.geb (Propagation.relAmp b) Propagation.AMP_CUTOFF then [b] else []))%list.
Proof.
  unfold Propagation.pushIfVisible.
  destruct (JS.geb _ _); simpl; [ reflexivity | rewrite app_nil_r; reflexivity ].
Qed.

Lemma completed_pushIfVisible (b : Propagation.Path) (st : Propagation.State) :
  Propagation.completedPaths (Propagation.pushIfVisible b st)
  = Propagation.completedPaths st.
Proof. unfold Propagation.pushIfVisible; destruct (JS.geb _ _); reflexivity. Qed.

Lemma splitterR_half (el : Elements.Element) :
  Elements.nullish (Elements.R_ (Elements.props el)) 0.5 = 0.5 ->
  Propagation.splitterR el = 0.5.
Proof.
  intros H; unfold Propagation.splitterR; rewrite H.
  rewrite (Rmax_of_le 0) by lra. apply Rmin_of_ge; lra.
Qed.

Lemma half_split_amplitude (hit : Propagation.Hit) (el : Elements.Element)
    (path : Propagation.Path) :
  Elements.polarizing (Elements.props el) = false ->
  Elements.nullish (Elements.R_ (Elements.props el)) 0.5 = 0.5 ->
  Propagation.relAmp (Propagation.splitTransmitted hit el path)
  = sqrt 0.5 * Optics.jNorm (Propagation.J path) / Propagation.Jnorm path
  /\ Propagation.relAmp (Propagation.splitReflected hit el path)
     = sqrt 0.5 * Optics.jNorm (Propagation.J path) / Propagation.Jnorm path.
Proof.
  intros Hp HR. pose proof (splitterR_half el HR) as ER.
  unfold Propagation.relAmp, Propagation.splitTransmitted,
    Propagation.splitReflected; simpl.
  rewrite Hp, ER.
  replace (1 - 0.5) with 0.5 by lra.
  rewrite !jNorm_scale by ring.
  replace (sqrt 0.5 * 1 * (sqrt 0.5 * 1)) with (sqrt 0.5 * sqrt 0.5) by ring.
  rewrite sqrt_sqrt by lra. split; reflexivity.
Qed.

(** C2.  At a non-polarizing beam splitter with [R = 0.5] (set, or left to
    its default [props.R ?? 0.5]) the interaction
    builds exactly two branches, the transmitted and the reflected one;
    each has 0.5 times the relative intensity of the incoming ray, so the
    two sum to it.  Both are queued (and nothing else is) when their
    relative amplitude reaches the cutoff, none otherwise, and the
    incoming ray-path stops at the splitter. *)
Theorem beam_splitter_half_split (hit : Propagation.Hit) (path : Propagation.Path)
    (st : Propagation.State) :
  Elements.type (Propagation.element hit) = "beamSplitter" ->
  Elements.polarizing (Elements.props (Propagation.element hit)) = false ->
  Elements.nullish (Elements.R_ (Elements.props (Propagation.element hit))) 0.5 = 0.5 ->
  let t := Propagation.splitTransmitted hit (Propagation.element hit) path in
  let r := Propagation.splitReflected hit (Propagation.element hit) path in
  Propagation.relInt t = 0.5 * Propagation.relInt path
  /\ Propagation.relInt r = 0.5 * Propagation.relInt path
  /\ Propagation.relInt t + Propagation.relInt r = Propagation.relInt path
  /\ Propagation.dir t = Propagation.dir path
  /\ Propagation.dir r
     = Propagation.reflectAcrossElementNormal (Propagation.dir path)
         (Propagation.element hit)
  /\ exists st',
       Propagation.interact hit path st = (path, st', Propagation.Break)
       /\ Propagation.queue st'
          = (Propagation.queue st
             ++ (if JS.geb (Propagation.relAmp t) Propagation.AMP_CUTOFF
                 then [t; r] else []))%list.
Proof.
  intros Ht Hp HR t r.
  destruct (half_split_amplitude hit (Propagation.element hit) path Hp HR) as [At Ar].
  fold t in At. fold r in Ar.
  assert (It : Propagation.relInt t = 0.5 * Propagation.relInt path).
  { change (Propagation.relInt t) with (Propagation.relAmp t ^ 2).
    rewrite At. unfold Propagation.relInt.
    replace ((sqrt 0.5 * Optics.jNorm (Propagation.J path) / Propagation.Jnorm path) ^ 2)
      with (sqrt 0.5 * sqrt 0.5
            * (Optics.jNorm (Propagation.J path) / Propagation.Jnorm path) ^ 2)
      by (unfold Rdiv; ring).
    rewrite sqrt_sqrt by lra. reflexivity. }
  assert (Ir : Propagation.relInt r = 0.5 * Propagation.relInt path).
  { change (Propagation.relInt r) with (Propagation.relAmp r ^ 2).
    rewrite Ar. unfold Propagation.relInt.
    replace ((sqrt 0.5 * Optics.jNorm (Propagation.J path) / Propagation.Jnorm path) ^ 2)
      with (sqrt 0.5 * sqrt 0.5
            * (Optics.jNorm (Propagation.J path) / Propagation.Jnorm path) ^ 2)
      by (unfold Rdiv; ring).
    rewrite sqrt_sqrt by lra. reflexivity. }
  split; [ exact It | split; [ exact Ir | split; [ rewrite It, Ir; lra | ] ] ].
  split; [ unfold t, Propagation.splitTransmitted; simpl; apply vclone_id | ].
  split; [ reflexivity | ].
  unfold Propagation.interact. rewrite Ht. cbv zeta.
  change (String.eqb "beamSplitter" "beamBlock") with false.
  change (String.eqb "beamSplitter" "beamSplitter") with true.
  cbv iota. unfold Propagation.hitBeamSplitter. cbv zeta.
  eexists. split; [ reflexivity | ].
  fold t r. rewrite !queue_pushIfVisible. simpl Propagation.queue.
  rewrite Ar, <- At.
  destruct (JS.geb (Propagation.relAmp t) Propagation.AMP_CUTOFF);
    rewrite <- app_assoc; reflexivity.
Qed.

(** ** The traversal: what an interaction leaves untouched *)

Lemma completed_setElementInfo (k : nat) (i : Propagation.Info) (st : Propagation.State) :
  Propagation.completedPaths (Propagation.setElementInfo k i st)
  = Propagation.completedPaths st.
Proof. reflexivity. Qed.

Lemma gratingLoop_completed (hit : Propagation.Hit) (el : Elements.Element)
    (gain : R) (path : Propagation.Path) (os : list Propagation.Order) :
  forall best st,
    Propagation.completedPaths
      (snd (Propagation.gratingLoop hit el gain path os best st))
    = Propagation.completedPaths st.
Proof.
  induction os as [ | o os IH ]; intros best st; simpl; [ reflexivity | ].
  destruct (Propagation.orderHidden el o); [ apply IH | ].
  rewrite IH. apply completed_pushIfVisible.
Qed.

Ltac split_ifs :=
  repeat match goal with
         | |- context [if ?c then _ else _] => destruct c
         | |- context [match ?c with Some _ => _ | None => _ end] => destruct c
         end.

Lemma interact_completed (hit : Propagation.Hit) (path : Propagation.Path)
    (st : Propagation.State) :
  Propagation.completedPaths (snd (fst (Propagation.interact hit path st)))
  = Propagation.completedPaths st.
Proof.
  unfold Propagation.interact. cbv zeta.
  set (aoi := JS.radToDeg _). set (inc := THREE.clone _).
  set (el := Propagation.element hit).
  destruct (String.eqb (Elements.type el) "beamBlock"); [ reflexivity | ].
  destruct (String.eqb (Elements.type el) "beamSplitter").
  { unfold Propagation.hitBeamSplitter; simpl.
    rewrite !completed_pushIfVisible. reflexivity. }
  destruct (String.eqb (Elements.type el) "mirror").
  { unfold Propagation.hitMirror.
    destruct (Propagation.mirrorCoefficients el path) as [refl T].
    destruct (Rlt_dec 0 T); destruct (Rlt_dec 0 refl); cbv zeta; simpl;
      split_ifs; simpl; rewrite ?completed_pushIfVisible; reflexivity. }
  destruct (String.eqb (Elements.type el) "grating").
  { unfold Propagation.hitGrating.
    destruct (Propagation.computeGratingOrders el (Propagation.dir path)
                (Propagation.lambda path)) as [orders ginfo].
    destruct orders as [ | o os ]; [ reflexivity | ].
    cbv zeta.
    pose proof (gratingLoop_completed hit el
                  (1 / sqrt (INR (List.length (o :: os)))) path (o :: os) None
                  (Propagation.setGratingInfo (Elements.id el) ginfo st)) as G.
    destruct (Propagation.gratingLoop _ _ _ _ _ _ _) as [best st'].
    simpl in G. destruct best as [[Ib b] | ]; simpl; rewrite G; reflexivity. }
  destruct (String.eqb (Elements.type el) "multimeter"); [ reflexivity | ].
  destruct (String.eqb (Elements.type el) "lens"); reflexivity.
Qed.

(** ** The traversal: loops *)

Section TraversalFacts.

Variable intersectObjects :
  THREE.Vector3 -> THREE.Vector3 -> R -> R -> list THREE.Object3D
  -> list Propagation.Hit.
Variable params : Propagation.Params.
Variable elements : list Elements.Element.

Let step := Propagation.step intersectObjects params elements.
Let march := Propagation.march intersectObjects params elements.
Let workIteration := Propagation.workIteration intersectObjects params elements.
Let workLoop := Propagation.workLoop intersectObjects params elements.

Lemma step_completed (path : Propagation.Path) (st : Propagation.State) :
  Propagation.completedPaths (snd (fst (step path st)))
  = Propagation.completedPaths st.
Proof.
  unfold step, Propagation.step. cbv zeta.
  destruct (filter _ _) as [ | hit hits ]; [ reflexivity | ].
  apply interact_completed.
Qed.

Lemma march_completed (n : nat) :
  forall path st,
    Propagation.completedPaths (snd (fst (march n path st)))
    = Propagation.completedPaths st.
Proof.
  induction n as [ | n IH ]; intros path st; simpl; [ reflexivity | ].
  destruct (Rlt_dec _ _); [ | reflexivity ].
  pose proof (step_completed path st) as Hs. unfold step in Hs.
  destruct (Propagation.step _ _ _ path st) as [[path' st'] flow].
  simpl in Hs. destruct flow; simpl; [ assumption | ].
  specialize (IH path' st').
  destruct (march n path' st') as [[p s] k].
  simpl in *. congruence.
Qed.

(** The [for] loop runs its body at most [n] times. *)
Lemma march_steps (n : nat) :
  forall path st, (snd (march n path st) <= n)%nat.
Proof.
  induction n as [ | n IH ]; intros path st; simpl; [ lia | ].
  destruct (Rlt_dec _ _); [ | simpl; lia ].
  destruct (Propagation.step _ _ _ path st) as [[path' st'] flow].
  destruct flow; simpl; [ lia | ].
  specialize (IH path' st').
  destruct (march n path' st') as [[p s] k].
  simpl in *. lia.
Qed.

(** One iteration of the work loop finalizes exactly the dequeued path. *)
Lemma workIteration_completed (st : Propagation.State) (path : Propagation.Path)
    (rest : list Propagation.Path) :
  Propagation.queue st = path :: rest ->
  Propagation.completedPaths (workIteration st)
  = (Propagation.completedPaths st
     ++ [fst (fst (march (Propagation.maxSegments params) path
                     (Propagation.mkState rest (Propagation.completedPaths st)
                        (Propagation.elementLastInfo st)
                        (Propagation.meterLastInfo st)
                        (Propagation.gratingLastInfo st)
                        (Propagation.meterUpdated st))))])%list.
Proof.
  intros Hq. unfold workIteration, Propagation.workIteration. rewrite Hq.
  pose proof (march_completed (Propagation.maxSegments params) path
                (Propagation.mkState rest (Propagation.completedPaths st)
                   (Propagation.elementLastInfo st) (Propagation.meterLastInfo st)
                   (Propagation.gratingLastInfo st) (Propagation.meterUpdated st)))
    as Hm.
  unfold march in *.
  destruct (Propagation.march _ _ _ _ path _) as [[path' st'] k].
  simpl in *. rewrite Hm. reflexivity.
Qed.

Lemma loopGuard_true (st : Propagation.State) :
  Propagation.loopGuard st = true ->
  Propagation.queue st <> []
  /\ (List.length (Propagation.completedPaths st)
      + List.length (Propagation.queue st) < Propagation.MAX_BEAMS)%nat.
Proof.
  unfold Propagation.loopGuard. intros H.
  apply andb_true_iff in H. destruct H as [H1 H2].
  apply Nat.ltb_lt in H2. split; [ | assumption ].
  intros E; rewrite E in H1; discriminate.
Qed.

Lemma workLoop_unfold (fuel : nat) (st : Propagation.State) :
  workLoop (S fuel) st
  = if Propagation.loopGuard st then workLoop fuel (workIteration st) else Some st.
Proof. reflexivity. Qed.

(** The work loop ends by its own guard within the fuel that the cap on
    the number of beams leaves. *)
Lemma workLoop_terminates (fuel : nat) :
  forall st,
    (Propagation.MAX_BEAMS
     <= fuel + List.length (Propagation.completedPaths st) + 1)%nat ->
    exists st',
      workLoop fuel st = Some st'
      /\ Propagation.loopGuard st' = false
      /\ (List.length (Propagation.completedPaths st')
          <= Nat.max (List.length (Propagation.completedPaths st))
                     (Propagation.MAX_BEAMS - 1))%nat.
Proof.
  induction fuel as [ | fuel IH ]; intros st Hfuel.
  - unfold workLoop; simpl.
    destruct (Propagation.loopGuard st) eqn:G.
    + apply loopGuard_true in G. destruct G as [Hq Hc].
      destruct (Propagation.queue st) as [ | path rest ];
        [ exfalso; apply Hq; reflexivity | ].
      simpl in Hc. unfold Propagation.MAX_BEAMS in *. lia.
    + exists st. repeat split; [ assumption | lia ].
  - rewrite workLoop_unfold.
    destruct (Propagation.loopGuard st) eqn:G.
    + apply loopGuard_true in G. destruct G as [Hq Hc].
      destruct (Propagation.queue st) as [ | path rest ] eqn:Q;
        [ exfalso; apply Hq; reflexivity | ].
      pose proof (workIteration_completed st path rest Q) as Hw.
      assert (Hlen : List.length (Propagation.completedPaths (workIteration st))
                     = S (List.length (Propagation.completedPaths st))).
      { rewrite Hw, length_app; simpl; lia. }
      destruct (IH (workIteration st)) as (st' & E & G' & B); [ lia | ].
      exists st'. repeat split; [ assumption | assumption | ].
      simpl in Hc. lia.
    + exists st. repeat split; [ assumption | lia ].
Qed.

End TraversalFacts.

(** ** Dense sampling *)

(** The polarization loop ends with a positive countdown whenever the
    fuel covers the distance to zero. *)
Lemma polLoop_positive (fuel : nat) (L : R) (path : Propagation.Path) :
  forall c acc,
    0 < c + INR fuel * Propagation.POL_SPACING ->
    0 < fst (Propagation.polLoop fuel L path c acc).
Proof.
  induction fuel as [ | fuel IH ]; intros c acc H.
  - simpl in *. lra.
  - cbn [Propagation.polLoop]. destruct (Rle_dec c 0); [ | simpl; lra ].
    apply IH. rewrite S_INR in H. lra.
Qed.

Lemma polIterations_enough (c : R) :
  0 < c + INR (Propagation.polIterations c) * Propagation.POL_SPACING.
Proof.
  unfold Propagation.polIterations, Propagation.POL_SPACING.
  pose proof (Zfloor_bound (- c / 0.005)) as [_ Hb].
  destruct (Z_lt_le_dec (Zfloor (- c / 0.005) + 1) 0) as [Hneg | Hpos].
  - replace (Z.to_nat (Zfloor (- c / 0.005) + 1)) with 0%nat by lia. simpl.
    assert (IZR (Zfloor (- c / 0.005)) + 1 < 0).
    { rewrite <- (plus_IZR _ 1). apply IZR_lt. assumption. }
    lra.
  - rewrite INR_IZR_INZ, Z2Nat.id by assumption. rewrite plus_IZR. lra.
Qed.

(** The [while] loop of [sampleSegment] leaves by its own test. *)
Lemma polLoop_exits (L : R) (path : Propagation.Path) (c : R)
    (acc : list Propagation.PolSample) :
  0 < fst (Propagation.polLoop (Propagation.polIterations c) L path c acc).
Proof. apply polLoop_positive, polIterations_enough. Qed.

Lemma denseCount_bounds (subL : R) : (10 <= Propagation.denseCount subL <= 160)%nat.
Proof. unfold Propagation.denseCount; lia. Qed.

Lemma insertSorted_In (x y : R) (l : list R) :
  In y (JS.insertSorted x l) <-> y = x \/ In y l.
Proof.
  induction l as [ | a l IH ]; simpl.
  - intuition.
  - destruct (Rle_dec x a); simpl; [ intuition | ].
    rewrite IH. intuition.
Qed.

Lemma sortNum_In (y : R) (l : list R) : In y (JS.sortNum l) <-> In y l.
Proof.
  induction l as [ | a l IH ]; simpl; [ reflexivity | ].
  rewrite insertSorted_In, IH. intuition.
Qed.

Lemma insertSorted_ascending (x : R) (l : list R) :
  JS.ascending l -> JS.ascending (JS.insertSorted x l).
Proof.
  induction l as [ | a l IH ]; intros H; simpl; [ exact I | ].
  destruct (Rle_dec x a) as [Hle | Hgt].
  - simpl. split; assumption.
  - destruct l as [ | b l ].
    + simpl. split; [ lra | exact I ].
    + destruct H as [Hab Hr]. specialize (IH Hr).
      simpl in IH |- *. destruct (Rle_dec x b); simpl; simpl in IH.
      * split; [ lra | assumption ].
      * split; assumption.
Qed.

Lemma sortNum_ascending (l : list R) : JS.ascending (JS.sortNum l).
Proof.
  induction l as [ | a l IH ]; simpl; [ exact I | ].
  apply insertSorted_ascending; assumption.
Qed.

(** Every dense sample lies after the start of its sub-segment and not
    after its end. *)
Lemma denseTs_bounds (lo hi : R) (l : list R) :
  (forall x, In x l -> lo <= x <= hi) ->
  Forall (fun t => lo < t <= hi) (Propagation.denseTs l).
Proof.
  induction l as [ | a l IH ]; intros H; [ constructor | ].
  destruct l as [ | b l ]; [ constructor | ].
  cbn [Propagation.denseTs]. apply Forall_app. split.
  - pose proof (H a (or_introl eq_refl)) as Ha.
    pose proof (H b (or_intror (or_introl eq_refl))) as Hb.
    destruct (Rle_dec (Rmax 0 (b - a)) 0) as [Hz | Hp]; [ constructor | ].
    assert (Hab : a < b).
    { unfold Rmax in Hp. destruct (Rle_dec 0 (b - a)); lra. }
    rewrite Rmax_of_le by lra.
    pose proof (denseCount_bounds (b - a)) as [HN _].
    set (N := Propagation.denseCount (b - a)) in *.
    apply Forall_forall. intros t Ht. apply in_map_iff in Ht.
    destruct Ht as (i & <- & Hi). apply in_seq in Hi.
    assert (HNpos : 0 < INR N) by (apply lt_0_INR; lia).
    assert (Hi1 : 0 < INR i) by (apply lt_0_INR; lia).
    assert (Hi2 : INR i <= INR N) by (apply le_INR; lia).
    assert (Hfrac : 0 < INR i / INR N <= 1).
    { split.
      - apply Rdiv_lt_0_compat; assumption.
      - apply Rmult_le_reg_r with (INR N); [ assumption | ].
        unfold Rdiv. rewrite Rmult_assoc, Rinv_l by lra. lra. }
    nra.
  - apply IH. intros x Hx. apply H. right; assumption.
Qed.

(** An ascending list that spans a gap yields at least ten samples. *)
Lemma denseTs_nonempty (l : list R) :
  JS.ascending l ->
  forall a b, In a l -> In b l -> a < b ->
  (10 <= List.length (Propagation.denseTs l))%nat.
Proof.
  induction l as [ | x l IH ]; intros Hasc a b Ha Hb Hab; [ contradiction | ].
  destruct l as [ | y l ].
  - simpl in Ha, Hb. destruct Ha as [<- | []]. destruct Hb as [<- | []]. lra.
  - cbn [Propagation.denseTs]. rewrite length_app.
    destruct Hasc as [Hxy Hasc].
    destruct (Rle_dec (Rmax 0 (y - x)) 0) as [Hz | Hp].
    + assert (x = y).
      { unfold Rmax in Hz. destruct (Rle_dec 0 (y - x)); lra. }
      subst y. simpl List.length.
      apply (IH Hasc a b); [ | | assumption ].
      * destruct Ha as [<- | Ha]; [ left; reflexivity | assumption ].
      * destruct Hb as [<- | Hb]; [ left; reflexivity | assumption ].
    + rewrite length_map, length_seq.
      pose proof (denseCount_bounds (Rmax 0 (y - x))). lia.
Qed.

Lemma cutsOf_range (q0 : Complex.t) (L x : R) :
  0 <= L -> In x (Propagation.cutsOf q0 L) -> 0 <= x <= L.
Proof.
  intros HL Hx. unfold Propagation.cutsOf in Hx.
  apply (proj1 (sortNum_In _ _)) in Hx.
  destruct (JS.ltb 0 (- Complex.re q0) && JS.ltb (- Complex.re q0) L) eqn:E.
  - apply andb_true_iff in E. destruct E as [E1 E2].
    unfold JS.ltb in E1, E2.
    destruct (Rlt_dec 0 (- Complex.re q0)); [ | discriminate ].
    destruct (Rlt_dec (- Complex.re q0) L); [ | discriminate ].
    cbv zeta in Hx. simpl in Hx.
    destruct Hx as [<- | [<- | [<- | [<- | [<- | []]]]]]; try lra.
    + unfold Rmax. destruct (Rle_dec (L * 1e-4) 1e-6);
        destruct (Rle_dec 0 _); lra.
    + unfold Rmax, Rmin. destruct (Rle_dec (L * 1e-4) 1e-6);
        destruct (Rle_dec L _); lra.
  - simpl in Hx. destruct Hx as [<- | [<- | []]]; lra.
Qed.

Lemma cutsOf_ends (q0 : Complex.t) (L : R) :
  In 0 (Propagation.cutsOf q0 L) /\ In L (Propagation.cutsOf q0 L).
Proof.
  unfold Propagation.cutsOf.
  destruct (JS.ltb 0 (- Complex.re q0) && JS.ltb (- Complex.re q0) L);
    split; apply sortNum_In; simpl; auto.
Qed.

(** The samples of a segment of positive length [L]: at least ten, all
    at a distance in [(0, L]] from the start of the segment. *)
Lemma dense_samples (q0 : Complex.t) (L : R) :
  0 < L ->
  (10 <= List.length (Propagation.denseTs (Propagation.cutsOf q0 L)))%nat
  /\ Forall (fun t => 0 < t <= L) (Propagation.denseTs (Propagation.cutsOf q0 L)).
Proof.
  intros HL. split.
  - destruct (cutsOf_ends q0 L) as [H0 H1].
    apply (denseTs_nonempty _ (sortNum_ascending _) 0 L); assumption.
  - apply denseTs_bounds. intros x Hx. apply (cutsOf_range q0); [ lra | assumption ].
Qed.

(** ** Termination of the traversal *)

(** C10.  Whatever the sources, the elements, the parameters and the
    raycaster, [recompute] returns: its work loop leaves by its own guard
    within [MAX_BEAMS = 600] iterations, with at most 600 completed
    ray-paths.  Each iteration finalizes exactly the dequeued path, the
    [for] loop of a dequeued path runs its body at most
    [params.maxSegments] times, and the polarization-sample loop of a
    segment ends. *)
Theorem traversal_terminates
    (intersectObjects : THREE.Vector3 -> THREE.Vector3 -> R -> R
                        -> list THREE.Object3D -> list Propagation.Hit)
    (clampToPlaneXZ : Sources.Group -> Sources.Group)
    (params : Propagation.Params) (elements : list Elements.Element) :
  Propagation.MAX_BEAMS = 600%nat
  /\ (forall sources meter0 grating0,
       exists res,
         Propagation.recompute intersectObjects clampToPlaneXZ params elements
           sources meter0 grating0 = Some res
         /\ Propagation.loopGuard (Propagation.final res) = false
         /\ (List.length (Propagation.completedPaths (Propagation.final res))
             <= Propagation.MAX_BEAMS)%nat)
  /\ (forall st path rest,
       Propagation.queue st = path :: rest ->
       List.length (Propagation.completedPaths
                      (Propagation.workIteration intersectObjects params elements st))
       = S (List.length (Propagation.completedPaths st)))
  /\ (forall path st,
       (snd (Propagation.march intersectObjects params elements
               (Propagation.maxSegments params) path st)
        <= Propagation.maxSegments params)%nat)
  /\ (forall L path c acc,
       0 < fst (Propagation.polLoop (Propagation.polIterations c) L path c acc)).
Proof.
  split; [ reflexivity | ].
  split; [ | split; [ | split ] ].
  - intros sources meter0 grating0. unfold Propagation.recompute. cbv zeta.
    set (st0 := Propagation.mkState _ [] [] meter0 grating0 false).
    destruct (workLoop_terminates intersectObjects params elements
                Propagation.MAX_BEAMS st0) as (st' & E & G & B).
    { subst st0. cbn [Propagation.completedPaths List.length]. lia. }
    rewrite E. eexists. split; [ reflexivity | ].
    cbn [Propagation.final].
    split; [ assumption | ].
    subst st0. cbn [Propagation.completedPaths List.length] in B. lia.
  - intros st path rest Hq.
    rewrite (workIteration_completed intersectObjects params elements st path rest Hq).
    rewrite length_app. simpl. lia.
  - intros path st. apply march_steps.
  - intros L path c acc. apply polLoop_exits.
Qed.

(** ** Detector *)

(** C8.  At a detector the interaction leaves the beam parameter, the
    Jones vector and the direction of the ray-path as they are; it moves
    the position 1e-6 along the direction, records the detector plane as a
    sample and a readout under the detector's id, queues nothing, and the
    [for] loop goes on to its next step. *)
Theorem detector_is_read_only (hit : Propagation.Hit) (path : Propagation.Path)
    (st : Propagation.State) :
  Elements.type (Propagation.element hit) = "multimeter" ->
  exists path' st',
    Propagation.interact hit path st = (path', st', Propagation.Continue)
    /\ Propagation.q path' = Propagation.q path
    /\ Propagation.J path' = Propagation.J path
    /\ Propagation.dir path' = Propagation.dir path
    /\ Propagation.Jnorm path' = Propagation.Jnorm path
    /\ Propagation.lambda path' = Propagation.lambda path
    /\ Propagation.traveled path' = Propagation.traveled path
    /\ Propagation.pos path'
       = THREE.add (Propagation.pos path)
           (THREE.multiplyScalar (Propagation.dir path) 1e-6)
    /\ Propagation.pts path' = (Propagation.pts path ++ [Propagation.pos path])%list
    /\ Propagation.lastHit path' = Some (Propagation.object hit)
    /\ Propagation.queue st' = Propagation.queue st
    /\ Propagation.elementLastInfo st' = Propagation.elementLastInfo st
    /\ (exists info,
         Propagation.mapGet (Elements.id (Propagation.element hit))
           (Propagation.meterLastInfo st') = Some info
         /\ Propagation.Irel info = Propagation.relAmp path * Propagation.relAmp path
         /\ Propagation.zR_mm info = Complex.im (Propagation.q path) * 1e3)
    /\ forall intersectObjects params elements n p0 st0,
         Propagation.traveled p0 < Propagation.maxLen p0 ->
         Propagation.step intersectObjects params elements p0 st0
         = Propagation.interact hit path st ->
         Propagation.march intersectObjects params elements (S n) p0 st0
         = (let '(p, s, k) := Propagation.march intersectObjects params elements
                                n path' st' in (p, s, S k)).
Proof.
  intros Ht. unfold Propagation.interact. rewrite Ht. cbv zeta.
  change (String.eqb "multimeter" "beamBlock") with false.
  change (String.eqb "multimeter" "beamSplitter") with false.
  change (String.eqb "multimeter" "mirror") with false.
  change (String.eqb "multimeter" "grating") with false.
  change (String.eqb "multimeter" "multimeter") with true.
  cbv iota. unfold Propagation.hitMultimeter. cbv zeta.
  eexists. eexists. split; [ reflexivity | ].
  repeat (split; [ reflexivity | ]).
  split; [ destruct path as [[] [] ? ? ? ? ? ? ? ? ? ? ? ? ? ?]; reflexivity | ].
  split; [ destruct path as [[] [] ? ? ? ? ? ? ? ? ? ? ? ? ? ?]; reflexivity | ].
  repeat (split; [ reflexivity | ]).
  split.
  - simpl Propagation.meterLastInfo.
    assert (G : forall (k : nat) (i : Propagation.Info) mp,
               Propagation.mapGet k (Propagation.mapSet k i mp) = Some i).
    { intros k i mp. induction mp as [ | [k' v'] mp IH ]; simpl.
      - rewrite Nat.eqb_refl; reflexivity.
      - destruct (Nat.eqb_spec k' k); simpl.
        + rewrite Nat.eqb_refl; reflexivity.
        + destruct (Nat.eqb_spec k' k); [ contradiction | assumption ]. }
    eexists. split; [ apply G | ]. split; reflexivity.
  - intros io params elements n p0 st0 Hin Hstep.
    cbn [Propagation.march].
    destruct (Rlt_dec _ _); [ | contradiction ].
    rewrite Hstep. reflexivity.
Qed.

Lemma detector_is_read_only_witness :
  exists path' st',
    Propagation.interact (Bench.hitOn Bench.meter 0.3) Bench.ray
      (Bench.start Bench.ray) = (path', st', Propagation.Continue)
    /\ Propagation.q path' = Propagation.q Bench.ray
    /\ Propagation.J path' = Propagation.J Bench.ray
    /\ Propagation.dir path' = Propagation.dir Bench.ray.
Proof.
  destruct (detector_is_read_only (Bench.hitOn Bench.meter 0.3) Bench.ray
              (Bench.start Bench.ray) eq_refl)
    as (p & s & H1 & H2 & H3 & H4 & _).
  exists p, s. repeat split; assumption.
Defined.

Lemma beam_splitter_half_split_witness :
  Propagation.relInt
    (Propagation.splitTransmitted (Bench.hitOn Bench.splitter 0.4)
       Bench.splitter Bench.ray)
  + Propagation.relInt
      (Propagation.splitReflected (Bench.hitOn Bench.splitter 0.4)
         Bench.splitter Bench.ray)
  = Propagation.relInt Bench.ray.
Proof.
  exact (proj1 (proj2 (proj2
           (beam_splitter_half_split (Bench.hitOn Bench.splitter 0.4) Bench.ray
              (Bench.start Bench.ray) eq_refl eq_refl eq_refl)))).
Defined.

(** ** Beam block *)

Lemma pts_propagateTo (params : Propagation.Params) (hit : Propagation.Hit)
    (path : Propagation.Path) :
  Propagation.pts (Propagation.propagateTo params hit path)
  = (Propagation.pts path
     ++ map (fun t => THREE.add (THREE.clone (Propagation.pos path))
                        (THREE.multiplyScalar (THREE.clone (Propagation.dir path)) t))
            (Propagation.denseTs
               (Propagation.cutsOf (Propagation.q path) (Propagation.distance hit))))%list.
Proof. reflexivity. Qed.

(** A step that strikes a beam block ends the [for] loop at once: the
    ray-path is brought to the block and nothing else changes. *)
Lemma march_block
    (intersectObjects : THREE.Vector3 -> THREE.Vector3 -> R -> R
                        -> list THREE.Object3D -> list Propagation.Hit)
    (params : Propagation.Params) (elements : list Elements.Element)
    (n : nat) (path : Propagation.Path) (st : Propagation.State)
    (hit : Propagation.Hit) (others : list Propagation.Hit) :
  Propagation.traveled path < Propagation.maxLen path ->
  filter (Propagation.notLastHit (Propagation.lastHit path))
    (intersectObjects (Propagation.pos path) (Propagation.dir path) 1e-8
       (Rmax 1e-5 (Propagation.maxLen path - Propagation.traveled path))
       (Propagation.meshes elements)) = hit :: others ->
  Elements.type (Propagation.element hit) = "beamBlock" ->
  Propagation.march intersectObjects params elements (S n) path st
  = (Propagation.propagateTo params hit path, st, 1%nat).
Proof.
  intros Hin Hhits Ht. cbn [Propagation.march].
  destruct (Rlt_dec _ _); [ | contradiction ].
  unfold Propagation.step. cbv zeta. rewrite Hhits.
  unfold Propagation.interact. rewrite Ht. reflexivity.
Qed.

Lemma ribbon_of_blocked (params : Propagation.Params) (hit : Propagation.Hit)
    (path : Propagation.Path) :
  0 < Propagation.distance hit ->
  exists mesh,
    Propagation.drawRibbons params [Propagation.propagateTo params hit path] = [mesh]
    /\ Ribbon.points mesh
       = Propagation.pts (Propagation.propagateTo params hit path).
Proof.
  intros HL. unfold Propagation.drawRibbons. cbn [flat_map].
  unfold Ribbon.buildRibbon.
  destruct (dense_samples (Propagation.q path) (Propagation.distance hit) HL)
    as [Hlen _].
  assert (Hpts : (2 <= List.length
                        (Propagation.pts (Propagation.propagateTo params hit path)))%nat).
  { rewrite pts_propagateTo, length_app, length_map. lia. }
  destruct (Nat.ltb_spec
              (List.length (Propagation.pts (Propagation.propagateTo params hit path)))
              2); [ lia | ].
  eexists. split; reflexivity.
Qed.

(** C5, amended.  A ray-path that strikes a beam block stops there: the
    [for] loop breaks at that step with no branch queued and no readout
    written, and the dense samples of the ray-path end at the block point
    (those of the last segment lie at distances in [(0, L]], [L] the
    distance of the block).  The ray-path is then finalized like any
    other: it is appended to the completed-path list and a ribbon is built
    from its samples. *)
Theorem beam_block_path_completed
    (intersectObjects : THREE.Vector3 -> THREE.Vector3 -> R -> R
                        -> list THREE.Object3D -> list Propagation.Hit)
    (params : Propagation.Params) (elements : list Elements.Element)
    (n : nat) (path : Propagation.Path) (st : Propagation.State)
    (hit : Propagation.Hit) (others : list Propagation.Hit) :
  Propagation.traveled path < Propagation.maxLen path ->
  filter (Propagation.notLastHit (Propagation.lastHit path))
    (intersectObjects (Propagation.pos path) (Propagation.dir path) 1e-8
       (Rmax 1e-5 (Propagation.maxLen path - Propagation.traveled path))
       (Propagation.meshes elements)) = hit :: others ->
  Elements.type (Propagation.element hit) = "beamBlock" ->
  0 < Propagation.distance hit ->
  let blocked := Propagation.propagateTo params hit path in
  let ts := Propagation.denseTs
              (Propagation.cutsOf (Propagation.q path) (Propagation.distance hit)) in
  Propagation.march intersectObjects params elements (S n) path st
  = (blocked, st, 1%nat)
  /\ Propagation.pts blocked
     = (Propagation.pts path
        ++ map (fun t => THREE.add (THREE.clone (Propagation.pos path))
                           (THREE.multiplyScalar (THREE.clone (Propagation.dir path)) t))
               ts)%list
  /\ Forall (fun t => 0 < t <= Propagation.distance hit) ts
  /\ (forall st0 rest,
        Propagation.queue st0 = path :: rest ->
        Propagation.maxSegments params = S n ->
        Propagation.queue (Propagation.workIteration intersectObjects params elements st0)
        = rest
        /\ Propagation.completedPaths
             (Propagation.workIteration intersectObjects params elements st0)
           = (Propagation.completedPaths st0 ++ [blocked])%list)
  /\ exists mesh,
       Propagation.drawRibbons params [blocked] = [mesh]
       /\ Ribbon.points mesh = Propagation.pts blocked.
Proof.
  intros Hin Hhits Ht HL blocked ts.
  split; [ apply (march_block _ _ _ _ _ _ _ others); assumption | ].
  split; [ apply pts_propagateTo | ].
  split; [ apply dense_samples; assumption | ].
  split; [ | apply ribbon_of_blocked; assumption ].
  intros st0 rest Hq Hn.
  unfold Propagation.workIteration. rewrite Hq, Hn.
  rewrite (march_block intersectObjects params elements n path _ hit others Hin Hhits Ht).
  split; reflexivity.
Qed.

Lemma ray_in_flight : Propagation.traveled Bench.ray < Propagation.maxLen Bench.ray.
Proof.
  change (0 < Rmax 0 (100 * 0.01)). rewrite Rmax_of_le by lra. lra.
Qed.

Lemma beam_block_path_completed_witness :
  Propagation.march (Bench.alwaysHits Bench.block 0.5) Bench.params [Bench.block]
    60 Bench.ray (Bench.start Bench.ray)
  = (Propagation.propagateTo Bench.params (Bench.hitOn Bench.block 0.5) Bench.ray,
     Bench.start Bench.ray, 1%nat).
Proof.
  refine (proj1 (beam_block_path_completed (Bench.alwaysHits Bench.block 0.5)
                   Bench.params [Bench.block] 59 Bench.ray (Bench.start Bench.ray)
                   (Bench.hitOn Bench.block 0.5) [] ray_in_flight eq_refl eq_refl _)).
  simpl; lra.
Defined.

(** The default source yields the single seed [Bench.ray]. *)
Lemma implicit_seeds :
  Propagation.seedsOf
    (Sources.syncSourceW0ZR
       (Sources.mkSource (Sources.group Propagation.implicitSource)
                         (Sources.props Propagation.implicitSource)
                         (Sources.lastEdited Propagation.implicitSource)))
  = [Bench.ray].
Proof.
  change (Sources.syncSourceW0ZR
            (Sources.mkSource (Sources.group Propagation.implicitSource)
                              (Sources.props Propagation.implicitSource)
                              (Sources.lastEdited Propagation.implicitSource)))
    with Propagation.implicitSource.
  unfold Propagation.seedsOf. cbv zeta.
  change (Sources.bandwidth_nm (Sources.props Propagation.implicitSource)) with 0.
  change (Sources.specSamples (Sources.props Propagation.implicitSource)) with 9.
  change (Sources.wavelength_nm (Sources.props Propagation.implicitSource)) with 632.8.
  change (Sources.forward_cm (Sources.props Propagation.implicitSource)) with 100.
  change (Sources.backward_cm (Sources.props Propagation.implicitSource)) with 0.
  change (Sources.quaternion (Sources.group Propagation.implicitSource))
    with (THREE.quat 0 0 0 1).
  rewrite or_of_zero.
  rewrite spectralSamples_single by (left; rewrite Rmax_of_le; lra).
  cbn [flat_map Propagation.s_lambda Propagation.weight].
  destruct (Rlt_dec 0 (Rmax 0 (100 * 0.01))) as [ _ | N ];
    [ | exfalso; apply N; rewrite Rmax_of_le; lra ].
  destruct (Rlt_dec 0 (Rmax 0 (0 * 0.01))) as [ P | _ ];
    [ exfalso; rewrite Rmax_of_le in P; lra | ].
  reflexivity.
Qed.

(** C5, as stated, fails: a ray-path that strikes a beam block is not
    excluded from the completed-path list.  With the default source in
    front of a beam block at 0.5 m, [recompute] completes exactly one
    path, the blocked one, and builds a ribbon from its samples. *)
Lemma blocked_path_is_completed_and_drawn :
  exists res mesh,
    Propagation.recompute (Bench.alwaysHits Bench.block 0.5) (fun g => g)
      Bench.params [Bench.block] [] [] [] = Some res
    /\ Propagation.completedPaths (Propagation.final res)
       = [Propagation.propagateTo Bench.params (Bench.hitOn Bench.block 0.5) Bench.ray]
    /\ Propagation.ribbonMeshes res = [mesh]
    /\ Ribbon.points mesh
       = Propagation.pts
           (Propagation.propagateTo Bench.params (Bench.hitOn Bench.block 0.5) Bench.ray)
    /\ (10 < List.length (Ribbon.points mesh))%nat.
Proof.
  destruct (ribbon_of_blocked Bench.params (Bench.hitOn Bench.block 0.5) Bench.ray)
    as (mesh & Hdraw & Hpts); [ simpl; lra | ].
  unfold Propagation.recompute. cbv zeta. cbn [flat_map].
  rewrite implicit_seeds. rewrite app_nil_r.
  change Propagation.MAX_BEAMS with (S 599).
  rewrite workLoop_unfold.
  change (Propagation.loopGuard (Propagation.mkState [Bench.ray] [] [] [] [] false))
    with true. cbv iota.
  assert (E : Propagation.workIteration (Bench.alwaysHits Bench.block 0.5)
                Bench.params [Bench.block]
                (Propagation.mkState [Bench.ray] [] [] [] [] false)
              = Propagation.mkState []
                  [Propagation.propagateTo Bench.params
                     (Bench.hitOn Bench.block 0.5) Bench.ray] [] [] [] false).
  { unfold Propagation.workIteration. cbn [Propagation.queue].
    change (Propagation.maxSegments Bench.params) with 60%nat.
    rewrite (march_block (Bench.alwaysHits Bench.block 0.5) Bench.params
               [Bench.block] 59 Bench.ray _ (Bench.hitOn Bench.block 0.5) []
               ray_in_flight eq_refl eq_refl).
    reflexivity. }
  rewrite E.
  change 599%nat with (S 598). rewrite workLoop_unfold.
  change (Propagation.loopGuard
            (Propagation.mkState []
               [Propagation.propagateTo Bench.params
                  (Bench.hitOn Bench.block 0.5) Bench.ray] [] [] [] false))
    with false. cbv iota.
  eexists. exists mesh. split; [ reflexivity | ].
  cbn [Propagation.final Propagation.completedPaths Propagation.ribbonMeshes].
  split; [ reflexivity | ]. split; [ exact Hdraw | ]. split; [ exact Hpts | ].
  rewrite Hpts, pts_propagateTo, length_app, length_map.
  destruct (dense_samples (Propagation.q Bench.ray) 0.5 ltac:(lra)) as [Hlen _].
  change (Propagation.distance (Bench.hitOn Bench.block 0.5)) with 0.5.
  change (List.length (Propagation.pts Bench.ray)) with 1%nat. lia.
Qed.

(** * Further properties of the code *)

(** ** Complex numbers and Jones matrices *)

Lemma abs2_nonzero (b : Complex.t) :
  b <> Complex.mk 0 0 -> Complex.re b * Complex.re b + Complex.im b * Complex.im b <> 0.
Proof.
  destruct b as [x y]; simpl; intros H E. apply H.
  assert (x = 0) by nra. assert (y = 0) by nra. subst; reflexivity.
Qed.

(** X1.  Division is multiplication by the inverse, for every divisor; for
    a non-zero [b] the inverse is a true inverse ([b * inv b = 1]) and
    division undoes multiplication ([(a / b) * b = a]); the inverse of
    zero is zero. *)
Theorem complex_div_inverse (a b : Complex.t) :
  Complex.div a b = Complex.mul a (Complex.inv b)
  /\ Complex.inv (Complex.mk 0 0) = Complex.mk 0 0
  /\ (b <> Complex.mk 0 0 ->
      Complex.mul b (Complex.inv b) = Complex.mk 1 0
      /\ Complex.mul (Complex.div a b) b = a
      /\ Complex.div (Complex.mul a b) b = a).
Proof.
  split; [ | split ].
  - destruct a as [x y], b as [u v].
    unfold Complex.div, Complex.mul, Complex.inv, Complex.inv_d, Complex.div_d; simpl.
    f_equal; unfold Rdiv; ring.
  - unfold Complex.inv, Complex.inv_d; simpl.
    replace (0 * 0 + 0 * 0) with 0 by ring. rewrite or_of_zero.
    f_equal; unfold Rdiv; ring.
  - intros Hb. pose proof (abs2_nonzero b Hb) as Hd.
    destruct a as [x y], b as [u v]; simpl in Hd.
    unfold Complex.div, Complex.mul, Complex.inv, Complex.inv_d, Complex.div_d; simpl.
    rewrite !or_of_nonzero by assumption.
    repeat split; f_equal; field; assumption.
Qed.

Lemma complex_div_inverse_witness :
  Complex.mul (Complex.mk 3 4) (Complex.inv (Complex.mk 3 4)) = Complex.mk 1 0.
Proof.
  refine (proj1 (proj2 (proj2 (complex_div_inverse (Complex.mk 1 0) (Complex.mk 3 4))) _)).
  intros H. injection H as H _. lra.
Defined.

Ltac complex_ring :=
  repeat match goal with
         | z : Complex.t |- _ => destruct z
         | J : Optics.Jones |- _ => destruct J
         | m : Optics.C2.t |- _ => destruct m
         end;
  unfold Optics.C2.mulVec, Optics.C2.mul, Complex.add, Complex.mul, Complex.from;
  simpl;
  repeat (f_equal; try ring).

Lemma mulVec_mul (A B : Optics.C2.t) (v : Optics.Jones) :
  Optics.C2.mulVec (Optics.C2.mul A B) v
  = Optics.C2.mulVec A (Optics.C2.mulVec B v).
Proof. complex_ring. Qed.

(** X2.  Applying a product of matrices is applying the factors from the
    right: [(A.mul(B)).mulVec(v) = A.mulVec(B.mulVec(v))], and the product
    is associative. *)
Theorem C2_mul_composes (A B C : Optics.C2.t) (v : Optics.Jones) :
  Optics.C2.mulVec (Optics.C2.mul A B) v
  = Optics.C2.mulVec A (Optics.C2.mulVec B v)
  /\ Optics.C2.mul (Optics.C2.mul A B) C = Optics.C2.mul A (Optics.C2.mul B C).
Proof. split; [ apply mulVec_mul | complex_ring ]. Qed.

Lemma trig_one (th : R) : sin th * sin th + cos th * cos th = 1.
Proof. pose proof (sin2_cos2 th) as H. unfold Rsqr in H. exact H. Qed.

Lemma jNorm_rotation (th : R) (J : Optics.Jones) :
  Optics.jNorm (Optics.C2.mulVec (Optics.Rtheta th) J) = Optics.jNorm J.
Proof.
  destruct J as [[x y] [u v]]. unfold Optics.jNorm, Optics.C2.mulVec, Optics.Rtheta.
  simpl. f_equal.
  transitivity ((sin th * sin th + cos th * cos th) * (x * x + y * y + (u * u + v * v)));
    [ ring | rewrite trig_one; ring ].
Qed.

Lemma rotation_inverse (th : R) (J : Optics.Jones) :
  Optics.C2.mulVec (Optics.Rtheta th) (Optics.C2.mulVec (Optics.Rtheta (- th)) J) = J.
Proof.
  destruct J as [[x y] [u v]].
  unfold Optics.C2.mulVec, Optics.Rtheta, Complex.add, Complex.mul, Complex.from.
  simpl. rewrite cos_neg, sin_neg.
  pose proof (trig_one th) as H.
  apply f_equal2; apply f_equal2.
  - transitivity ((sin th * sin th + cos th * cos th) * x); [ ring | rewrite H; ring ].
  - transitivity ((sin th * sin th + cos th * cos th) * y); [ ring | rewrite H; ring ].
  - transitivity ((sin th * sin th + cos th * cos th) * u); [ ring | rewrite H; ring ].
  - transitivity ((sin th * sin th + cos th * cos th) * v); [ ring | rewrite H; ring ].
Qed.

(** X3.  [Rtheta] is a rotation: it preserves the norm of a Jones vector,
    and [Rtheta(-th)] undoes [Rtheta(th)], as a matrix product too. *)
Theorem Rtheta_is_rotation (th : R) (J : Optics.Jones) :
  Optics.jNorm (Optics.C2.mulVec (Optics.Rtheta th) J) = Optics.jNorm J
  /\ Optics.C2.mulVec (Optics.Rtheta (- th)) (Optics.C2.mulVec (Optics.Rtheta th) J) = J
  /\ Optics.C2.mulVec (Optics.C2.mul (Optics.Rtheta (- th)) (Optics.Rtheta th)) J = J.
Proof.
  assert (E : Optics.C2.mulVec (Optics.Rtheta (- th))
                (Optics.C2.mulVec (Optics.Rtheta th) J) = J).
  { pose proof (rotation_inverse (- th) J) as H. rewrite Ropp_involutive in H. exact H. }
  split; [ apply jNorm_rotation | split; [ exact E | ] ].
  rewrite mulVec_mul. exact E.
Qed.

(** ** Polarization elements *)

Lemma jNorm_waveplate_matrix (delta : R) (J : Optics.Jones) :
  Optics.jNorm (Optics.C2.mulVec (Optics.MWaveplate delta) J) = Optics.jNorm J.
Proof.
  destruct J as [[x y] [u v]].
  unfold Optics.jNorm, Optics.C2.mulVec, Optics.MWaveplate, Complex.expi.
  simpl. f_equal.
  transitivity (x * x + y * y
                + (sin delta * sin delta + cos delta * cos delta) * (u * u + v * v));
    [ ring | rewrite trig_one; ring ].
Qed.

(** X4.  A waveplate never changes the intensity: whatever its
    retardance, its axis and the direction of the ray, the Jones vector it
    returns has the norm of the one it received. *)
Theorem waveplate_preserves_norm (mesh : THREE.Object3D) (delta axisDeg : R)
    (J : Optics.Jones) (dir : THREE.Vector3) :
  Optics.jNorm (Elements.waveplateJones mesh delta axisDeg J dir) = Optics.jNorm J.
Proof.
  unfold Elements.waveplateJones. cbv zeta.
  rewrite !mulVec_mul, jNorm_rotation, jNorm_waveplate_matrix, jNorm_rotation.
  reflexivity.
Qed.




Lemma dot_normalize (a b : THREE.Vector3) :
  THREE.dot a (THREE.normalize b)
  = THREE.dot a b * (1 / JS.or (THREE.length b) 1)
  /\ 0 < 1 / JS.or (THREE.length b) 1.
Proof.
  split.
  - destruct a, b. unfold THREE.normalize, THREE.multiplyScalar, THREE.dot. simpl. ring.
  - apply Rdiv_lt_0_compat; [ lra | ].
    unfold JS.or. destruct (Req_dec_T (THREE.length b) 0); [ lra | ].
    pose proof (sqrt_pos (THREE.x b * THREE.x b + THREE.y b * THREE.y b
                          + THREE.z b * THREE.z b)).
    unfold THREE.length in *. lra.
Qed.

Lemma or_zero_r (x : R) : JS.or x 0 = x.
Proof. unfold JS.or. destruct (Req_dec_T x 0); congruence. Qed.

(** X7.  A Faraday rotator turns the Jones vector by its angle without
    changing the norm; the sense is set by the side the ray enters from:
    along the element normal it applies [Rtheta(-phi)], against it
    [Rtheta(phi)].  So a ray sent back through the rotator in the opposite
    direction gets its Jones vector back. *)
Theorem faraday_rotates (mesh : THREE.Object3D) (phiDeg : R)
    (J : Optics.Jones) (dir : THREE.Vector3) :
  let nW := THREE.normalize
              (THREE.applyQuaternion (THREE.vec3 0 0 1) (THREE.worldQuaternion mesh)) in
  let phi := JS.degToRad phiDeg in
  Optics.jNorm (Elements.faradayJones mesh phiDeg J dir) = Optics.jNorm J
  /\ (0 <= THREE.dot nW dir ->
      Elements.faradayJones mesh phiDeg J dir
      = Optics.C2.mulVec (Optics.Rtheta (- phi)) J)
  /\ (THREE.dot nW dir < 0 ->
      Elements.faradayJones mesh phiDeg J dir
      = Optics.C2.mulVec (Optics.Rtheta phi) J)
  /\ (THREE.dot nW dir <> 0 ->
      Elements.faradayJones mesh phiDeg
        (Elements.faradayJones mesh phiDeg J dir)
        (THREE.multiplyScalar dir (-1)) = J).
Proof.
  intros nW phi.
  assert (Sg : forall d,
            (0 <= THREE.dot nW d -> Elements.faradaySign mesh d = 1)
            /\ (THREE.dot nW d < 0 -> Elements.faradaySign mesh d = -1)).
  { intros d. unfold Elements.faradaySign. cbv zeta. fold nW.
    rewrite vclone_id.
    destruct (dot_normalize nW d) as [E P]. rewrite E.
    destruct (Rle_dec 0 _) as [H | H]; split; intros Hd; try reflexivity.
    - exfalso. nra.
    - exfalso. apply H. apply Rmult_le_pos; lra. }
  assert (Ef : forall v d, Elements.faradayJones mesh phiDeg v d
                = Optics.C2.mulVec
                    (Optics.Rtheta (- Elements.faradaySign mesh d * phi)) v).
  { intros v d. unfold Elements.faradayJones. cbv zeta.
    rewrite or_zero_r. reflexivity. }
  split; [ rewrite Ef; apply jNorm_rotation | ].
  split; [ | split ].
  - intros H. rewrite Ef, (proj1 (Sg dir) H). do 2 f_equal. ring.
  - intros H. rewrite Ef, (proj2 (Sg dir) H). do 2 f_equal. ring.
  - intros H.
    assert (Erev : THREE.dot nW (THREE.multiplyScalar dir (-1)) = - THREE.dot nW dir).
    { destruct nW, dir. unfold THREE.dot, THREE.multiplyScalar. simpl. ring. }
    rewrite !Ef.
    destruct (Rle_dec 0 (THREE.dot nW dir)) as [Hp | Hn].
    + rewrite (proj1 (Sg dir) Hp).
      rewrite (proj2 (Sg (THREE.multiplyScalar dir (-1)))) by (rewrite Erev; lra).
      replace (- -1 * phi) with phi by ring.
      replace (- (1) * phi) with (- phi) by ring.
      apply rotation_inverse.
    + rewrite (proj2 (Sg dir)) by lra.
      rewrite (proj1 (Sg (THREE.multiplyScalar dir (-1)))) by (rewrite Erev; lra).
      replace (- -1 * phi) with phi by ring.
      replace (- (1) * phi) with (- phi) by ring.
      pose proof (rotation_inverse (- phi) J) as R0.
      rewrite Ropp_involutive in R0. exact R0.
Qed.

(** ** Beam parameter *)

(** X8.  Free-space propagation composes additively, and it is the ABCD
    transfer [[1, L], [0, 1]] of [optics.js]: sampling the beam at a
    distance [t] inside a segment and propagating on by [L - t] gives the
    beam parameter at the end of the segment. *)
Theorem freeSpace_composes (q : Complex.t) (L1 L2 : R) :
  Beam.freeSpace (Beam.freeSpace q L1) L2 = Beam.freeSpace q (L1 + L2)
  /\ Beam.freeSpace q 0 = q
  /\ Optics.abcd q 1 L1 0 1 = Beam.freeSpace q L1.
Proof.
  rewrite !freeSpace_eq. destruct q as [x y]. simpl.
  split; [ f_equal; ring | split; [ f_equal; ring | ] ].
  unfold Optics.abcd, Complex.div, Complex.div_d, Complex.add, Complex.mul,
    Complex.from. simpl.
  replace ((0 * x - 0 * y + 1) * (0 * x - 0 * y + 1)
           + (0 * y + 0 * x + 0) * (0 * y + 0 * x + 0)) with 1 by ring.
  rewrite or_of_nonzero by lra. f_equal; field.
Qed.

Lemma wFromQ_eq (x y lambda M2 : R) :
  0 < y ->
  Beam.wFromQ (Complex.mk x y) lambda M2
  = sqrt M2 * sqrt (lambda * (x * x + y * y) / (y * PI)).
Proof.
  intros Hy. unfold Beam.wFromQ, Complex.inv, Complex.inv_d. simpl.
  assert (Hd : 0 < x * x + y * y) by nra.
  rewrite (or_of_nonzero (x * x + y * y)) by lra.
  pose proof PI_RGT_0 as Hpi.
  assert (Him : - y / (x * x + y * y) < 0).
  { unfold Rdiv. apply Rmult_neg_pos; [ lra | apply Rinv_0_lt_compat; assumption ]. }
  rewrite Rabs_left by assumption.
  assert (Hden : 0 < - (- y / (x * x + y * y)) * PI).
  { apply Rmult_lt_0_compat; lra. }
  rewrite or_of_nonzero by lra.
  do 2 f_equal. field. lra.
Qed.



(** What [abcd1 q C 1], the transfer [[1, 0], [C, 1]], does to a beam
    parameter off the real axis. *)
Lemma abcd1_law (q : Complex.t) (C : R) :
  Complex.im q <> 0 ->
  let q' := Elements.abcd1 q C 1 in
  Complex.inv q' = Complex.add (Complex.inv q) C
  /\ Complex.im q'
     = Complex.im q / ((C * Complex.re q + 1) ^ 2 + (C * Complex.im q) ^ 2)
  /\ 0 < (C * Complex.re q + 1) ^ 2 + (C * Complex.im q) ^ 2.
Proof.
  intros Hy q'. destruct q as [x y]. simpl in Hy.
  assert (Hq : x * x + y * y <> 0) by nra.
  assert (Hden : 0 < (C * x + 1) ^ 2 + (C * y) ^ 2).
  { destruct (Req_dec_T C 0) as [-> | HC]; [ nra | ].
    assert (C * y <> 0) by (apply Rmult_integral_contrapositive_currified; assumption).
    assert (0 < (C * y) ^ 2) by (apply pow_lt_0_compat_even || nra).
    pose proof (pow2_ge_0 (C * x + 1)). lra. }
  set (d := (x * C - y * 0 + 1) * (x * C - y * 0 + 1)
            + (x * 0 + y * C + 0) * (x * 0 + y * C + 0)).
  assert (Ed : d = (C * x + 1) ^ 2 + (C * y) ^ 2) by (unfold d; ring).
  assert (Eq' : q' = Complex.mk (((x * 1 - y * 0 + 0) * (x * C - y * 0 + 1)
                                  + (x * 0 + y * 1 + 0) * (x * 0 + y * C + 0)) / d)
                                (((x * 0 + y * 1 + 0) * (x * C - y * 0 + 1)
                                  - (x * 1 - y * 0 + 0) * (x * 0 + y * C + 0)) / d)).
  { unfold q', Elements.abcd1, Complex.div, Complex.div_d, Complex.add,
      Complex.mul, Complex.clone, Complex.from. simpl. fold d.
    rewrite or_of_nonzero by lra. reflexivity. }
  assert (Hd : d <> 0) by lra.
  split; [ | split; [ | assumption ] ].
  - rewrite Eq'. unfold Complex.inv, Complex.inv_d, Complex.add, Complex.from. simpl.
    set (a := ((x * 1 - y * 0 + 0) * (x * C - y * 0 + 1)
               + (x * 0 + y * 1 + 0) * (x * 0 + y * C + 0)) / d).
    set (b := ((x * 0 + y * 1 + 0) * (x * C - y * 0 + 1)
               - (x * 1 - y * 0 + 0) * (x * 0 + y * C + 0)) / d).
    assert (Eab : a * a + b * b = (x * x + y * y) / d).
    { unfold a, b. rewrite Ed in *. field. lra. }
    assert (Hab : a * a + b * b <> 0).
    { rewrite Eab. unfold Rdiv. apply Rmult_integral_contrapositive_currified;
        [ assumption | apply Rinv_neq_0_compat; assumption ]. }
    rewrite (or_of_nonzero (a * a + b * b)) by assumption.
    rewrite (or_of_nonzero (x * x + y * y)) by assumption.
    rewrite Eab. unfold a, b. rewrite Ed in *.
    f_equal; field; split; lra.
  - rewrite Eq'. simpl. rewrite Ed. field. lra.
Qed.

(** X10.  A thin lens of focal length [f] obeys the lens law on the beam
    parameter, [1/q' = 1/q - 1/f], and keeps a valid beam valid:
    [Im q' > 0] whenever [Im q > 0]. *)
Theorem thin_lens_law (id : nat) (mesh : THREE.Object3D) (f : R) (q : Complex.t) :
  f <> 0 -> 0 < Complex.im q ->
  let q' := Elements.abcd (Elements.makeLens id mesh f) q in
  Complex.inv q' = Complex.add (Complex.inv q) (- 1 / f)
  /\ 0 < Complex.im q'.
Proof.
  intros Hf Hy q'.
  destruct (abcd1_law q (- 1 / f) ltac:(lra)) as (E1 & E2 & E3).
  split; [ exact E1 | ].
  change q' with (Elements.abcd1 q (- 1 / f) 1). rewrite E2.
  apply Rdiv_lt_0_compat; assumption.
Qed.

Lemma thin_lens_law_witness :
  0 < Complex.im (Elements.abcd (Elements.makeLens 1 (Bench.panel 1 0.05) 0.05)
                                (Complex.mk 0.05 0.2)).
Proof.
  refine (proj2 (thin_lens_law 1 (Bench.panel 1 0.05) 0.05 (Complex.mk 0.05 0.2) _ _));
    simpl; lra.
Defined.

(** X11.  Reflection off a spherical mirror of radius [R] obeys
    [1/q' = 1/q - 2/R] and keeps [Im q' > 0]; a flat mirror leaves the
    beam parameter as it is. *)
Theorem spherical_mirror_law (id : nat) (mesh : THREE.Object3D) (flat : bool)
    (R refl n : R) (dichroic : bool) (rb tb : Elements.Band) (q : Complex.t) :
  R <> 0 -> 0 < Complex.im q ->
  let q' := Elements.abcd (Elements.makeMirror id mesh flat R refl n dichroic rb tb) q in
  (flat = true -> q' = q)
  /\ (flat = false ->
      Complex.inv q' = Complex.add (Complex.inv q) (- 2 / R) /\ 0 < Complex.im q').
Proof.
  intros HR Hy q'. split; intros ->.
  - reflexivity.
  - destruct (abcd1_law q (- 2 / R) ltac:(lra)) as (E1 & E2 & E3).
    split; [ exact E1 | ].
    change q' with (Elements.abcd1 q (- 2 / R) 1). rewrite E2.
    apply Rdiv_lt_0_compat; assumption.
Qed.

Lemma spherical_mirror_law_witness :
  0 < Complex.im
        (Elements.abcd
           (Elements.makeMirror 1 (Bench.panel 1 0.05) false 2.0 1.0 1.5 false
              (Elements.mkBand 400 700) (Elements.mkBand 700 1100))
           (Complex.mk 0.05 0.2)).
Proof.
  refine (proj2 (proj2 (spherical_mirror_law 1 (Bench.panel 1 0.05) false 2.0 1.0 1.5
                          false (Elements.mkBand 400 700) (Elements.mkBand 700 1100)
                          (Complex.mk 0.05 0.2) _ _) eq_refl));
    simpl; lra.
Defined.

(** ** Seeds *)

Lemma sourceM2_ge_1 (s : Sources.Source) : 1 <= Propagation.sourceM2 s.
Proof.
  unfold Propagation.sourceM2.
  pose proof (Rmax_l 1.0 (Sources.nullish (Sources.M2 (Sources.props s)) 1.0)). lra.
Qed.

Lemma w0_m_pos (s : Sources.Source) : 0 < Propagation.w0_m s.
Proof.
  unfold Propagation.w0_m.
  pose proof (Rmax_l 1e-9 (Sources.waist_w0_um (Sources.props s) * 1e-6)). lra.
Qed.




Lemma jNorm_clone (J : Optics.Jones) :
  Optics.jNorm (Complex.clone (fst J), Complex.clone (snd J)) = Optics.jNorm J.
Proof. destruct J as [[x y] [u v]]. reflexivity. Qed.



(** The six presets of [jonesFrom] are unit vectors. *)
Lemma preset_unit_norm (preset : string) (ex ey : Complex.t) :
  In preset ["Linear X"; "Linear Y"; "+45°"; "-45°"; "RHC"; "LHC"] ->
  Optics.jNorm (Propagation.jonesFrom preset ex ey) = 1.
Proof.
  assert (H2 : 1 / sqrt 2 * (1 / sqrt 2) = 1 / 2).
  { assert (0 < sqrt 2) by (apply sqrt_lt_R0; lra).
    replace (1 / sqrt 2 * (1 / sqrt 2)) with (1 / (sqrt 2 * sqrt 2)) by (field; lra).
    rewrite sqrt_sqrt by lra. reflexivity. }
  intros Hin. simpl in Hin.
  destruct Hin as [<- | [<- | [<- | [<- | [<- | [<- | []]]]]]];
    unfold Propagation.jonesFrom; simpl; unfold Optics.jNorm; simpl;
    apply sqrt_of_square; try lra.
  all: try (rewrite ?Rmult_opp_opp; rewrite H2; lra).
  all: try (replace (- (1 / sqrt 2) * - (1 / sqrt 2)) with (1 / sqrt 2 * (1 / sqrt 2)) by ring;
            rewrite H2; lra).
Qed.

Lemma seed_relInt (s : Sources.Source) (dir : THREE.Vector3)
    (maxLen lambda weight : R) :
  1e-12 <= Optics.jNorm
             (Propagation.jonesFrom (Sources.polPreset (Sources.props s))
                (Sources.customPolEx (Sources.props s))
                (Sources.customPolEy (Sources.props s))) ->
  0 <= weight ->
  Propagation.relInt (Propagation.makeSeed s dir maxLen lambda weight)
  = weight * Rmax 0 (Sources.nullish (Sources.intensity_rel (Sources.props s)) 1).
Proof.
  intros HJ Hw.
  set (Irel := Rmax 0 (Sources.nullish (Sources.intensity_rel (Sources.props s)) 1)).
  assert (HI : 0 <= Irel) by apply Rmax_l.
  unfold Propagation.relInt, Propagation.makeSeed. cbv zeta.
  cbn [Propagation.J Propagation.Jnorm]. fold Irel.
  set (J0 := Propagation.jonesFrom _ _ _) in *.
  rewrite (jNorm_clone (Complex.mul (fst J0) (sqrt (weight * Irel)),
                        Complex.mul (snd J0) (sqrt (weight * Irel)))).
  rewrite jNorm_scale by reflexivity.
  rewrite sqrt_square by (apply sqrt_pos).
  rewrite Rmax_of_le by assumption.
  replace (sqrt (weight * Irel) * Optics.jNorm J0 / Optics.jNorm J0)
    with (sqrt (weight * Irel)) by (field; lra).
  simpl. rewrite Rmult_1_r. apply sqrt_sqrt. nra.
Qed.

Lemma spectral_weights (lambda0 BW specSamples : R) :
  Propagation.sumWeights (Propagation.spectralSamples lambda0 BW specSamples) = 1
  /\ Forall (fun smp => 0 <= Propagation.weight smp)
            (Propagation.spectralSamples lambda0 BW specSamples).
Proof.
  destruct (Rle_dec BW 0) as [Hz | Hp].
  - rewrite spectralSamples_single by (left; assumption).
    split; [ unfold Propagation.sumWeights; simpl; ring | ].
    repeat constructor. simpl. lra.
  - destruct (Z.eq_dec (Propagation.sampleCount specSamples BW) 1) as [E1 | N1].
    + rewrite spectralSamples_single by (right; assumption).
      split; [ unfold Propagation.sumWeights; simpl; ring | ].
      repeat constructor. simpl. lra.
    + destruct (spectralSamples_multi lambda0 BW specSamples ltac:(lra) N1) as [E HS].
      rewrite E. split.
      * rewrite sumWeights_scaled. field. lra.
      * apply Forall_forall. intros smp Hin.
        apply in_map_iff in Hin. destruct Hin as (raw & <- & Hraw).
        apply in_map_iff in Hraw. destruct Hraw as (i & <- & _).
        simpl. apply Rlt_le, Rdiv_lt_0_compat; [ apply exp_pos | assumption ].
Qed.

(** X13.  Seeding conserves the intensity of the source.  For a
    polarization of norm at least 1e-12 (every preset has norm 1) a seed of
    spectral weight [w] carries the relative intensity [w * intensity_rel],
    and the forward seeds of a source that emits forward only sum to
    [intensity_rel] (floored at 0) over its spectral samples. *)
Theorem seeding_conserves_intensity (s : Sources.Source) :
  let Jsrc0 := Propagation.jonesFrom (Sources.polPreset (Sources.props s))
                 (Sources.customPolEx (Sources.props s))
                 (Sources.customPolEy (Sources.props s)) in
  let Irel := Rmax 0 (Sources.nullish (Sources.intensity_rel (Sources.props s)) 1) in
  (In (Sources.polPreset (Sources.props s))
      ["Linear X"; "Linear Y"; "+45°"; "-45°"; "RHC"; "LHC"] ->
   Optics.jNorm Jsrc0 = 1)
  /\ (1e-12 <= Optics.jNorm Jsrc0 ->
      (forall dir maxLen lambda weight, 0 <= weight ->
         Propagation.relInt (Propagation.makeSeed s dir maxLen lambda weight)
         = weight * Irel)
      /\ (0 < Sources.forward_cm (Sources.props s) ->
          Sources.backward_cm (Sources.props s) <= 0 ->
          fold_right Rplus 0 (map Propagation.relInt (Propagation.seedsOf s)) = Irel)).
Proof.
  intros Jsrc0 Irel. split; [ apply preset_unit_norm | ].
  intros HJ. split; [ intros; apply seed_relInt; assumption | ].
  intros Hf Hb. unfold Propagation.seedsOf. cbv zeta.
  set (samples := Propagation.spectralSamples _ _ _).
  destruct (spectral_weights
              (Sources.wavelength_nm (Sources.props s) * 1e-9)
              (Rmax 0 (JS.or (Sources.bandwidth_nm (Sources.props s)) 0))
              (Sources.specSamples (Sources.props s))) as [Hsum Hpos].
  fold samples in Hsum, Hpos.
  destruct (Rlt_dec 0 (Rmax 0 (Sources.forward_cm (Sources.props s) * 0.01)))
    as [_ | N]; [ | exfalso; apply N; rewrite Rmax_of_le; lra ].
  destruct (Rlt_dec 0 (Rmax 0 (Sources.backward_cm (Sources.props s) * 0.01)))
    as [P | _]; [ exfalso; rewrite Rmax_of_ge in P; lra | ].
  assert (G : forall l, Forall (fun smp => 0 <= Propagation.weight smp) l ->
            fold_right Rplus 0
              (map Propagation.relInt
                 (flat_map (fun smp =>
                    ([Propagation.makeSeed s
                        (THREE.normalize (THREE.applyQuaternion (THREE.vec3 0 0 1)
                           (Sources.quaternion (Sources.group s))))
                        (Rmax 0 (Sources.forward_cm (Sources.props s) * 0.01))
                        (Propagation.s_lambda smp) (Propagation.weight smp)] ++ [])%list)
                    l))
            = Propagation.sumWeights l * Irel).
  { induction l as [ | smp l IH ]; intros Hl.
    - unfold Propagation.sumWeights; simpl; ring.
    - inversion Hl as [ | ? ? Hw Hl' ]; subst.
      specialize (IH Hl').
      cbn [flat_map app map fold_right] in IH |- *.
      rewrite sumWeights_cons, IH, seed_relInt by assumption.
      fold Irel. ring. }
  rewrite (G samples Hpos), Hsum. ring.
Qed.

Lemma seeding_conserves_intensity_witness :
  fold_right Rplus 0 (map Propagation.relInt (Propagation.seedsOf Propagation.implicitSource))
  = Rmax 0 1.0.
Proof.
  refine (proj2 (proj2 (seeding_conserves_intensity Propagation.implicitSource) _) _ _).
  - rewrite (preset_unit_norm "Linear X"); [ lra | simpl; auto ].
  - simpl; lra.
  - simpl; lra.
Defined.

(** ** Energy at the splitting elements *)






Lemma inBand_bool (nm : R) (b : option Elements.Band) :
  Propagation.inBand nm b = true \/ Propagation.inBand nm b = false.
Proof. destruct (Propagation.inBand nm b); auto. Qed.









(** ** Reflection about the element normal *)

Lemma normalize_unit (v : THREE.Vector3) : THREE.dot v v = 1 -> THREE.normalize v = v.
Proof.
  intros H. unfold THREE.normalize.
  assert (E : THREE.length v = 1).
  { unfold THREE.length. unfold THREE.dot in H. rewrite H. apply sqrt_1. }
  rewrite E, or_of_nonzero by lra.
  destruct v. unfold THREE.multiplyScalar. simpl. f_equal; field.
Qed.

Lemma rotated_z_unit (q : THREE.Quaternion) :
  THREE.qx q * THREE.qx q + THREE.qy q * THREE.qy q
  + THREE.qz q * THREE.qz q + THREE.qw q * THREE.qw q = 1 ->
  THREE.dot (THREE.applyQuaternion (THREE.vec3 0 0 1) q)
            (THREE.applyQuaternion (THREE.vec3 0 0 1) q) = 1.
Proof.
  destruct q as [a b c w]. simpl. intros H.
  unfold THREE.dot, THREE.applyQuaternion. simpl.
  transitivity (1 + 4 * (a * a + b * b) * (a * a + b * b + c * c + w * w - 1));
    [ ring | rewrite H; ring ].
Qed.

Lemma reflect_formula (d n : THREE.Vector3) :
  THREE.dot n n = 1 -> THREE.dot d d = 1 ->
  let w := THREE.sub d (THREE.multiplyScalar n (2 * THREE.dot d n)) in
  THREE.dot w w = 1
  /\ THREE.dot w n = - THREE.dot d n
  /\ THREE.sub w (THREE.multiplyScalar n (2 * THREE.dot w n)) = d.
Proof.
  destruct d as [dx dy dz], n as [nx ny nz].
  unfold THREE.dot, THREE.sub, THREE.multiplyScalar. simpl. intros Hn Hd.
  set (k := dx * nx + dy * ny + dz * nz).
  assert (E1 : (dx - nx * (2 * k)) * nx + (dy - ny * (2 * k)) * ny
               + (dz - nz * (2 * k)) * nz = - k).
  { transitivity (k - 2 * k * (nx * nx + ny * ny + nz * nz));
      [ unfold k; ring | rewrite Hn; ring ]. }
  split; [ | split ].
  - transitivity (dx * dx + dy * dy + dz * dz - 4 * k * k
                  + 4 * k * k * (nx * nx + ny * ny + nz * nz));
      [ unfold k; ring | rewrite Hn, Hd; ring ].
  - exact E1.
  - rewrite E1. f_equal; ring.
Qed.

(** X17.  For an element with a unit world quaternion and a unit incoming
    direction [d], the reflected direction is [d - 2 (d.n) n] with [n] the
    unit world normal: it is a unit vector, its normal component is the
    opposite of the incoming one, reflecting it again gives [d] back, and
    at normal incidence it is exactly the negated direction. *)
Theorem reflection_about_normal (el : Elements.Element) (d : THREE.Vector3) :
  let qW := THREE.worldQuaternion (Elements.mesh el) in
  THREE.qx qW * THREE.qx qW + THREE.qy qW * THREE.qy qW
  + THREE.qz qW * THREE.qz qW + THREE.qw qW * THREE.qw qW = 1 ->
  THREE.dot d d = 1 ->
  let n := THREE.normalize (THREE.applyQuaternion (THREE.vec3 0 0 1) qW) in
  let d' := Propagation.reflectAcrossElementNormal d el in
  THREE.dot n n = 1
  /\ d' = THREE.sub d (THREE.multiplyScalar n (2 * THREE.dot d n))
  /\ THREE.dot d' d' = 1
  /\ THREE.dot d' n = - THREE.dot d n
  /\ Propagation.reflectAcrossElementNormal d' el = d
  /\ (d = n -> d' = THREE.multiplyScalar d (-1)).
Proof.
  intros qW Hq Hd n d'.
  assert (En : n = THREE.applyQuaternion (THREE.vec3 0 0 1) qW).
  { unfold n. apply normalize_unit, rotated_z_unit; assumption. }
  assert (Hn : THREE.dot n n = 1) by (rewrite En; apply rotated_z_unit; assumption).
  assert (Er : forall v, THREE.dot v v = 1 ->
                Propagation.reflectAcrossElementNormal v el
                = THREE.sub v (THREE.multiplyScalar n (2 * THREE.dot v n))).
  { intros v Hv. unfold Propagation.reflectAcrossElementNormal. cbv zeta.
    fold qW. fold n. rewrite !vclone_id.
    apply normalize_unit. apply (reflect_formula v n Hn Hv). }
  destruct (reflect_formula d n Hn Hd) as (W1 & W2 & W3).
  assert (Ed : d' = THREE.sub d (THREE.multiplyScalar n (2 * THREE.dot d n)))
    by (apply Er; assumption).
  split; [ exact Hn | split; [ exact Ed | ] ].
  rewrite Ed. split; [ exact W1 | split; [ exact W2 | split ] ].
  - rewrite Er by exact W1. exact W3.
  - intros E. rewrite <- E. rewrite Hd.
    destruct d. unfold THREE.sub, THREE.multiplyScalar. simpl. f_equal; ring.
Qed.

Lemma identity_pose_normal :
  THREE.normalize (THREE.applyQuaternion (THREE.vec3 0 0 1) (THREE.quat 0 0 0 1))
  = THREE.vec3 0 0 1.
Proof.
  rewrite normalize_unit.
  - unfold THREE.applyQuaternion; simpl. f_equal; ring.
  - apply rotated_z_unit. simpl. ring.
Qed.

Lemma reflection_about_normal_witness :
  Propagation.reflectAcrossElementNormal (THREE.vec3 0 0 1) Bench.block
  = THREE.multiplyScalar (THREE.vec3 0 0 1) (-1).
Proof.
  refine (proj2 (proj2 (proj2 (proj2 (proj2
            (reflection_about_normal Bench.block (THREE.vec3 0 0 1) _ _)))))
          _).
  - simpl; lra.
  - unfold THREE.dot; simpl; lra.
  - symmetry. exact identity_pose_normal.
Defined.

(** ** Readouts *)

Lemma ray_rayleigh_pos : 0 < Complex.im (Propagation.q Bench.ray).
Proof.
  unfold Bench.ray, Propagation.makeSeed. cbv zeta. simpl Propagation.q.
  unfold Complex.clone. cbn [Complex.re Complex.im].
  unfold Propagation.seedZR.
  change (String.eqb (Sources.lastEdited Propagation.implicitSource) "w0") with true.
  cbv iota.
  pose proof (sourceM2_ge_1 Propagation.implicitSource).
  pose proof (w0_m_pos Propagation.implicitSource). pose proof PI_RGT_0.
  apply Rdiv_lt_0_compat; [ | lra ].
  apply Rdiv_lt_0_compat; [ | lra ].
  apply Rmult_lt_0_compat; [ apply Rmult_lt_0_compat | ]; assumption.
Qed.

(** X18.  What a readout says about a beam.  Along free space the waist
    size and the Rayleigh range it reports do not change and the distance
    to the waist grows by the distance travelled.  At a waist the radius
    of curvature is reported infinite, the distance to the waist zero and
    the width equals the waist size; away from it the radius is
    [(z^2 + zR^2) / z]. *)
Theorem readout_of_gaussian_beam (aoi : R) (inc : THREE.Vector3)
    (p : Propagation.Path) (L Irel : R) (wl : option R) :
  let info := Propagation.beamInfo aoi inc p Irel wl in
  let info' := Propagation.beamInfo aoi inc
                 (Propagation.set_q (Beam.freeSpace (Propagation.q p) L) p) Irel wl in
  let z := Complex.re (Propagation.q p) in
  let zR := Complex.im (Propagation.q p) in
  Propagation.w0_um info' = Propagation.w0_um info
  /\ Propagation.zR_mm info' = Propagation.zR_mm info
  /\ Propagation.z_to_waist_mm info' = Propagation.z_to_waist_mm info + L * 1e3
  /\ (0 < zR ->
      (z = 0 ->
         Propagation.R_mm info = None
         /\ Propagation.z_to_waist_mm info = 0
         /\ (0 < Propagation.lambda p -> 0 <= Propagation.M2 p ->
             Propagation.w_um info = Propagation.w0_um info))
      /\ (1e-12 <= Rabs (z / (z * z + zR * zR)) ->
          Propagation.R_mm info = Some ((z * z + zR * zR) / z * 1e3))).
Proof.
  intros info info' z zR.
  unfold info', info, Propagation.beamInfo. cbv zeta.
  cbn [Propagation.w0_um Propagation.zR_mm Propagation.z_to_waist_mm
       Propagation.R_mm Propagation.w_um Propagation.q Propagation.set_q
       Propagation.lambda Propagation.M2].
  rewrite freeSpace_eq. cbn [Complex.re Complex.im]. fold z zR.
  split; [ reflexivity | split; [ reflexivity | split; [ ring | ] ] ].
  intros HzR.
  assert (Einv : Complex.re (Complex.inv (Propagation.q p)) = z / (z * z + zR * zR)).
  { unfold Complex.inv, Complex.inv_d. cbn [Complex.re]. fold z zR.
    rewrite or_of_nonzero by nra. reflexivity. }
  rewrite Einv. split.
  - intros Ez. rewrite Ez. split; [ | split; [ ring | ] ].
    + replace (0 / (0 * 0 + zR * zR)) with 0 by (field; nra).
      rewrite Rabs_R0.
      destruct (Rlt_dec 0 1e-12); [ reflexivity | lra ].
    + intros Hl HM. pose proof PI_RGT_0 as Hpi.
      destruct (Propagation.q p) as [x y] eqn:Eq. simpl in z, zR. subst z zR.
      subst x. rewrite wFromQ_eq by assumption.
      f_equal.
      replace (y * Propagation.lambda p * Propagation.M2 p / PI)
        with (Propagation.M2 p * (Propagation.lambda p * (0 * 0 + y * y) / (y * PI)))
        by (field; lra).
      rewrite sqrt_mult; [ reflexivity | assumption | ].
      apply Rlt_le, Rdiv_lt_0_compat.
      * apply Rmult_lt_0_compat; [ assumption | ].
        replace (0 * 0 + y * y) with (y * y) by ring.
        apply Rmult_lt_0_compat; assumption.
      * apply Rmult_lt_0_compat; assumption.
  - intros Hbig. destruct (Rlt_dec _ _) as [Hs | _]; [ lra | ].
    f_equal. f_equal.
    assert (z <> 0).
    { intros E. rewrite E in Hbig.
      replace (0 / (0 * 0 + zR * zR)) with 0 in Hbig by (field; nra).
      rewrite Rabs_R0 in Hbig. lra. }
    field. repeat split; (assumption || nra).
Qed.

Lemma readout_of_gaussian_beam_witness :
  Propagation.R_mm (Propagation.beamInfo 0 (THREE.vec3 0 0 1) Bench.ray 1 None) = None.
Proof.
  refine (proj1 (proj1 (proj2 (proj2 (proj2
            (readout_of_gaussian_beam 0 (THREE.vec3 0 0 1) Bench.ray 0.5 1 None))) _) _)).
  - exact ray_rayleigh_pos.
  - reflexivity.
Defined.

(** ** What an interaction does to the queue and to the ray-path *)

Lemma grows_refl (Q : Propagation.Path -> Prop) (st : Propagation.State) :
  Shape.grows Q st st.
Proof. exists []. rewrite app_nil_r. split; [ reflexivity | constructor ]. Qed.

Lemma grows_trans (Q : Propagation.Path -> Prop) (a b c : Propagation.State) :
  Shape.grows Q a b -> Shape.grows Q b c -> Shape.grows Q a c.
Proof.
  intros (l1 & E1 & F1) (l2 & E2 & F2). exists (l1 ++ l2)%list.
  rewrite E2, E1, app_assoc. split; [ reflexivity | ].
  apply Forall_app; split; assumption.
Qed.

Lemma grows_queue (Q : Propagation.Path -> Prop) (a b c : Propagation.State) :
  Propagation.queue c = Propagation.queue b -> Shape.grows Q a b -> Shape.grows Q a c.
Proof. intros E (l & E1 & F1). exists l. rewrite E. split; assumption. Qed.

Lemma grows_pushIfVisible (Q : Propagation.Path -> Prop) (b : Propagation.Path)
    (st : Propagation.State) :
  Q b ->
  Shape.grows (fun p => Q p /\ Propagation.AMP_CUTOFF <= Propagation.relAmp p)
    st (Propagation.pushIfVisible b st).
Proof.
  intros Hb. unfold Propagation.pushIfVisible, JS.geb, JS.leb.
  destruct (Rle_dec Propagation.AMP_CUTOFF (Propagation.relAmp b)) as [Hc | Hc].
  - exists [b]. split; [ reflexivity | ]. constructor; [ split; assumption | constructor ].
  - apply grows_refl.
Qed.

(** What the four pushes and the nudge make of a clone [t] of [path]. *)
Lemma branch_of_clone (hit : Propagation.Hit) (path t : Propagation.Path) :
  Propagation.lastHit t = Some (Propagation.object hit) ->
  Propagation.pos t = THREE.clone (Propagation.pos path) ->
  Propagation.traveled t = Propagation.traveled path ->
  Propagation.maxLen t = Propagation.maxLen path ->
  Propagation.lambda t = Propagation.lambda path ->
  Propagation.M2 t = Propagation.M2 path ->
  Propagation.Jnorm t = Propagation.Jnorm path ->
  Propagation.pts t = Propagation.pts path ->
  Propagation.dirs t = Propagation.dirs path ->
  Propagation.widths t = Propagation.widths path ->
  Propagation.amps t = Propagation.amps path ->
  Propagation.polSamples t = Propagation.polSamples path ->
  Shape.branchOf path hit (Propagation.nudge (Propagation.pushSample t)).
Proof.
  intros H1 H2 H3 H4 H5 H6 H7 H8 H9 H10 H11 H12.
  destruct t; simpl in *. subst.
  unfold Shape.branchOf; simpl. rewrite !vclone_id, !length_app. simpl.
  repeat split; try reflexivity; lia.
Qed.

Lemma splitTransmitted_branch (hit : Propagation.Hit) (el : Elements.Element)
    (path : Propagation.Path) :
  Shape.branchOf path hit (Propagation.splitTransmitted hit el path).
Proof. apply branch_of_clone; reflexivity. Qed.

Lemma splitReflected_branch (hit : Propagation.Hit) (el : Elements.Element)
    (path : Propagation.Path) :
  Shape.branchOf path hit (Propagation.splitReflected hit el path).
Proof. apply branch_of_clone; reflexivity. Qed.

Lemma mirrorTransmitted_branch (hit : Propagation.Hit) (el : Elements.Element)
    (T : R) (path : Propagation.Path) :
  Shape.branchOf path hit (Propagation.mirrorTransmitted hit el T path).
Proof.
  unfold Propagation.mirrorTransmitted.
  destruct (negb (Elements.flat (Elements.props el)));
    [ destruct (Elements.abcdTransmit el) | ];
    apply branch_of_clone; reflexivity.
Qed.

Lemma mirrorReflected_branch (hit : Propagation.Hit) (el : Elements.Element)
    (refl : R) (path : Propagation.Path) :
  Shape.branchOf path hit (Propagation.mirrorReflected hit el refl path).
Proof.
  unfold Propagation.mirrorReflected.
  destruct (negb (Elements.flat (Elements.props el)));
    apply branch_of_clone; reflexivity.
Qed.

Lemma gratingBranch_branch (hit : Propagation.Hit) (el : Elements.Element)
    (gain : R) (path : Propagation.Path) (o : Propagation.Order) :
  Shape.branchOf path hit (Propagation.gratingBranch hit el gain path o).
Proof. apply branch_of_clone; reflexivity. Qed.

(** What recording the hit point makes of the ray-path [t] that
    continues [path]; [p'] is [t] after the four pushes, nudged or not. *)
Lemma continue_shape (path t p' : Propagation.Path) :
  p' = Propagation.pushSample t \/ p' = Propagation.nudge (Propagation.pushSample t) ->
  Propagation.pos t = Propagation.pos path ->
  Propagation.traveled t = Propagation.traveled path ->
  Propagation.maxLen t = Propagation.maxLen path ->
  Propagation.lambda t = Propagation.lambda path ->
  Propagation.M2 t = Propagation.M2 path ->
  Propagation.Jnorm t = Propagation.Jnorm path ->
  Propagation.pts t = Propagation.pts path ->
  Propagation.dirs t = Propagation.dirs path ->
  Propagation.widths t = Propagation.widths path ->
  Propagation.amps t = Propagation.amps path ->
  Shape.continues path p'.
Proof.
  intros Hp H2 H3 H4 H5 H6 H7 H8 H9 H10 H11.
  destruct t; simpl in *. subst. unfold Shape.continues.
  destruct Hp as [-> | ->]; simpl; rewrite !vclone_id, !length_app; simpl;
    repeat split; try reflexivity; lia.
Qed.

Lemma gratingLoop_grows (hit : Propagation.Hit) (el : Elements.Element)
    (gain : R) (path : Propagation.Path) (os : list Propagation.Order) :
  forall best st,
    Shape.grows (fun p => Shape.branchOf path hit p
                          /\ Propagation.AMP_CUTOFF <= Propagation.relAmp p)
      st (snd (Propagation.gratingLoop hit el gain path os best st)).
Proof.
  induction os as [ | o os IH ]; intros best st; cbn [Propagation.gratingLoop].
  - apply grows_refl.
  - destruct (Propagation.orderHidden el o); [ apply IH | ].
    cbv zeta. eapply grows_trans; [ | apply IH ].
    apply grows_pushIfVisible, gratingBranch_branch.
Qed.

(** The queue after an interaction: the old one, then the visible
    branches. *)
Lemma interact_grows (hit : Propagation.Hit) (path : Propagation.Path)
    (st : Propagation.State) :
  Shape.grows (fun p => Shape.branchOf path hit p
                        /\ Propagation.AMP_CUTOFF <= Propagation.relAmp p)
    st (snd (fst (Propagation.interact hit path st))).
Proof.
  unfold Propagation.interact. cbv zeta.
  set (aoi := JS.radToDeg _). set (inc := THREE.clone _).
  set (el := Propagation.element hit).
  destruct (String.eqb (Elements.type el) "beamBlock"); [ apply grows_refl | ].
  destruct (String.eqb (Elements.type el) "beamSplitter").
  { unfold Propagation.hitBeamSplitter. cbv zeta. cbn [fst snd].
    eapply grows_trans; [ | apply grows_pushIfVisible, splitReflected_branch ].
    eapply grows_trans; [ | apply grows_pushIfVisible, splitTransmitted_branch ].
    eapply grows_queue; [ | apply grows_refl ]. reflexivity. }
  destruct (String.eqb (Elements.type el) "mirror").
  { unfold Propagation.hitMirror.
    destruct (Propagation.mirrorCoefficients el path) as [refl T].
    cbv zeta. cbn [fst snd].
    match goal with
    | |- Shape.grows _ _ (match ?b with Some _ => _ | None => ?s end) =>
        apply (grows_queue _ _ s);
          [ destruct b; reflexivity | ]
    end.
    destruct (Rlt_dec 0 T); destruct (Rlt_dec 0 refl).
    - eapply grows_trans; [ | apply grows_pushIfVisible, mirrorReflected_branch ].
      apply grows_pushIfVisible, mirrorTransmitted_branch.
    - apply grows_pushIfVisible, mirrorTransmitted_branch.
    - apply grows_pushIfVisible, mirrorReflected_branch.
    - apply grows_refl. }
  destruct (String.eqb (Elements.type el) "grating").
  { unfold Propagation.hitGrating.
    destruct (Propagation.computeGratingOrders el (Propagation.dir path)
                (Propagation.lambda path)) as [orders ginfo].
    destruct orders as [ | o os ].
    { cbn [fst snd]. eapply grows_queue; [ | apply grows_refl ]. reflexivity. }
    cbv zeta.
    pose proof (gratingLoop_grows hit el
                  (1 / sqrt (INR (List.length (o :: os)))) path (o :: os) None
                  (Propagation.setGratingInfo (Elements.id el) ginfo st)) as G.
    destruct (Propagation.gratingLoop _ _ _ _ _ _ _) as [best st'].
    cbn [fst snd] in *.
    apply (grows_queue _ _ st'); [ destruct best as [[Ib b] | ]; reflexivity | ].
    eapply grows_trans; [ | exact G ].
    eapply grows_queue; [ | apply grows_refl ]. reflexivity. }
  destruct (String.eqb (Elements.type el) "multimeter").
  { eapply grows_queue; [ | apply grows_refl ]. reflexivity. }
  destruct (String.eqb (Elements.type el) "lens").
  { eapply grows_queue; [ | apply grows_refl ]. reflexivity. }
  eapply grows_queue; [ | apply grows_refl ]. reflexivity.
Qed.

(** An element that ends the ray-path leaves it as it arrived. *)
Lemma interact_break (hit : Propagation.Hit) (path : Propagation.Path)
    (st : Propagation.State) :
  snd (Propagation.interact hit path st) = Propagation.Break ->
  fst (fst (Propagation.interact hit path st)) = path.
Proof.
  unfold Propagation.interact. cbv zeta.
  set (aoi := JS.radToDeg _). set (inc := THREE.clone _).
  set (el := Propagation.element hit).
  destruct (String.eqb (Elements.type el) "beamBlock"); [ reflexivity | ].
  destruct (String.eqb (Elements.type el) "beamSplitter"); [ reflexivity | ].
  destruct (String.eqb (Elements.type el) "mirror").
  { unfold Propagation.hitMirror.
    destruct (Propagation.mirrorCoefficients el path) as [refl T]. reflexivity. }
  destruct (String.eqb (Elements.type el) "grating").
  { unfold Propagation.hitGrating.
    destruct (Propagation.computeGratingOrders el (Propagation.dir path)
                (Propagation.lambda path)) as [orders ginfo].
    destruct orders as [ | o os ]; [ reflexivity | ].
    cbv zeta. destruct (Propagation.gratingLoop _ _ _ _ _ _ _) as [best st'].
    reflexivity. }
  destruct (String.eqb (Elements.type el) "multimeter"); [ discriminate | ].
  destruct (String.eqb (Elements.type el) "lens"); discriminate.
Qed.

(** An element that lets the ray-path go on queues nothing and records
    the hit point as one more sample of the same ray-path. *)
Lemma interact_continue (hit : Propagation.Hit) (path : Propagation.Path)
    (st : Propagation.State) :
  snd (Propagation.interact hit path st) = Propagation.Continue ->
  Propagation.queue (snd (fst (Propagation.interact hit path st)))
  = Propagation.queue st
  /\ Shape.continues path (fst (fst (Propagation.interact hit path st))).
Proof.
  unfold Propagation.interact. cbv zeta.
  set (aoi := JS.radToDeg _). set (inc := THREE.clone _).
  set (el := Propagation.element hit).
  destruct (String.eqb (Elements.type el) "beamBlock"); [ discriminate | ].
  destruct (String.eqb (Elements.type el) "beamSplitter"); [ discriminate | ].
  destruct (String.eqb (Elements.type el) "mirror").
  { unfold Propagation.hitMirror.
    destruct (Propagation.mirrorCoefficients el path) as [refl T]. discriminate. }
  destruct (String.eqb (Elements.type el) "grating").
  { unfold Propagation.hitGrating.
    destruct (Propagation.computeGratingOrders el (Propagation.dir path)
                (Propagation.lambda path)) as [orders ginfo].
    destruct orders as [ | o os ]; [ discriminate | ].
    cbv zeta. destruct (Propagation.gratingLoop _ _ _ _ _ _ _) as [best st'].
    discriminate. }
  intros _.
  destruct (String.eqb (Elements.type el) "multimeter").
  { split; [ reflexivity | ].
    eapply continue_shape; [ right; reflexivity | reflexivity .. ]. }
  destruct (String.eqb (Elements.type el) "lens").
  { split; [ reflexivity | ].
    eapply continue_shape; [ right; reflexivity | reflexivity .. ]. }
  split; [ reflexivity | ].
  eapply continue_shape; [ left; reflexivity | reflexivity .. ].
Qed.

(** X19. An interaction never removes or reorders what is queued.  It
    appends branches only: each is a clone of the ray-path with the hit
    point recorded as one more sample, the struck mesh excluded from its
    next raycast, a start 1e-6 past the hit point along its own direction
    and a relative amplitude of at least [AMP_CUTOFF].  An element that
    ends the ray-path leaves it as it arrived; an element that passes it
    on queues nothing and records the hit point on the ray-path itself. *)
Theorem interaction_spawns_branches (hit : Propagation.Hit)
    (path : Propagation.Path) (st : Propagation.State) :
  let r := Propagation.interact hit path st in
  (exists added,
      Propagation.queue (snd (fst r)) = (Propagation.queue st ++ added)%list
      /\ Forall (fun b => Shape.branchOf path hit b
                          /\ Propagation.AMP_CUTOFF <= Propagation.relAmp b) added
      /\ (snd r = Propagation.Continue -> added = []))
  /\ Propagation.completedPaths (snd (fst r)) = Propagation.completedPaths st
  /\ (snd r = Propagation.Break -> fst (fst r) = path)
  /\ (snd r = Propagation.Continue ->
      Propagation.pts (fst (fst r))
      = (Propagation.pts path ++ [Propagation.pos path])%list
      /\ Propagation.traveled (fst (fst r)) = Propagation.traveled path).
Proof.
  cbv zeta. split; [ | split; [ apply interact_completed | split ] ].
  - destruct (interact_grows hit path st) as (added & E & F).
    exists added. split; [ exact E | split; [ exact F | ] ].
    intros Hc. destruct (interact_continue hit path st Hc) as (Q & _).
    rewrite Q in E.
    apply (f_equal (@List.length _)) in E. rewrite length_app in E.
    destruct added; [ reflexivity | simpl in E; lia ].
  - apply interact_break.
  - intros Hc. destruct (interact_continue hit path st Hc) as (_ & P & _ & _ & _ & T & _).
    split; assumption.
Qed.

(** ** Invariants of the traversal *)

Section PathInvariant.

Variable intersectObjects :
  THREE.Vector3 -> THREE.Vector3 -> R -> R -> list THREE.Object3D
  -> list Propagation.Hit.
Variable params : Propagation.Params.
Variable elements : list Elements.Element.

(** A property of ray-paths that sampling a segment, recording a hit
    point and branching keep. *)
Variable P : Propagation.Path -> Prop.

Hypothesis P_sampleSegment :
  forall path L, P path -> P (Propagation.sampleSegment params path L).
Hypothesis P_set_traveled :
  forall path d, P path -> P (Propagation.set_traveled d path).
Hypothesis P_set_pos :
  forall path v, P path -> P (Propagation.set_pos v path).
Hypothesis P_set_q :
  forall path v, P path -> P (Propagation.set_q v path).
Hypothesis P_branch :
  forall hit path b, P path -> Shape.branchOf path hit b -> P b.
Hypothesis P_continues :
  forall path p', P path -> Shape.continues path p' -> P p'.

Lemma step_invariant (path : Propagation.Path) (st : Propagation.State) :
  P path -> Forall P (Propagation.queue st) ->
  P (fst (fst (Propagation.step intersectObjects params elements path st)))
  /\ Forall P (Propagation.queue
                 (snd (fst (Propagation.step intersectObjects params elements
                              path st)))).
Proof.
  intros Hp Hq. unfold Propagation.step. cbv zeta.
  destruct (filter _ _) as [ | hit hits ].
  - cbn [fst snd]. split; [ | assumption ].
    apply P_set_traveled, P_sampleSegment, Hp.
  - assert (Hp' : P (Propagation.propagateTo params hit path)).
    { unfold Propagation.propagateTo. cbv zeta.
      apply P_set_q, P_set_pos, P_set_traveled, P_sampleSegment, Hp. }
    split.
    + destruct (snd (Propagation.interact hit
                       (Propagation.propagateTo params hit path) st)) eqn:F.
      * rewrite (interact_break _ _ _ F). exact Hp'.
      * apply (P_continues (Propagation.propagateTo params hit path));
          [ exact Hp' | apply (interact_continue _ _ _ F) ].
    + destruct (interact_grows hit (Propagation.propagateTo params hit path) st)
        as (added & E & F).
      rewrite E. apply Forall_app. split; [ assumption | ].
      eapply Forall_impl; [ | exact F ].
      intros b [Hb _]. exact (P_branch hit _ b Hp' Hb).
Qed.

Lemma march_invariant (n : nat) :
  forall path st,
    P path -> Forall P (Propagation.queue st) ->
    P (fst (fst (Propagation.march intersectObjects params elements n path st)))
    /\ Forall P (Propagation.queue
                   (snd (fst (Propagation.march intersectObjects params elements
                                n path st)))).
Proof.
  induction n as [ | n IH ]; intros path st Hp Hq; cbn [Propagation.march].
  - split; assumption.
  - destruct (Rlt_dec _ _); [ | split; assumption ].
    pose proof (step_invariant path st Hp Hq) as Hs.
    destruct (Propagation.step _ _ _ path st) as [[path' st'] flow].
    cbn [fst snd] in Hs. destruct Hs as [Hp' Hq'].
    destruct flow; [ split; assumption | ].
    specialize (IH path' st' Hp' Hq').
    destruct (Propagation.march _ _ _ n path' st') as [[p s0] k].
    exact IH.
Qed.

Lemma workIteration_invariant (st : Propagation.State) :
  Forall P (Propagation.queue st) ->
  Forall P (Propagation.completedPaths st) ->
  Forall P (Propagation.queue
              (Propagation.workIteration intersectObjects params elements st))
  /\ Forall P (Propagation.completedPaths
                 (Propagation.workIteration intersectObjects params elements st)).
Proof.
  intros Hq Hc. unfold Propagation.workIteration.
  destruct (Propagation.queue st) as [ | path rest ] eqn:Q.
  - rewrite Q. split; assumption.
  - cbv zeta. inversion Hq as [ | ? ? Hpath Hrest ]; subst.
    set (st1 := Propagation.mkState rest _ _ _ _ _).
    pose proof (march_invariant (Propagation.maxSegments params) path st1
                  Hpath Hrest) as Hm.
    pose proof (march_completed intersectObjects params elements
                  (Propagation.maxSegments params) path st1) as Hk.
    destruct (Propagation.march _ _ _ _ path st1) as [[path' st'] k].
    cbn [fst snd] in *. destruct Hm as [Hp' Hq'].
    split; [ exact Hq' | ].
    cbn [Propagation.completedPaths]. rewrite Hk.
    apply Forall_app. split; [ exact Hc | ]. constructor; [ exact Hp' | constructor ].
Qed.

Lemma workLoop_invariant (fuel : nat) :
  forall st st',
    Propagation.workLoop intersectObjects params elements fuel st = Some st' ->
    Forall P (Propagation.queue st) ->
    Forall P (Propagation.completedPaths st) ->
    Forall P (Propagation.queue st') /\ Forall P (Propagation.completedPaths st').
Proof.
  induction fuel as [ | fuel IH ]; intros st st' E Hq Hc.
  - cbn [Propagation.workLoop] in E.
    destruct (Propagation.loopGuard st); [ discriminate | ].
    injection E as <-. split; assumption.
  - rewrite workLoop_unfold in E.
    destruct (Propagation.loopGuard st).
    + destruct (workIteration_invariant st Hq Hc) as [Hq' Hc'].
      exact (IH _ _ E Hq' Hc').
    + injection E as <-. split; assumption.
Qed.

End PathInvariant.

(** [recompute] always returns: the cap on the number of beams bounds
    the iterations of its work loop. *)
Lemma recompute_returns
    (intersectObjects : THREE.Vector3 -> THREE.Vector3 -> R -> R
                        -> list THREE.Object3D -> list Propagation.Hit)
    (clampToPlaneXZ : Sources.Group -> Sources.Group)
    (params : Propagation.Params) (elements : list Elements.Element)
    (sources : list Sources.Source)
    (m0 : list (nat * Propagation.Info))
    (g0 : list (nat * Propagation.GratingInfo)) :
  exists st,
    Propagation.workLoop intersectObjects params elements Propagation.MAX_BEAMS
      (Propagation.mkState (Shape.allSeeds clampToPlaneXZ sources) [] [] m0 g0 false)
    = Some st
    /\ Propagation.recompute intersectObjects clampToPlaneXZ params elements
         sources m0 g0
       = Some (Propagation.mkResult st
                 (Propagation.drawRibbons params (Propagation.completedPaths st))).
Proof.
  destruct (workLoop_terminates intersectObjects params elements
              Propagation.MAX_BEAMS
              (Propagation.mkState (Shape.allSeeds clampToPlaneXZ sources)
                 [] [] m0 g0 false)) as (st & E & _).
  { cbn [Propagation.completedPaths List.length]. lia. }
  exists st. split; [ exact E | ].
  unfold Propagation.recompute. cbv zeta.
  change (flat_map _ _) with (Shape.allSeeds clampToPlaneXZ sources).
  rewrite E. reflexivity.
Qed.

Lemma makeSeed_aligned (s : Sources.Source) (d : THREE.Vector3) (L lam w : R) :
  Shape.aligned (Propagation.makeSeed s d L lam w).
Proof. unfold Shape.aligned; cbn. repeat split; lia. Qed.

Lemma seedsOf_Forall (Q : Propagation.Path -> Prop) (s : Sources.Source) :
  (forall d L lam w, 0 < L -> Q (Propagation.makeSeed s d L lam w)) ->
  Forall Q (Propagation.seedsOf s).
Proof.
  intros H. unfold Propagation.seedsOf. cbv zeta.
  apply Forall_flat_map, Forall_forall. intros smp _.
  apply Forall_app. split.
  - destruct (Rlt_dec 0 _); [ | constructor ].
    constructor; [ apply H; assumption | constructor ].
  - destruct (Rlt_dec 0 _); [ | constructor ].
    constructor; [ apply H; assumption | constructor ].
Qed.

Lemma allSeeds_Forall (Q : Propagation.Path -> Prop)
    (clampToPlaneXZ : Sources.Group -> Sources.Group)
    (sources : list Sources.Source) :
  (forall s d L lam w, 0 < L -> Q (Propagation.makeSeed s d L lam w)) ->
  Forall Q (Shape.allSeeds clampToPlaneXZ sources).
Proof.
  intros H. unfold Shape.allSeeds.
  apply Forall_flat_map, Forall_forall. intros s _.
  apply seedsOf_Forall. intros; apply H; assumption.
Qed.

Lemma aligned_sampleSegment (params : Propagation.Params)
    (path : Propagation.Path) (L : R) :
  Shape.aligned path -> Shape.aligned (Propagation.sampleSegment params path L).
Proof.
  unfold Shape.aligned, Propagation.sampleSegment. cbv zeta.
  cbn [Propagation.pts Propagation.dirs Propagation.widths Propagation.amps].
  rewrite !length_app, !length_map. intros (A & B & C & D).
  repeat split; lia.
Qed.

Lemma aligned_branch (hit : Propagation.Hit) (path b : Propagation.Path) :
  Shape.aligned path -> Shape.branchOf path hit b -> Shape.aligned b.
Proof.
  unfold Shape.aligned, Shape.branchOf.
  intros (A & B & C & D) (_ & _ & _ & _ & _ & _ & E1 & E2 & E3 & E4 & _).
  rewrite E1, E2, E3, E4, !length_app. cbn [List.length]. repeat split; lia.
Qed.

Lemma aligned_continues (path p' : Propagation.Path) :
  Shape.aligned path -> Shape.continues path p' -> Shape.aligned p'.
Proof.
  unfold Shape.aligned, Shape.continues.
  intros (A & B & C & D) (E1 & E2 & E3 & E4 & _).
  rewrite E1, E2, E3, E4, !length_app. cbn [List.length]. repeat split; lia.
Qed.

(** X20. Whatever the scene and the raycaster, [recompute] returns, and
    every ray-path it leaves, completed or still queued when the cap on
    the number of beams stops the work loop, has its four sample arrays
    (points, directions, widths, amplitudes) of one and the same length,
    at least one: the ribbon builder never reads a missing entry. *)
Theorem sample_arrays_stay_parallel
    (intersectObjects : THREE.Vector3 -> THREE.Vector3 -> R -> R
                        -> list THREE.Object3D -> list Propagation.Hit)
    (clampToPlaneXZ : Sources.Group -> Sources.Group)
    (params : Propagation.Params) (elements : list Elements.Element)
    (sources : list Sources.Source)
    (m0 : list (nat * Propagation.Info))
    (g0 : list (nat * Propagation.GratingInfo)) :
  exists res,
    Propagation.recompute intersectObjects clampToPlaneXZ params elements
      sources m0 g0 = Some res
    /\ Forall Shape.aligned (Propagation.completedPaths (Propagation.final res))
    /\ Forall Shape.aligned (Propagation.queue (Propagation.final res)).
Proof.
  destruct (recompute_returns intersectObjects clampToPlaneXZ params elements
              sources m0 g0) as (st & E & Hr).
  exists (Propagation.mkResult st
            (Propagation.drawRibbons params (Propagation.completedPaths st))).
  split; [ exact Hr | ]. cbn [Propagation.final].
  apply and_comm.
  apply (workLoop_invariant intersectObjects params elements Shape.aligned)
    with (fuel := Propagation.MAX_BEAMS)
         (st := Propagation.mkState (Shape.allSeeds clampToPlaneXZ sources)
                  [] [] m0 g0 false).
  - intros path L. apply aligned_sampleSegment.
  - intros path d H. exact H.
  - intros path v H. exact H.
  - intros path v H. exact H.
  - intros hit path b. apply aligned_branch.
  - apply aligned_continues.
  - exact E.
  - apply allSeeds_Forall. intros. apply makeSeed_aligned.
  - constructor.
Qed.

Lemma fromSeed_same (seeds : list Propagation.Path) (p p' : Propagation.Path) :
  Propagation.lambda p' = Propagation.lambda p ->
  Propagation.M2 p' = Propagation.M2 p ->
  Propagation.Jnorm p' = Propagation.Jnorm p ->
  Propagation.maxLen p' = Propagation.maxLen p ->
  Shape.fromSeed seeds p -> Shape.fromSeed seeds p'.
Proof.
  intros A B C D (s & Hs & E1 & E2 & E3 & E4). exists s.
  repeat split; [ assumption | congruence .. ].
Qed.

(** X21. No element changes the wavelength, the beam-quality factor, the
    normalisation of the amplitude or the length budget of a ray-path:
    every ray-path [recompute] leaves carries those of one of the seeds. *)
Theorem paths_keep_seed_constants
    (intersectObjects : THREE.Vector3 -> THREE.Vector3 -> R -> R
                        -> list THREE.Object3D -> list Propagation.Hit)
    (clampToPlaneXZ : Sources.Group -> Sources.Group)
    (params : Propagation.Params) (elements : list Elements.Element)
    (sources : list Sources.Source)
    (m0 : list (nat * Propagation.Info))
    (g0 : list (nat * Propagation.GratingInfo)) :
  exists res,
    Propagation.recompute intersectObjects clampToPlaneXZ params elements
      sources m0 g0 = Some res
    /\ Forall (fun p =>
                 exists s,
                   In s (Shape.allSeeds clampToPlaneXZ sources)
                   /\ Propagation.lambda p = Propagation.lambda s
                   /\ Propagation.M2 p = Propagation.M2 s
                   /\ Propagation.Jnorm p = Propagation.Jnorm s
                   /\ Propagation.maxLen p = Propagation.maxLen s)
         (Propagation.completedPaths (Propagation.final res)
          ++ Propagation.queue (Propagation.final res)).
Proof.
  destruct (recompute_returns intersectObjects clampToPlaneXZ params elements
              sources m0 g0) as (st & E & Hr).
  exists (Propagation.mkResult st
            (Propagation.drawRibbons params (Propagation.completedPaths st))).
  split; [ exact Hr | ]. cbn [Propagation.final].
  apply Forall_app. apply and_comm.
  apply (workLoop_invariant intersectObjects params elements
           (Shape.fromSeed (Shape.allSeeds clampToPlaneXZ sources)))
    with (fuel := Propagation.MAX_BEAMS)
         (st := Propagation.mkState (Shape.allSeeds clampToPlaneXZ sources)
                  [] [] m0 g0 false).
  - intros path L. apply fromSeed_same; reflexivity.
  - intros path d. apply fromSeed_same; reflexivity.
  - intros path v. apply fromSeed_same; reflexivity.
  - intros path v. apply fromSeed_same; reflexivity.
  - intros hit path b Hp (_ & _ & A & B & C & D & _).
    revert Hp. apply fromSeed_same; assumption.
  - intros path p' Hp (_ & _ & _ & _ & _ & A & B & C & D).
    revert Hp. apply fromSeed_same; assumption.
  - exact E.
  - apply Forall_forall. intros p Hp. exists p. repeat split; assumption.
  - constructor.
Qed.

(** ** The detector readings across calls *)





Section MeterFacts.

Variable intersectObjects :
  THREE.Vector3 -> THREE.Vector3 -> R -> R -> list THREE.Object3D
  -> list Propagation.Hit.
Variable params : Propagation.Params.
Variable elements : list Elements.Element.
Variable k : nat.









End MeterFacts.



(** ** The cap on the number of beams and the empty bench *)

Lemma workLoop_guard_false
    (intersectObjects : THREE.Vector3 -> THREE.Vector3 -> R -> R
                        -> list THREE.Object3D -> list Propagation.Hit)
    (params : Propagation.Params) (elements : list Elements.Element)
    (fuel : nat) (st : Propagation.State) :
  Propagation.loopGuard st = false ->
  Propagation.workLoop intersectObjects params elements fuel st = Some st.
Proof. intros H. destruct fuel; cbn [Propagation.workLoop]; rewrite H; reflexivity. Qed.

Lemma recompute_unfold
    (intersectObjects : THREE.Vector3 -> THREE.Vector3 -> R -> R
                        -> list THREE.Object3D -> list Propagation.Hit)
    (clampToPlaneXZ : Sources.Group -> Sources.Group)
    (params : Propagation.Params) (elements : list Elements.Element)
    (sources : list Sources.Source)
    (m0 : list (nat * Propagation.Info))
    (g0 : list (nat * Propagation.GratingInfo)) :
  Propagation.recompute intersectObjects clampToPlaneXZ params elements
    sources m0 g0
  = match Propagation.workLoop intersectObjects params elements
            Propagation.MAX_BEAMS
            (Propagation.mkState (Shape.allSeeds clampToPlaneXZ sources)
               [] [] m0 g0 false) with
    | Some st => Some (Propagation.mkResult st
                         (Propagation.drawRibbons params
                            (Propagation.completedPaths st)))
    | None => None
    end.
Proof. reflexivity. Qed.

(** X23. The cap counts the seeds too: when the sources alone seed
    [MAX_BEAMS] ray-paths or more, the work loop does not run once.
    Nothing is traced, nothing is drawn, and the readouts of the elements
    are left cleared. *)
Theorem too_many_seeds_trace_nothing
    (intersectObjects : THREE.Vector3 -> THREE.Vector3 -> R -> R
                        -> list THREE.Object3D -> list Propagation.Hit)
    (clampToPlaneXZ : Sources.Group -> Sources.Group)
    (params : Propagation.Params) (elements : list Elements.Element)
    (sources : list Sources.Source)
    (m0 : list (nat * Propagation.Info))
    (g0 : list (nat * Propagation.GratingInfo)) :
  (Propagation.MAX_BEAMS <= List.length (Shape.allSeeds clampToPlaneXZ sources))%nat ->
  Propagation.recompute intersectObjects clampToPlaneXZ params elements
    sources m0 g0
  = Some (Propagation.mkResult
            (Propagation.mkState (Shape.allSeeds clampToPlaneXZ sources)
               [] [] m0 g0 false)
            []).
Proof.
  intros H. rewrite recompute_unfold, workLoop_guard_false; [ reflexivity | ].
  unfold Propagation.loopGuard.
  cbn [Propagation.queue Propagation.completedPaths List.length Nat.add].
  apply andb_false_iff. right. apply Nat.ltb_ge. exact H.
Qed.

Lemma flat_map_repeat_length {A B : Type} (f : A -> list B) (x : A) (n : nat) :
  List.length (flat_map f (repeat x n)) = (n * List.length (f x))%nat.
Proof.
  induction n as [ | n IH ]; [ reflexivity | ].
  cbn [repeat flat_map]. rewrite length_app, IH. reflexivity.
Qed.

Lemma allSeeds_default_sources (n : nat) :
  List.length (Shape.allSeeds (fun g => g) (repeat Propagation.implicitSource (S n)))
  = S n.
Proof.
  unfold Shape.allSeeds.
  change (match repeat Propagation.implicitSource (S n) with
          | [] => [Propagation.implicitSource]
          | _ => repeat Propagation.implicitSource (S n)
          end) with (repeat Propagation.implicitSource (S n)).
  rewrite flat_map_repeat_length, implicit_seeds. cbn [List.length]. lia.
Qed.

Lemma too_many_seeds_trace_nothing_witness :
  Propagation.recompute (Bench.alwaysHits Bench.block 0.5) (fun g => g)
    Bench.params [Bench.block] (repeat Propagation.implicitSource 600) [] []
  = Some (Propagation.mkResult
            (Propagation.mkState
               (Shape.allSeeds (fun g => g) (repeat Propagation.implicitSource 600))
               [] [] [] [] false)
            []).
Proof.
  apply too_many_seeds_trace_nothing.
  rewrite (allSeeds_default_sources 599). unfold Propagation.MAX_BEAMS. lia.
Defined.

Section EmptyBench.

Variable intersectObjects :
  THREE.Vector3 -> THREE.Vector3 -> R -> R -> list THREE.Object3D
  -> list Propagation.Hit.
Variable params : Propagation.Params.
Variable elements : list Elements.Element.

Hypothesis no_hit : forall o d n f ms, intersectObjects o d n f ms = [].
Hypothesis some_steps : (1 <= Propagation.maxSegments params)%nat.

Lemma march_no_hit (path : Propagation.Path) (st : Propagation.State) :
  Propagation.traveled path < Propagation.maxLen path ->
  Propagation.march intersectObjects params elements
    (Propagation.maxSegments params) path st
  = (Shape.flyOut params path, st, 1%nat).
Proof.
  intros Ht. destruct (Propagation.maxSegments params) as [ | n ]; [ lia | ].
  cbn [Propagation.march].
  destruct (Rlt_dec _ _); [ | contradiction ].
  unfold Propagation.step. rewrite no_hit. reflexivity.
Qed.

Lemma workLoop_no_hit (queue : list Propagation.Path) :
  forall fuel completed e mt g u,
    Forall (fun p => Propagation.traveled p < Propagation.maxLen p) queue ->
    (List.length queue <= fuel)%nat ->
    (List.length completed + List.length queue < Propagation.MAX_BEAMS)%nat ->
    Propagation.workLoop intersectObjects params elements fuel
      (Propagation.mkState queue completed e mt g u)
    = Some (Propagation.mkState []
              (completed ++ map (Shape.flyOut params) queue) e mt g u).
Proof.
  induction queue as [ | path rest IH ]; intros fuel completed e mt g u Hq Hf Hc.
  - rewrite workLoop_guard_false by reflexivity.
    cbn [map]. rewrite app_nil_r. reflexivity.
  - destruct fuel as [ | fuel ]; [ simpl in Hf; lia | ].
    rewrite workLoop_unfold.
    assert (G : Propagation.loopGuard
                  (Propagation.mkState (path :: rest) completed e mt g u) = true).
    { unfold Propagation.loopGuard.
      cbn [Propagation.queue Propagation.completedPaths].
      apply andb_true_iff. split; [ reflexivity | apply Nat.ltb_lt; exact Hc ]. }
    rewrite G. inversion Hq as [ | ? ? Hp Hrest ]; subst.
    unfold Propagation.workIteration at 1.
    cbn [Propagation.queue Propagation.completedPaths Propagation.elementLastInfo
         Propagation.meterLastInfo Propagation.gratingLastInfo
         Propagation.meterUpdated].
    rewrite (march_no_hit path _ Hp).
    cbn [Propagation.queue Propagation.completedPaths Propagation.elementLastInfo
         Propagation.meterLastInfo Propagation.gratingLastInfo
         Propagation.meterUpdated].
    rewrite IH.
    + cbn [map]. rewrite <- app_assoc. reflexivity.
    + exact Hrest.
    + simpl in Hf. lia.
    + rewrite length_app. simpl in *. lia.
Qed.

End EmptyBench.

Lemma makeSeed_budget (s : Sources.Source) (d : THREE.Vector3) (L lam w : R) :
  0 < L ->
  Propagation.traveled (Propagation.makeSeed s d L lam w)
  < Propagation.maxLen (Propagation.makeSeed s d L lam w).
Proof. intros H. exact H. Qed.

(** X24. On a bench where the raycaster reports nothing, and below the
    cap on the number of beams, [recompute] completes the seeds in their
    order, one ray-path per seed: each has flown out the whole length its
    source gives it and has been sampled along the way.  No readout is
    written and the queue ends empty. *)
Theorem empty_bench_flies_every_seed
    (intersectObjects : THREE.Vector3 -> THREE.Vector3 -> R -> R
                        -> list THREE.Object3D -> list Propagation.Hit)
    (clampToPlaneXZ : Sources.Group -> Sources.Group)
    (params : Propagation.Params) (elements : list Elements.Element)
    (sources : list Sources.Source)
    (m0 : list (nat * Propagation.Info))
    (g0 : list (nat * Propagation.GratingInfo)) :
  (forall o d n f ms, intersectObjects o d n f ms = []) ->
  (1 <= Propagation.maxSegments params)%nat ->
  (List.length (Shape.allSeeds clampToPlaneXZ sources) < Propagation.MAX_BEAMS)%nat ->
  let seeds := Shape.allSeeds clampToPlaneXZ sources in
  let completed := map (Shape.flyOut params) seeds in
  Propagation.recompute intersectObjects clampToPlaneXZ params elements
    sources m0 g0
  = Some (Propagation.mkResult
            (Propagation.mkState [] completed [] m0 g0 false)
            (Propagation.drawRibbons params completed))
  /\ Forall (fun p => Propagation.traveled p = Propagation.maxLen p
                      /\ (11 <= List.length (Propagation.pts p))%nat)
       completed.
Proof.
  intros Hno Hsteps Hcap seeds completed.
  assert (Hseeds : Forall (fun p => Propagation.traveled p < Propagation.maxLen p)
                     seeds).
  { apply allSeeds_Forall. intros. apply makeSeed_budget. assumption. }
  split.
  - rewrite recompute_unfold.
    rewrite (workLoop_no_hit intersectObjects params elements Hno Hsteps seeds).
    + reflexivity.
    + exact Hseeds.
    + fold seeds in Hcap. lia.
    + cbn [List.length Nat.add]. exact Hcap.
  - unfold completed. apply Forall_map.
    assert (Hal : Forall Shape.aligned seeds).
    { apply allSeeds_Forall. intros. apply makeSeed_aligned. }
    rewrite Forall_forall in *. intros p Hp.
    specialize (Hseeds p Hp). specialize (Hal p Hp).
    unfold Shape.flyOut. cbv zeta. split.
    + unfold Propagation.set_traveled, Propagation.sampleSegment.
      cbn [Propagation.traveled Propagation.maxLen]. lra.
    + unfold Propagation.set_traveled, Propagation.sampleSegment.
      cbn [Propagation.pts].
      rewrite length_app, length_map.
      destruct (dense_samples (Propagation.q p)
                  (Propagation.maxLen p - Propagation.traveled p)) as [Hd _];
        [ lra | ].
      destruct Hal as (_ & _ & _ & Hone). lia.
Qed.

Lemma empty_bench_flies_every_seed_witness :
  Propagation.recompute (fun _ _ _ _ _ => []) (fun g => g) Bench.params
    [] [] [] []
  = Some (Propagation.mkResult
            (Propagation.mkState []
               (map (Shape.flyOut Bench.params) (Shape.allSeeds (fun g => g) []))
               [] [] [] false)
            (Propagation.drawRibbons Bench.params
               (map (Shape.flyOut Bench.params) (Shape.allSeeds (fun g => g) []))))
  /\ Forall (fun p => Propagation.traveled p = Propagation.maxLen p
                      /\ (11 <= List.length (Propagation.pts p))%nat)
       (map (Shape.flyOut Bench.params) (Shape.allSeeds (fun g => g) [])).
Proof.
  apply (empty_bench_flies_every_seed (fun _ _ _ _ _ => []) (fun g => g)
           Bench.params [] [] [] []).
  - reflexivity.
  - unfold Bench.params; cbn [Propagation.maxSegments]. lia.
  - unfold Shape.allSeeds. cbn [flat_map]. rewrite implicit_seeds.
    unfold Propagation.MAX_BEAMS. cbn [List.length app]. lia.
Defined.

(** ** Polarization markers *)

Lemma jones_clone (J : Optics.Jones) :
  (Complex.clone (fst J), Complex.clone (snd J)) = J.
Proof. destruct J as [a b]; destruct a, b; reflexivity. Qed.

Lemma marker_eq (path : Propagation.Path) (d d' : R) :
  d = d' -> Shape.marker path d = Shape.marker path d'.
Proof. intros ->; reflexivity. Qed.

(** The loop in closed form: it pushes the markers at the distances
    [L + c], [L + c + POL_SPACING], ... and leaves the countdown raised by
    one spacing per marker. *)
Lemma polLoop_markers (L : R) (path : Propagation.Path) (fuel : nat) :
  forall c acc,
    c <= Propagation.POL_SPACING ->
    exists k,
      snd (Propagation.polLoop fuel L path c acc)
      = (acc ++ map (fun i => Shape.marker path
                                (L + c + INR i * Propagation.POL_SPACING))
                    (seq 0 k))%list
      /\ fst (Propagation.polLoop fuel L path c acc)
         = c + INR k * Propagation.POL_SPACING
      /\ fst (Propagation.polLoop fuel L path c acc) <= Propagation.POL_SPACING.
Proof.
  induction fuel as [ | fuel IH ]; intros c acc Hc.
  - exists 0%nat. cbn [Propagation.polLoop fst snd seq map].
    rewrite app_nil_r. repeat split; [ simpl; lra | assumption ].
  - cbn [Propagation.polLoop]. destruct (Rle_dec c 0) as [Hle | Hgt].
    + cbv zeta.
      destruct (IH (c + Propagation.POL_SPACING)
                  (acc ++ [Propagation.mkPolSample
                             (THREE.add (THREE.clone (Propagation.pos path))
                                (THREE.multiplyScalar
                                   (THREE.clone (Propagation.dir path)) (L + c)))
                             (THREE.clone (Propagation.dir path))
                             (Complex.clone (fst (Propagation.J path)),
                              Complex.clone (snd (Propagation.J path)))
                             (2 * PI / Propagation.lambda path
                              * (Propagation.traveled path + (L + c)))
                             (Propagation.lambda path)])%list)
        as (k & E1 & E2 & E3).
      { unfold Propagation.POL_SPACING in *. lra. }
      exists (S k). rewrite E1, E2. split; [ | split ].
      * rewrite <- app_assoc. f_equal.
        rewrite !vclone_id, jones_clone.
        cbn [seq map app]. f_equal.
        -- unfold Shape.marker. apply marker_eq. simpl. ring.
        -- rewrite <- seq_shift, map_map. apply map_ext. intros i.
           apply marker_eq. rewrite S_INR. ring.
      * rewrite S_INR. ring.
      * rewrite <- E2. exact E3.
    + exists 0%nat. cbn [fst snd seq map].
      rewrite app_nil_r. repeat split; [ simpl; lra | assumption ].
Qed.

(** X25. With the polarization overlay on, a segment of length [L] adds
    the markers at the distances [c], [c + POL_SPACING], ... from its
    start, [c] being the countdown the ray-path arrives with: all of them
    lie on the segment, after its start and not after its end.  The
    countdown it leaves is again between zero and one spacing, so that
    the markers are one spacing apart along the whole ray-path, however
    the elements cut it into segments. *)
Theorem polarization_markers_evenly_spaced (params : Propagation.Params)
    (path : Propagation.Path) (L : R) :
  Propagation.showPolarization params = true ->
  0 <= L ->
  0 < Propagation.polSampleCountdown path <= Propagation.POL_SPACING ->
  let c := Propagation.polSampleCountdown path in
  let path' := Propagation.sampleSegment params path L in
  exists k,
    Propagation.polSamples path'
    = (Propagation.polSamples path
       ++ map (fun i => Shape.marker path (c + INR i * Propagation.POL_SPACING))
              (seq 0 k))%list
    /\ (forall i, (i < k)%nat -> 0 < c + INR i * Propagation.POL_SPACING <= L)
    /\ Propagation.polSampleCountdown path' = c - L + INR k * Propagation.POL_SPACING
    /\ 0 < Propagation.polSampleCountdown path' <= Propagation.POL_SPACING.
Proof.
  intros Hshow HL Hc c path'.
  unfold path', Propagation.sampleSegment. cbv zeta. rewrite Hshow.
  cbn [Propagation.polSamples Propagation.polSampleCountdown].
  fold c.
  destruct (polLoop_markers L path (Propagation.polIterations (c - L)) (c - L)
              (Propagation.polSamples path)) as (k & E1 & E2 & E3).
  { fold c in Hc. lra. }
  pose proof (polLoop_exits L path (c - L) (Propagation.polSamples path)) as Hpos.
  exists k. rewrite E1. rewrite E2 in *. split; [ | split; [ | split ] ].
  - f_equal. apply map_ext. intros i. apply marker_eq. ring.
  - intros i Hi. fold c in Hc.
    assert (Hik : INR i + 1 <= INR k).
    { rewrite <- S_INR. apply le_INR. lia. }
    pose proof (pos_INR i) as Hi0.
    unfold Propagation.POL_SPACING in *. split; [ nra | nra ].
  - reflexivity.
  - split; assumption.
Qed.

Lemma polarization_markers_evenly_spaced_witness :
  exists k,
    Propagation.polSamples
      (Propagation.sampleSegment (Propagation.mkParams 60 120 true) Bench.ray 0.01)
    = (Propagation.polSamples Bench.ray
       ++ map (fun i => Shape.marker Bench.ray
                          (Propagation.polSampleCountdown Bench.ray
                           + INR i * Propagation.POL_SPACING))
              (seq 0 k))%list
    /\ 0 < Propagation.polSampleCountdown
             (Propagation.sampleSegment (Propagation.mkParams 60 120 true)
                Bench.ray 0.01)
       <= Propagation.POL_SPACING.
Proof.
  destruct (polarization_markers_evenly_spaced
              (Propagation.mkParams 60 120 true) Bench.ray 0.01)
    as (k & E & _ & _ & H).
  - reflexivity.
  - lra.
  - unfold Bench.ray, Propagation.makeSeed.
    cbn [Propagation.polSampleCountdown]. unfold Propagation.POL_SPACING. lra.
  - exists k. split; [ exact E | exact H ].
Defined.

(** ** The undo / redo history *)

Lemma nth_error_tl {A : Type} (l : list A) (n : nat) :
  nth_error (tl l) n = nth_error l (S n).
Proof. destruct l; [ destruct n; reflexivity | reflexivity ]. Qed.

Lemma length_tl_pred {A : Type} (l : list A) :
  List.length (tl l) = pred (List.length l).
Proof. destruct l; reflexivity. Qed.

(** What [pushHistory] keeps of the old entries: those up to the index. *)
Lemma pushHistory_kept (S : Type) (c : S) (h : History.t S) :
  History.wf S h ->
  exists kept,
    kept = firstn (Z.to_nat (History.historyIndex S h + 1)) (History.history S h)
    /\ List.length kept = Z.to_nat (History.historyIndex S h + 1)
    /\ History.pushHistory S false c h
       = (if (History.MAX_HISTORY <? List.length (kept ++ [c]))%nat
          then History.mk S (tl (kept ++ [c]))
                 (Z.of_nat (List.length (tl (kept ++ [c]))) - 1)
          else History.mk S (kept ++ [c])
                 (Z.of_nat (List.length (kept ++ [c])) - 1)).
Proof.
  intros [W _]. eexists. split; [ reflexivity | ]. split.
  - rewrite length_firstn. destruct W as [[E1 E2] | W]; [ rewrite E1, E2; reflexivity | lia ].
  - unfold History.pushHistory.
    destruct (History.historyIndex S h <? Z.of_nat (List.length (History.history S h)) - 1)%Z
      eqn:E.
    + destruct (_ <? _)%nat; reflexivity.
    + apply Z.ltb_ge in E.
      assert (F : firstn (Z.to_nat (History.historyIndex S h + 1)) (History.history S h)
                  = History.history S h).
      { apply firstn_all2. destruct W as [[E1 E2] | W]; [ rewrite E1; simpl; lia | lia ]. }
      rewrite F. destruct (_ <? _)%nat; reflexivity.
Qed.

(** X26. The history never holds more than [MAX_HISTORY] entries, and its
    index is [-1] on an empty history and points at an entry otherwise:
    this holds at the start and is kept by recording, undoing and
    redoing.  After a recording the index points at the last entry, which
    is the recorded state. *)
Theorem history_stays_well_formed (S : Type) :
  History.wf S (History.empty S)
  /\ forall (h : History.t S) (restoring : bool) (c : S),
       History.wf S h ->
       History.wf S (History.pushHistory S restoring c h)
       /\ History.wf S (fst (History.undo S h))
       /\ History.wf S (fst (History.redo S h))
       /\ History.current S (History.pushHistory S false c h) = Some c.
Proof.
  split.
  { split; [ left; split; reflexivity | simpl; lia ]. }
  intros h restoring c W. split; [ | split; [ | split ] ].
  - destruct restoring; [ exact W | ].
    destruct (pushHistory_kept S c h W) as (kept & _ & L & ->).
    destruct W as [W B]. unfold History.MAX_HISTORY in *.
    assert (Hk : (List.length kept <= 50)%nat).
    { rewrite L. destruct W as [[E1 E2] | W]; [ rewrite E2; simpl; lia | lia ]. }
    destruct (50 <? List.length (kept ++ [c]))%nat eqn:E;
      [ apply Nat.ltb_lt in E | apply Nat.ltb_ge in E ];
      unfold History.wf; cbn [History.history History.historyIndex];
      rewrite ?length_tl_pred in *; rewrite length_app in *; cbn [List.length] in *;
      (split; [ right; lia | unfold History.MAX_HISTORY; lia ]).
  - unfold History.undo. destruct (0 <? History.historyIndex S h)%Z eqn:E; [ | exact W ].
    apply Z.ltb_lt in E. destruct W as [W B]. cbn [fst].
    split; [ right | exact B ]. cbn [History.history History.historyIndex].
    destruct W as [[E1 E2] | W]; lia.
  - unfold History.redo.
    destruct (History.historyIndex S h <? _)%Z eqn:E; [ | exact W ].
    apply Z.ltb_lt in E. destruct W as [W B]. cbn [fst].
    split; [ right | exact B ]. cbn [History.history History.historyIndex].
    destruct W as [[E1 E2] | W]; [ rewrite E1, E2 in E; simpl in E; lia | lia ].
  - destruct (pushHistory_kept S c h W) as (kept & _ & L & ->).
    destruct W as [W B]. unfold History.MAX_HISTORY in *.
    assert (Hk : (List.length kept <= 50)%nat).
    { rewrite L. destruct W as [[E1 E2] | W]; [ rewrite E2; simpl; lia | lia ]. }
    destruct (50 <? List.length (kept ++ [c]))%nat eqn:E;
      [ apply Nat.ltb_lt in E | apply Nat.ltb_ge in E ];
      unfold History.current; cbn [History.history History.historyIndex];
      rewrite ?length_tl_pred in *; rewrite length_app in *; cbn [List.length] in *.
    + replace (Z.of_nat (pred (List.length kept + 1)) - 1 <? 0)%Z with false
        by (symmetry; apply Z.ltb_ge; lia).
      rewrite nth_error_tl.
      replace (Datatypes.S (Z.to_nat (Z.of_nat (pred (List.length kept + 1)) - 1)))
        with (List.length kept + 0)%nat by lia.
      rewrite nth_error_app2 by lia.
      replace (List.length kept + 0 - List.length kept)%nat with 0%nat by lia.
      reflexivity.
    + replace (Z.of_nat (List.length kept + 1) - 1 <? 0)%Z with false
        by (symmetry; apply Z.ltb_ge; lia).
      replace (Z.to_nat (Z.of_nat (List.length kept + 1) - 1))
        with (List.length kept + 0)%nat by lia.
      rewrite nth_error_app2 by lia.
      replace (List.length kept + 0 - List.length kept)%nat with 0%nat by lia.
      reflexivity.
Qed.

Lemma history_stays_well_formed_witness :
  History.wf nat (History.pushHistory nat false 7%nat (History.empty nat))
  /\ History.current nat (History.pushHistory nat false 7%nat (History.empty nat))
     = Some 7%nat.
Proof.
  destruct (history_stays_well_formed nat) as [W0 H].
  destruct (H (History.empty nat) false 7%nat W0) as (A & _ & _ & B).
  split; [ exact A | exact B ].
Defined.

(** X27. Undo and redo are inverse to each other on the index: after an
    undo that moved, redo brings back the history as it was and hands the
    state that was current to [restoreState], and the other way round.
    Whenever undo or redo move, the state they hand over exists. *)
Theorem undo_redo_inverse (S : Type) (h : History.t S) :
  History.wf S h ->
  ((0 < History.historyIndex S h)%Z ->
   History.redo S (fst (History.undo S h)) = (h, History.current S h)
   /\ snd (History.undo S h) = History.current S (fst (History.undo S h))
   /\ snd (History.undo S h) <> None)
  /\ ((History.historyIndex S h < Z.of_nat (List.length (History.history S h)) - 1)%Z ->
      History.undo S (fst (History.redo S h)) = (h, History.current S h)
      /\ snd (History.redo S h) = History.current S (fst (History.redo S h))
      /\ snd (History.redo S h) <> None).
Proof.
  intros [W B]. destruct h as [hist i].
  cbn [History.history History.historyIndex] in *.
  split; intros Hi.
  - assert (Hr : (0 <= i < Z.of_nat (List.length hist))%Z).
    { destruct W as [[E1 E2] | W]; lia. }
    unfold History.undo. cbn [History.history History.historyIndex].
    replace (0 <? i)%Z with true by (symmetry; apply Z.ltb_lt; lia).
    cbn [fst snd]. unfold History.redo, History.current.
    cbn [History.history History.historyIndex].
    replace (i - 1 <? Z.of_nat (List.length hist) - 1)%Z with true
      by (symmetry; apply Z.ltb_lt; lia).
    replace (i - 1 + 1)%Z with i by lia.
    replace (i <? 0)%Z with false by (symmetry; apply Z.ltb_ge; lia).
    replace (i - 1 <? 0)%Z with false by (symmetry; apply Z.ltb_ge; lia).
    repeat split.
    apply nth_error_Some. lia.
  - assert (Hr : (0 <= i < Z.of_nat (List.length hist))%Z).
    { destruct W as [[E1 E2] | W]; [ subst; simpl in Hi; lia | lia ]. }
    unfold History.redo. cbn [History.history History.historyIndex].
    replace (i <? Z.of_nat (List.length hist) - 1)%Z with true
      by (symmetry; apply Z.ltb_lt; lia).
    cbn [fst snd]. unfold History.undo, History.current.
    cbn [History.history History.historyIndex].
    replace (0 <? i + 1)%Z with true by (symmetry; apply Z.ltb_lt; lia).
    replace (i + 1 - 1)%Z with i by lia.
    replace (i <? 0)%Z with false by (symmetry; apply Z.ltb_ge; lia).
    replace (i + 1 <? 0)%Z with false by (symmetry; apply Z.ltb_ge; lia).
    repeat split.
    apply nth_error_Some. lia.
Qed.

Lemma undo_redo_inverse_witness :
  History.redo nat (fst (History.undo nat (History.mk nat [1; 2; 3]%nat 2)))
  = (History.mk nat [1; 2; 3]%nat 2, Some 3%nat).
Proof.
  assert (W : History.wf nat (History.mk nat [1; 2; 3]%nat 2)).
  { split; [ right; simpl; lia | unfold History.MAX_HISTORY; simpl; lia ]. }
  destruct (undo_redo_inverse nat (History.mk nat [1; 2; 3]%nat 2) W) as [H _].
  destruct H as [E _]; [ simpl; lia | ]. exact E.
Defined.

(** X28. Recording a state after some undos drops the entries that redo
    could still reach.  And an undo right after a recording hands back
    the state that was current before it, also when the recording pushed
    the oldest entry out of a full history. *)
Theorem undo_after_recording (S : Type) (h : History.t S) (c : S) :
  History.wf S h ->
  (0 <= History.historyIndex S h)%Z ->
  let h' := History.pushHistory S false c h in
  snd (History.undo S h') = History.current S h
  /\ History.redo S h' = (h', None)
  /\ exists dropped,
       (dropped <= 1)%nat
       /\ History.history S h'
          = (skipn dropped
               (firstn (Z.to_nat (History.historyIndex S h + 1)) (History.history S h))
             ++ [c])%list.
Proof.
  intros W Hi h'. unfold h'.
  destruct (pushHistory_kept S c h W) as (kept & K & L & ->).
  destruct W as [W B]. unfold History.MAX_HISTORY in *.
  assert (Hr : (0 <= History.historyIndex S h
                < Z.of_nat (List.length (History.history S h)))%Z).
  { destruct W as [[E1 E2] | W]; lia. }
  assert (Hcur : History.current S h
                 = nth_error kept (Z.to_nat (History.historyIndex S h))).
  { unfold History.current.
    replace (History.historyIndex S h <? 0)%Z with false
      by (symmetry; apply Z.ltb_ge; lia).
    rewrite K, nth_error_firstn.
    replace (Z.to_nat (History.historyIndex S h)
             <? Z.to_nat (History.historyIndex S h + 1))%nat with true
      by (symmetry; apply Nat.ltb_lt; lia).
    reflexivity. }
  rewrite <- K.
  destruct (50 <? List.length (kept ++ [c]))%nat eqn:E;
    [ apply Nat.ltb_lt in E | apply Nat.ltb_ge in E ];
    rewrite length_app in E; cbn [List.length] in E.
  - split; [ | split ].
    + unfold History.undo. cbn [History.history History.historyIndex].
      rewrite length_tl_pred, length_app. cbn [List.length].
      replace (0 <? Z.of_nat (pred (List.length kept + 1)) - 1)%Z with true
        by (symmetry; apply Z.ltb_lt; lia).
      cbn [snd]. rewrite nth_error_tl, Hcur.
      rewrite nth_error_app1 by lia. f_equal. lia.
    + unfold History.redo. cbn [History.history History.historyIndex].
      rewrite Z.ltb_irrefl. reflexivity.
    + exists 1%nat. split; [ lia | ]. cbn [History.history].
      destruct kept as [ | a kept ]; [ simpl in E; lia | reflexivity ].
  - split; [ | split ].
    + unfold History.undo. cbn [History.history History.historyIndex].
      rewrite length_app. cbn [List.length].
      replace (0 <? Z.of_nat (List.length kept + 1) - 1)%Z with true
        by (symmetry; apply Z.ltb_lt; lia).
      cbn [snd]. rewrite Hcur.
      rewrite nth_error_app1 by lia. f_equal. lia.
    + unfold History.redo. cbn [History.history History.historyIndex].
      rewrite Z.ltb_irrefl. reflexivity.
    + exists 0%nat. split; [ lia | ]. reflexivity.
Qed.

Lemma undo_after_recording_witness :
  snd (History.undo nat
         (History.pushHistory nat false 9%nat (History.mk nat [1; 2; 3]%nat 1)))
  = Some 2%nat.
Proof.
  assert (W : History.wf nat (History.mk nat [1; 2; 3]%nat 1)).
  { split; [ right; simpl; lia | unfold History.MAX_HISTORY; simpl; lia ]. }
  destruct (undo_after_recording nat (History.mk nat [1; 2; 3]%nat 1) 9%nat W)
    as [E _]; [ simpl; lia | ]. exact E.
Defined.

(** ** The waist / Rayleigh-range fields of a source, once more *)

Lemma sync_idempotent (src : Sources.Source) :
  Sources.syncSourceW0ZR (Sources.syncSourceW0ZR src) = Sources.syncSourceW0ZR src.
Proof.
  destruct (String.eqb (Sources.lastEdited src) "w0") eqn:E.
  - apply String.eqb_eq in E.
    rewrite (sync_w0 src E).
    rewrite sync_w0 by exact E. reflexivity.
  - rewrite (sync_zR src E).
    rewrite sync_zR by exact E. reflexivity.
Qed.

(** X29. The synchronisation of the two fields is stable: applying it
    twice is applying it once, so that re-synchronising every source at
    each [recompute] changes nothing.  And the Rayleigh range survives the
    trip through the waist field, as long as neither floor is reached:
    the Rayleigh range is at least 1e-9 mm and the waist it gives at
    least 1e-3 um. *)
Theorem rayleigh_roundtrip (z : R) (src : Sources.Source) :
  Sources.syncSourceW0ZR (Sources.syncSourceW0ZR src) = Sources.syncSourceW0ZR src
  /\ (0 < Sources.wavelength_nm (Sources.props src) ->
      1e-9 <= z ->
      1e-3 <= Sources.waist_w0_um (Sources.props (Sources.editRayleigh z src)) ->
      Sources.rayleighRoundTrip z src = z).
Proof.
  split; [ apply sync_idempotent | ].
  intros Hl Hz Hw.
  unfold Sources.rayleighRoundTrip. cbv zeta.
  unfold Sources.editWaist.
  rewrite (sync_w0 (Sources.mkSource _ _ "w0")) by reflexivity.
  cbn [Sources.props Sources.rayleigh_mm Sources.set_rayleigh_mm
       Sources.set_waist_w0_um Sources.waist_w0_um Sources.wavelength_nm
       Sources.M2].
  revert Hw. unfold Sources.editRayleigh.
  rewrite (sync_zR (Sources.mkSource _ _ "zR")) by reflexivity.
  cbn [Sources.props Sources.rayleigh_mm Sources.set_rayleigh_mm
       Sources.set_waist_w0_um Sources.waist_w0_um Sources.wavelength_nm
       Sources.M2 Sources.group Sources.lastEdited].
  set (M := Rmax 1.0 (Sources.nullish (Sources.M2 (Sources.props src)) 1.0)).
  set (lam := Sources.wavelength_nm (Sources.props src) * 1e-9).
  assert (HM : 1 <= M).
  { pose proof (Rmax_l 1.0 (Sources.nullish (Sources.M2 (Sources.props src)) 1.0)).
    unfold M. lra. }
  assert (Hlam : 0 < lam) by (unfold lam; lra).
  rewrite (Rmax_of_le 1e-12 (z * 1e-3)) by lra.
  set (A := z * 1e-3 * lam * M / PI).
  pose proof PI_RGT_0 as Hpi.
  assert (HA : 0 <= A).
  { unfold A. apply Rmult_le_pos; [ | apply Rlt_le, Rinv_0_lt_compat; lra ].
    apply Rmult_le_pos; [ | lra ]. apply Rmult_le_pos; lra. }
  intros Hw.
  rewrite (Rmax_of_le 1e-9 (sqrt A * 1e6 * 1e-6)) by lra.
  replace (PI * (sqrt A * 1e6 * 1e-6) * (sqrt A * 1e6 * 1e-6))
    with (PI * (sqrt A * sqrt A)) by lra.
  rewrite sqrt_sqrt by exact HA.
  unfold A. field. repeat split; lra.
Qed.

Lemma rayleigh_roundtrip_witness :
  Sources.rayleighRoundTrip 100 Propagation.implicitSource = 100.
Proof.
  apply (rayleigh_roundtrip 100 Propagation.implicitSource).
  - cbn. lra.
  - lra.
  - unfold Sources.editRayleigh.
    rewrite (sync_zR (Sources.mkSource _ _ "zR")) by reflexivity.
    cbn [Sources.props Sources.rayleigh_mm Sources.set_rayleigh_mm
         Sources.set_waist_w0_um Sources.waist_w0_um Sources.wavelength_nm
         Sources.M2 Sources.group Sources.lastEdited].
    apply Rle_trans with (sqrt (1e-6 * 1e-6) * 1e6);
      [ rewrite sqrt_square by lra; lra | ].
    apply Rmult_le_compat_r; [ lra | ].
    apply sqrt_le_1_alt.
    unfold Propagation.implicitSource.
    rewrite sync_w0 by reflexivity.
    cbn [Sources.props Sources.rayleigh_mm Sources.set_rayleigh_mm
         Sources.set_waist_w0_um Sources.waist_w0_um Sources.wavelength_nm
         Sources.M2 Sources.group Sources.lastEdited Sources.defaultProps
         Sources.nullish].
    rewrite (Rmax_of_le 1e-12 (100 * 1e-3)) by lra.
    rewrite (Rmax_of_le 1.0 1.0) by lra.
    pose proof PI_4 as P4. pose proof PI_RGT_0 as Hpi.
    apply Rmult_le_reg_r with PI; [ lra | ].
    assert (Hd : forall a, a / PI * PI = a) by (intros a; field; lra).
    rewrite Hd. lra.
Defined.

(** ** The polarization ellipse of a source *)

Lemma tan_shift (x : R) : cos x <> 0 -> tan (x + PI) = tan x.
Proof.
  intros H. unfold tan. rewrite neg_sin, neg_cos. field. exact H.
Qed.

(** [Math.atan2] recovers the polar angle. *)
Lemma atan2_polar (r th : R) :
  0 < r -> - PI < th <= PI ->
  JS.atan2 (r * sin th) (r * cos th) = th.
Proof.
  intros Hr Hth. pose proof PI_RGT_0 as Hpi. unfold JS.atan2.
  assert (Hq : cos th <> 0 -> r * sin th / (r * cos th) = tan th).
  { intros Hc. unfold tan. field. split; [ exact Hc | lra ]. }
  destruct (Rlt_dec 0 (r * cos th)) as [Hx | Hx].
  - assert (Hc : 0 < cos th) by nra.
    rewrite Hq by lra. apply atan_tan.
    split.
    + destruct (Rlt_dec (- (PI / 2)) th) as [ | Hn ]; [ assumption | exfalso ].
      assert (cos (- th) <= 0) by (apply cos_le_0; lra).
      rewrite cos_neg in *. lra.
    + destruct (Rlt_dec th (PI / 2)) as [ | Hn ]; [ assumption | exfalso ].
      assert (cos th <= 0) by (apply cos_le_0; lra). lra.
  - destruct (Rlt_dec (r * cos th) 0) as [Hx' | Hx'].
    + assert (Hc : cos th < 0) by nra.
      rewrite Hq by lra.
      destruct (Rle_dec 0 (r * sin th)) as [Hy | Hy].
      * assert (Hs : 0 <= sin th) by nra.
        assert (H1 : PI / 2 < th).
        { destruct (Rlt_dec (PI / 2) th) as [ | Hn ]; [ assumption | exfalso ].
          destruct (Rlt_dec th 0) as [Hneg | Hpos].
          - pose proof (sin_lt_0_var th) as Hsl. lra.
          - assert (0 <= cos th) by (apply cos_ge_0; lra). lra. }
        replace th with ((th - PI) + PI) at 1 by ring.
        rewrite tan_shift.
        -- rewrite atan_tan; lra.
        -- assert (0 < cos (th - PI)) by (apply cos_gt_0; lra). lra.
      * assert (Hs : sin th < 0) by nra.
        assert (H1 : th < - (PI / 2)).
        { destruct (Rlt_dec th (- (PI / 2))) as [ | Hn ]; [ assumption | exfalso ].
          destruct (Rlt_dec th 0) as [Hneg | Hpos].
          - assert (0 <= cos th) by (apply cos_ge_0; lra). lra.
          - assert (0 <= sin th) by (apply sin_ge_0; lra). lra. }
        rewrite <- (tan_shift th) by lra.
        rewrite atan_tan; lra.
    + assert (Hc : cos th = 0) by nra.
      assert (Hcases : th = PI / 2 \/ th = - (PI / 2)).
      { destruct (Rlt_dec 0 th) as [Hp | Hn].
        - left. destruct (Rtotal_order th (PI / 2)) as [Hl | [He | Hg]];
            [ exfalso | exact He | exfalso ].
          + assert (0 < cos th) by (apply cos_gt_0; lra). lra.
          + assert (cos th < 0) by (apply cos_lt_0; lra). lra.
        - right. destruct (Rtotal_order th (- (PI / 2))) as [Hl | [He | Hg]];
            [ exfalso | exact He | exfalso ].
          + assert (cos (- th) < 0) by (apply cos_lt_0; lra).
            rewrite cos_neg in *. lra.
          + assert (0 < cos th) by (apply cos_gt_0; lra). lra. }
      destruct Hcases as [-> | ->].
      * rewrite sin_PI2. destruct (Rlt_dec 0 (r * 1)); lra.
      * rewrite sin_neg, sin_PI2.
        destruct (Rlt_dec 0 (r * - (1))); [ lra | ].
        destruct (Rlt_dec (r * - (1)) 0); lra.
Qed.

(** The Stokes parameters of the Jones vector that [_psiChiToJonesPol]
    builds. *)
Lemma psiChi_stokes (psi chi : R) :
  let Ex := fst (Sources.psiChiToJonesPol psi chi) in
  let Ey := snd (Sources.psiChiToJonesPol psi chi) in
  let a := psi * PI / 180 in
  let b := chi * PI / 180 in
  (Complex.re Ex * Complex.re Ex + Complex.im Ex * Complex.im Ex)
  + (Complex.re Ey * Complex.re Ey + Complex.im Ey * Complex.im Ey) = 1
  /\ (Complex.re Ex * Complex.re Ex + Complex.im Ex * Complex.im Ex)
     - (Complex.re Ey * Complex.re Ey + Complex.im Ey * Complex.im Ey)
     = cos (2 * b) * cos (2 * a)
  /\ 2 * (Complex.re Ex * Complex.re Ey + Complex.im Ex * Complex.im Ey)
     = cos (2 * b) * sin (2 * a)
  /\ 2 * (Complex.im Ex * Complex.re Ey - Complex.re Ex * Complex.im Ey)
     = sin (2 * b).
Proof.
  unfold Sources.psiChiToJonesPol. cbv zeta. rewrite !or_zero_r.
  cbn [fst snd Complex.re Complex.im].
  set (a := psi * PI / 180). set (b := chi * PI / 180).
  rewrite !sin_2a, !cos_2a.
  pose proof (trig_one a) as Ta. pose proof (trig_one b) as Tb.
  split; [ | split; [ | split ] ].
  - transitivity ((sin a * sin a + cos a * cos a) * (sin b * sin b + cos b * cos b));
      [ ring | rewrite Ta, Tb; ring ].
  - ring.
  - ring.
  - transitivity (2 * sin b * cos b * (sin a * sin a + cos a * cos a));
      [ ring | rewrite Ta; ring ].
Qed.

Lemma deg_rad (x : R) : x * PI / 180 * 180 / PI = x.
Proof. pose proof PI_RGT_0. field. lra. Qed.

Lemma deg_bounds (x lo hi : R) :
  lo < x * 2 <= hi -> lo * (PI / 180) < 2 * (x * PI / 180) <= hi * (PI / 180).
Proof.
  pose proof PI_RGT_0 as Hpi. intros [A B].
  assert (Hk : 0 < PI / 180) by (apply Rdiv_lt_0_compat; lra).
  replace (2 * (x * PI / 180)) with (x * 2 * (PI / 180)) by (field; lra).
  split; [ apply Rmult_lt_compat_r | apply Rmult_le_compat_r ]; lra.
Qed.

Lemma deg_bounds_le (x lo hi : R) :
  lo <= x * 2 <= hi -> lo * (PI / 180) <= 2 * (x * PI / 180) <= hi * (PI / 180).
Proof.
  pose proof PI_RGT_0 as Hpi. intros [A B].
  assert (Hk : 0 < PI / 180) by (apply Rdiv_lt_0_compat; lra).
  replace (2 * (x * PI / 180)) with (x * 2 * (PI / 180)) by (field; lra).
  split; apply Rmult_le_compat_r; lra.
Qed.

(** X30. The ellipse editor of a source.  The Jones vector built from an
    orientation [psi] and an ellipticity [chi], in degrees, has norm one.
    Read back, it gives the same ellipticity when [chi] is within 45
    degrees of zero, and the same orientation when moreover [chi] is not
    circular and [psi] lies in (-90, 90].  The readout that the
    propagation computes for this Jones vector shows the same two
    angles. *)
Theorem ellipse_angles_roundtrip (psi chi : R) :
  let Jv := Sources.psiChiToJonesPol psi chi in
  Optics.jNorm Jv = 1
  /\ (-45 <= chi <= 45 ->
      snd (Sources.jonesToPsiChiPol (fst Jv) (snd Jv)) = chi
      /\ snd (Propagation.polEllipseAngles Jv) = chi)
  /\ (-45 < chi < 45 -> -90 < psi <= 90 ->
      Sources.jonesToPsiChiPol (fst Jv) (snd Jv) = (psi, chi)
      /\ Propagation.polEllipseAngles Jv = (psi, chi)).
Proof.
  cbv zeta. pose proof PI_RGT_0 as Hpi.
  destruct (psiChi_stokes psi chi) as (S0 & S1 & S2 & S3). cbv zeta in *.
  set (Jv := Sources.psiChiToJonesPol psi chi) in *.
  assert (Hchi : -45 <= chi <= 45 ->
                 0.5 * asin (sin (2 * (chi * PI / 180))) * 180 / PI = chi).
  { intros Hc. rewrite asin_sin.
    - replace (0.5 * (2 * (chi * PI / 180))) with (chi * PI / 180) by lra.
      apply deg_rad.
    - pose proof (deg_bounds_le chi (-90) 90) as Hb.
      replace (-90 * (PI / 180)) with (- (PI / 2)) in Hb by (field; lra).
      replace (90 * (PI / 180)) with (PI / 2) in Hb by (field; lra).
      apply Hb. lra. }
  assert (Hclamp : Rmax (-1) (Rmin 1 (sin (2 * (chi * PI / 180))))
                   = sin (2 * (chi * PI / 180))).
  { pose proof (SIN_bound (2 * (chi * PI / 180))) as [B1 B2].
    rewrite Rmin_of_ge by lra. apply Rmax_of_le; lra. }
  assert (HU : snd (Sources.jonesToPsiChiPol (fst Jv) (snd Jv))
               = 0.5 * asin (sin (2 * (chi * PI / 180))) * 180 / PI
             /\ fst (Sources.jonesToPsiChiPol (fst Jv) (snd Jv))
                = 0.5 * JS.atan2 (cos (2 * (chi * PI / 180)) * sin (2 * (psi * PI / 180)))
                          (cos (2 * (chi * PI / 180)) * cos (2 * (psi * PI / 180)))
                  * 180 / PI).
  { unfold Sources.jonesToPsiChiPol. cbv zeta. rewrite S0, S1, S2, S3.
    destruct (Rle_dec 1 1e-18); [ lra | ]. cbn [fst snd].
    rewrite (Rmax_of_le 1e-12 1) by lra.
    replace (sin (2 * (chi * PI / 180)) / 1) with (sin (2 * (chi * PI / 180)))
      by field.
    rewrite Hclamp. split; reflexivity. }
  assert (HP : snd (Propagation.polEllipseAngles Jv)
               = 0.5 * asin (sin (2 * (chi * PI / 180))) * 180 / PI
             /\ fst (Propagation.polEllipseAngles Jv)
                = 0.5 * JS.atan2 (cos (2 * (chi * PI / 180)) * sin (2 * (psi * PI / 180)))
                          (cos (2 * (chi * PI / 180)) * cos (2 * (psi * PI / 180)))
                  * 180 / PI).
  { unfold Propagation.polEllipseAngles. cbv zeta.
    replace (- Complex.re (fst Jv) * Complex.im (snd Jv)
             + Complex.im (fst Jv) * Complex.re (snd Jv))
      with (Complex.im (fst Jv) * Complex.re (snd Jv)
            - Complex.re (fst Jv) * Complex.im (snd Jv)) by ring.
    rewrite S0, S1, S2, S3.
    destruct (Req_dec_T 1 0); [ lra | ]. cbn [fst snd].
    replace (sin (2 * (chi * PI / 180)) / 1) with (sin (2 * (chi * PI / 180)))
      by field.
    rewrite Hclamp. split; reflexivity. }
  destruct HU as [HU2 HU1]. destruct HP as [HP2 HP1].
  split; [ | split ].
  - unfold Optics.jNorm. fold Jv.
    transitivity (sqrt 1); [ f_equal | apply sqrt_1 ].
    etransitivity; [ | exact S0 ]. ring.
  - intros Hc. rewrite HU2, HP2, Hchi by assumption. split; reflexivity.
  - intros Hc Hp.
    assert (Hcos : 0 < cos (2 * (chi * PI / 180))).
    { pose proof (deg_bounds chi (-90) 90) as Hb.
      replace (-90 * (PI / 180)) with (- (PI / 2)) in Hb by (field; lra).
      replace (90 * (PI / 180)) with (PI / 2) in Hb by (field; lra).
      destruct Hb as [B1 B2]; [ lra | ].
      destruct (Req_dec_T (2 * (chi * PI / 180)) (PI / 2)) as [E | NE].
      - exfalso. assert (chi = 45); [ | lra ].
        apply Rmult_eq_reg_r with (2 * PI / 180); [ | lra ].
        transitivity (2 * (chi * PI / 180)); [ field | rewrite E; field ].
      - apply cos_gt_0; lra. }
    assert (Hpsi : 0.5 * JS.atan2 (cos (2 * (chi * PI / 180)) * sin (2 * (psi * PI / 180)))
                           (cos (2 * (chi * PI / 180)) * cos (2 * (psi * PI / 180)))
                   * 180 / PI = psi).
    { rewrite atan2_polar.
      - replace (0.5 * (2 * (psi * PI / 180))) with (psi * PI / 180) by lra.
        apply deg_rad.
      - exact Hcos.
      - pose proof (deg_bounds psi (-180) 180) as Hb.
        replace (-180 * (PI / 180)) with (- PI) in Hb by (field; lra).
        replace (180 * (PI / 180)) with PI in Hb by (field; lra).
        apply Hb. lra. }
    split.
    + rewrite (surjective_pairing (Sources.jonesToPsiChiPol _ _)).
      rewrite HU1, HU2, Hpsi, Hchi by lra. reflexivity.
    + rewrite (surjective_pairing (Propagation.polEllipseAngles _)).
      rewrite HP1, HP2, Hpsi, Hchi by lra. reflexivity.
Qed.

Lemma ellipse_angles_roundtrip_witness :
  Sources.jonesToPsiChiPol (fst (Sources.psiChiToJonesPol 30 10))
                           (snd (Sources.psiChiToJonesPol 30 10))
  = (30, 10).
Proof.
  destruct (ellipse_angles_roundtrip 30 10) as (_ & _ & H).
  destruct H as [E _]; [ lra | lra | exact E ].
Defined.

(** ** The Faraday rotator and the beam splitter on the bench *)

Lemma faraday_rotates_witness :
  Elements.faradayJones (Bench.panel 5 0.1) 45
    (Elements.faradayJones (Bench.panel 5 0.1) 45
       (Complex.mk 1 0, Complex.mk 0 0) (THREE.vec3 0 0 1))
    (THREE.multiplyScalar (THREE.vec3 0 0 1) (-1))
  = (Complex.mk 1 0, Complex.mk 0 0).
Proof.
  apply (proj2 (proj2 (proj2 (faraday_rotates (Bench.panel 5 0.1) 45
                                (Complex.mk 1 0, Complex.mk 0 0)
                                (THREE.vec3 0 0 1))))).
  change (THREE.worldQuaternion (Bench.panel 5 0.1)) with (THREE.quat 0 0 0 1).
  rewrite identity_pose_normal. unfold THREE.dot; simpl; lra.
Defined.

